(** * Bayesian M&V engine: conjugate Normal-Inverse-Gamma change-point regression

    A shallow embedding of [src/bayesEngine.js] and the properties its
    specification states about it.

    ** Numbers

    JavaScript numbers are IEEE-754 doubles.  The embedding keeps the shape
    of that type -- finite values, the two infinities and NaN -- and reads a
    finite double as the real number it denotes: [Fin x] with [x : R].
    Arithmetic on finite values is exact (no rounding, no overflow) and the
    sign of zero is not tracked (a zero divisor is read as [+0]).  Every
    other rule of the JavaScript operators is written out: NaN is
    absorbing, [Infinity - Infinity] is NaN, comparisons with NaN are false,
    [Math.log 0] is [-Infinity], and so on.

    ** Arrays

    An array of numbers is a [list num]; a matrix is a list of rows.  A
    numeric read [a[i]] is [a !!! i]: out of range it yields NaN, which is
    what [undefined] becomes in arithmetic.  The functions are modelled on
    the shapes their JSDoc gives (X is n x p, y has n entries, Lambda0 is
    p x p, matInvert receives a square matrix); the theorems state these
    shapes as hypotheses. *)

From Stdlib Require Import Reals Lra Lia String.
From stdpp Require Import base list strings sorting.

Local Open Scope R_scope.

(* ------------------------------------------------------------------ *)
(** * JavaScript numbers *)
(* ------------------------------------------------------------------ *)

Inductive num : Type :=
| Fin (x : R)
| PInf
| NInf
| NaN.

#[global] Instance num_inhabited : Inhabited num := populate NaN.
#[global] Instance Rlt_decision (x y : R) : Decision (x < y) := Rlt_dec x y.
#[global] Instance Rle_decision (x y : R) : Decision (x <= y) := Rle_dec x y.
#[global] Instance Req_decision : EqDecision R := Req_dec_T.

Definition is_fin (a : num) : Prop :=
  match a with Fin _ => True | _ => False end.

Definition toR (a : num) : R :=
  match a with Fin x => x | _ => 0 end.

(** [pos], [neg] or NaN according to the sign of [x]: the value of
    [x * Infinity] when [pos] is [PInf]. *)
Definition by_sign (x : R) (pos neg : num) : num :=
  if decide (0 < x) then pos else if decide (x < 0) then neg else NaN.

Definition nneg (a : num) : num :=
  match a with
  | Fin x => Fin (- x)
  | PInf => NInf
  | NInf => PInf
  | NaN => NaN
  end.

Definition nadd (a b : num) : num :=
  match a with
  | NaN => NaN
  | Fin x =>
      match b with Fin y => Fin (x + y) | other => other end
  | PInf =>
      match b with NaN | NInf => NaN | _ => PInf end
  | NInf =>
      match b with NaN | PInf => NaN | _ => NInf end
  end.

Definition nsub (a b : num) : num := nadd a (nneg b).

Definition nmul (a b : num) : num :=
  match a with
  | NaN => NaN
  | Fin x =>
      match b with
      | Fin y => Fin (x * y)
      | PInf => by_sign x PInf NInf
      | NInf => by_sign x NInf PInf
      | NaN => NaN
      end
  | PInf =>
      match b with
      | Fin y => by_sign y PInf NInf
      | PInf => PInf
      | NInf => NInf
      | NaN => NaN
      end
  | NInf =>
      match b with
      | Fin y => by_sign y NInf PInf
      | PInf => NInf
      | NInf => PInf
      | NaN => NaN
      end
  end.

Definition ndiv (a b : num) : num :=
  match a with
  | NaN => NaN
  | Fin x =>
      match b with
      | Fin y => if decide (y = 0) then by_sign x PInf NInf else Fin (x / y)
      | PInf | NInf => Fin 0
      | NaN => NaN
      end
  | PInf =>
      match b with
      | Fin y => if decide (y < 0) then NInf else PInf
      | _ => NaN
      end
  | NInf =>
      match b with
      | Fin y => if decide (y < 0) then PInf else NInf
      | _ => NaN
      end
  end.

Definition nabs (a : num) : num :=
  match a with
  | Fin x => Fin (Rabs x)
  | PInf | NInf => PInf
  | NaN => NaN
  end.

(** [a < b], [a <= b] and [a === b] *)
Definition nlt (a b : num) : bool :=
  match a with
  | NaN => false
  | Fin x =>
      match b with Fin y => bool_decide (x < y) | PInf => true | _ => false end
  | PInf => false
  | NInf =>
      match b with Fin _ | PInf => true | _ => false end
  end.

Definition nle (a b : num) : bool :=
  match a with
  | NaN => false
  | Fin x =>
      match b with Fin y => bool_decide (x <= y) | PInf => true | _ => false end
  | PInf =>
      match b with PInf => true | _ => false end
  | NInf =>
      match b with NaN => false | _ => true end
  end.

Definition neqb (a b : num) : bool :=
  match a, b with
  | Fin x, Fin y => bool_decide (x = y)
  | PInf, PInf | NInf, NInf => true
  | _, _ => false
  end.

Declare Scope num_scope.
Delimit Scope num_scope with num.
Bind Scope num_scope with num.
Notation "a + b" := (nadd a b) : num_scope.
Notation "a - b" := (nsub a b) : num_scope.
Notation "a * b" := (nmul a b) : num_scope.
Notation "a / b" := (ndiv a b) : num_scope.
Notation "- a" := (nneg a) : num_scope.
Notation "a <? b" := (nlt a b) : num_scope.
Notation "a <=? b" := (nle a b) : num_scope.
Notation "a >? b" := (nlt b a) : num_scope.
Notation "a >=? b" := (nle b a) : num_scope.
Notation "a =? b" := (neqb a b) : num_scope.

(** The number a JavaScript integer denotes *)
Definition of_nat (k : nat) : num := Fin (INR k).

(** ** The [Math] object *)

Definition Math_abs := nabs.

Definition Math_PI : num := Fin PI.

Definition Math_max2 (a b : num) : num :=
  match a, b with
  | NaN, _ | _, NaN => NaN
  | _, _ => if (a <? b)%num then b else a
  end.

Definition Math_min2 (a b : num) : num :=
  match a, b with
  | NaN, _ | _, NaN => NaN
  | _, _ => if (b <? a)%num then b else a
  end.

(** [Math.max(...l)] and [Math.min(...l)]: the empty call gives
    [-Infinity] and [Infinity]. *)
Definition Math_max (l : list num) : num := foldl Math_max2 NInf l.
Definition Math_min (l : list num) : num := foldl Math_min2 PInf l.

Definition Math_floor (a : num) : num :=
  match a with
  | Fin x => Fin (IZR (Int_part x))
  | other => other
  end.

Definition Math_sqrt (a : num) : num :=
  match a with
  | Fin x => if decide (x < 0) then NaN else Fin (sqrt x)
  | PInf => PInf
  | _ => NaN
  end.

Definition Math_log (a : num) : num :=
  match a with
  | Fin x =>
      if decide (0 < x) then Fin (ln x)
      else if decide (x = 0) then NInf else NaN
  | PInf => PInf
  | _ => NaN
  end.

Definition Math_exp (a : num) : num :=
  match a with
  | Fin x => Fin (exp x)
  | PInf => PInf
  | NInf => Fin 0
  | NaN => NaN
  end.

Definition Math_sin (a : num) : num :=
  match a with Fin x => Fin (sin x) | _ => NaN end.

Definition Math_cos (a : num) : num :=
  match a with Fin x => Fin (cos x) | _ => NaN end.

(** [x] is an integer, and an odd one *)
Definition is_int (x : R) : bool := bool_decide (IZR (Int_part x) = x).
Definition is_odd_int (x : R) : bool := is_int x && Z.odd (Int_part x).

(** [Math.pow]: the exponent is examined first ([pow(NaN, 0)] is 1). *)
Definition Math_pow (a b : num) : num :=
  match b with
  | NaN => NaN
  | Fin y =>
      if decide (y = 0) then Fin 1 else
      match a with
      | NaN => NaN
      | Fin x =>
          if decide (0 < x) then Fin (Rpower x y)
          else if decide (x = 0) then (if decide (0 < y) then Fin 0 else PInf)
          else if is_int y then
            Fin ((if is_odd_int y then -1 else 1) * Rpower (- x) y)
          else NaN
      | PInf => if decide (0 < y) then PInf else Fin 0
      | NInf =>
          if decide (0 < y) then (if is_odd_int y then NInf else PInf)
          else Fin 0
      end
  | PInf =>
      match a with
      | NaN => NaN
      | Fin x =>
          if decide (1 < Rabs x) then PInf
          else if decide (Rabs x = 1) then NaN else Fin 0
      | _ => PInf
      end
  | NInf =>
      match a with
      | NaN => NaN
      | Fin x =>
          if decide (1 < Rabs x) then Fin 0
          else if decide (Rabs x = 1) then NaN else PInf
      | _ => Fin 0
      end
  end.

Local Close Scope R_scope.

(* ------------------------------------------------------------------ *)
(** * Matrix utilities *)
(* ------------------------------------------------------------------ *)

Abbreviation vec := (list num).
Abbreviation matrix := (list (list num)).

(** [l.reduce((s, a, j) => f s a j, s0)] *)
Fixpoint reduce_from {A B : Type} (f : B -> A -> nat -> B) (j : nat)
    (l : list A) (s : B) : B :=
  match l with
  | [] => s
  | a :: l' => reduce_from f (S j) l' (f s a j)
  end.

Definition reduce {A B : Type} (f : B -> A -> nat -> B) (s0 : B) (l : list A) : B :=
  reduce_from f 0 l s0.

(** [for (let i = lo; i < hi; i++)]: the indices visited *)
Definition range (lo hi : nat) : list nat := seq lo (hi - lo).

Definition matMul (A B : matrix) : matrix :=
  let m := length A in
  let n := length (B !!! 0) in
  let k := length B in
  (fun i : nat =>
     (fun j : nat =>
        foldl (fun c l => (c + ((A !!! i) !!! l) * ((B !!! l) !!! j))%num) (Fin 0) (range 0 k))
     <$> range 0 n)
  <$> range 0 m.

Definition matVecMul (A : matrix) (v : vec) : vec :=
  (fun row : vec => reduce (fun s a j => (s + a * (v !!! j))%num) (Fin 0) row) <$> A.

Definition vecDot (a b : vec) : num :=
  reduce (fun s ai i => (s + ai * (b !!! i))%num) (Fin 0) a.

Definition matTranspose (A : matrix) : matrix :=
  let m := length A in
  let n := length (A !!! 0) in
  (fun j : nat => (fun i : nat => (A !!! i) !!! j) <$> range 0 m) <$> range 0 n.

Definition matAdd (A B : matrix) : matrix :=
  imap (fun i row => imap (fun j v => (v + ((B !!! i) !!! j))%num) row) A.

Definition matScale (A : matrix) (s : num) : matrix :=
  (fun row : vec => (fun v : num => (v * s)%num) <$> row) <$> A.

Definition identityMatrix (n : nat) : matrix :=
  (fun i : nat => (fun j : nat => if decide (i = j) then Fin 1 else Fin 0) <$> range 0 n)
  <$> range 0 n.

(** The pivot tolerance of [matInvert] and [matDet], [1e-14] *)
Definition pivot_tol : num := Fin 1e-14.

(** [[a[i], a[j]] = [a[j], a[i]]] *)
Definition swap_rows (i j : nat) (a : matrix) : matrix :=
  <[j := a !!! i]> (<[i := a !!! j]> a).

(** [for (let j = lo; j < hi; j++) r[j] = g j r[j]] on a row of at least
    [hi] entries *)
Definition for_cols (lo hi : nat) (g : nat -> num -> num) (r : vec) : vec :=
  imap (fun j v => if decide (lo <= j < hi) then g j v else v) r.

(** The partial-pivoting search: the row of largest magnitude in column
    [col], among rows [col .. n-1], the first one on ties. *)
Definition find_pivot (a : matrix) (n col : nat) : nat :=
  foldl (fun maxRow row =>
           if (Math_abs ((a !!! row) !!! col) >? Math_abs ((a !!! maxRow) !!! col))%num
           then row else maxRow)
        col (range (S col) n).

Definition scale_pivot_row (a : matrix) (n col : nat) : matrix :=
  let pivot := (a !!! col) !!! col in
  <[col := for_cols 0 (2 * n) (fun _ v => (v / pivot)%num) (a !!! col)]> a.

Definition eliminate_row (n col : nat) (a : matrix) (row : nat) : matrix :=
  if decide (row = col) then a else
  let f := (a !!! row) !!! col in
  <[row := for_cols 0 (2 * n) (fun j v => (v - f * ((a !!! col) !!! j))%num) (a !!! row)]> a.

Definition eliminate (a : matrix) (n col : nat) : matrix :=
  foldl (eliminate_row n col) a (range 0 n).

(** One iteration of the column loop of [matInvert]; [None] is the early
    [return null]. *)
Definition invert_step (n : nat) (a : matrix) (col : nat) : option matrix :=
  let maxRow := find_pivot a n col in
  let a := swap_rows col maxRow a in
  if (Math_abs ((a !!! col) !!! col) <? pivot_tol)%num then None
  else Some (eliminate (scale_pivot_row a n col) n col).

Fixpoint invert_loop (n : nat) (cols : list nat) (a : matrix) : option matrix :=
  match cols with
  | [] => Some a
  | col :: cols' =>
      match invert_step n a col with
      | None => None
      | Some a' => invert_loop n cols' a'
      end
  end.

Definition augment (M : matrix) : matrix :=
  let n := length M in
  imap (fun i row =>
          row ++ ((fun j : nat => if decide (i = j) then Fin 1 else Fin 0) <$> range 0 n))
       M.

(** [matInvert]: Gauss-Jordan elimination with partial pivoting; [None] is
    the [null] it returns for a pivot below the tolerance. *)
Definition matInvert (M : matrix) : option matrix :=
  let n := length M in
  (fun a : matrix => drop n <$> a) <$> invert_loop n (range 0 n) (augment M).

(** ** Determinant *)

(** The state of the LU loop of [matDet]: the running determinant and the
    working copy. *)
Definition lu_eliminate (n i : nat) (a : matrix) (k : nat) : matrix :=
  let f := ((a !!! k) !!! i / (a !!! i) !!! i)%num in
  <[k := for_cols i n (fun j v => (v - f * ((a !!! i) !!! j))%num) (a !!! k)]> a.

Fixpoint lu_loop (n : nat) (cols : list nat) (det : num) (a : matrix) : num :=
  match cols with
  | [] => det
  | i :: cols' =>
      let maxRow := find_pivot a n i in
      let '(a, det) :=
        if decide (maxRow = i) then (a, det)
        else (swap_rows i maxRow a, (det * Fin (-1))%num) in
      if (Math_abs ((a !!! i) !!! i) <? pivot_tol)%num then Fin 0
      else
        let det := (det * (a !!! i) !!! i)%num in
        lu_loop n cols' det (foldl (lu_eliminate n i) a (range (S i) n))
  end.

Definition matDet (M : matrix) : num :=
  let n := length M in
  let m i j := (M !!! i) !!! j in
  if decide (n = 1) then m 0 0 else
  if decide (n = 2) then (m 0 0 * m 1 1 - m 0 1 * m 1 0)%num else
  if decide (n = 3) then
    (m 0 0 * (m 1 1 * m 2 2 - m 1 2 * m 2 1)
     - m 0 1 * (m 1 0 * m 2 2 - m 1 2 * m 2 0)
     + m 0 2 * (m 1 0 * m 2 1 - m 1 1 * m 2 0))%num
  else lu_loop n (range 0 n) (Fin 1) M.

(* ------------------------------------------------------------------ *)
(** * Special functions *)
(* ------------------------------------------------------------------ *)

Definition lanczos_coef : vec :=
  [ Fin 0.99999999999980993; Fin 676.5203681218851; Fin (-1259.1392167224028);
    Fin 771.32342877765313; Fin (-176.61502916214059); Fin 12.507343278686905;
    Fin (-0.13857109526572012); Fin 9.9843695780195716e-6;
    Fin 1.5056327351493116e-7 ].

(** The Lanczos series: the body of [logGamma] below its two guards *)
Definition lanczos (z : num) : num :=
  let g := 7 in
  let z := (z - Fin 1)%num in
  let x := foldl (fun x i => (x + (lanczos_coef !!! i) / (z + of_nat i))%num)
                 (lanczos_coef !!! 0) (range 1 (g + 2)) in
  let t := (z + of_nat g + Fin 0.5)%num in
  (Fin 0.5 * Math_log (Fin 2 * Math_PI) + (z + Fin 0.5) * Math_log t - t
   + Math_log x)%num.

(** [logGamma] calls itself in its reflection branch.  [fuel] bounds the
    call stack ([None]: the bound was reached); the second component of the
    result counts the nested calls that were made. *)
Fixpoint logGamma_fuel (fuel : nat) (z : num) : option (num * nat) :=
  match fuel with
  | O => None
  | S fuel' =>
      if (z <=? Fin 0)%num then Some (PInf, O)
      else if (z <? Fin 0.5)%num then
        match logGamma_fuel fuel' (Fin 1 - z)%num with
        | Some (r, depth) =>
            Some ((Math_log (Math_PI / Math_sin (Math_PI * z)) - r)%num, S depth)
        | None => None
        end
      else Some (lanczos z, O)
  end.

(** Two frames always suffice ([logGamma_fuel_enough] below). *)
Definition logGamma (z : num) : num :=
  match logGamma_fuel 2 z with
  | Some (r, _) => r
  | None => NaN
  end.

(** The continued fraction of the incomplete beta function (Lentz) *)
Definition tiny_floor (d : num) : num :=
  if (Math_abs d <? Fin 1e-30)%num then Fin 1e-30 else d.

Fixpoint betaCF_loop (a b x qab qap qam : num) (ms : list nat) (c d h : num) : num :=
  match ms with
  | [] => h
  | k :: ms' =>
      let m := of_nat k in
      let eps := Fin 1e-14 in
      let m2 := (Fin 2 * m)%num in
      let aa := (m * (b - m) * x / ((qam + m2) * (a + m2)))%num in
      let d := (Fin 1 / tiny_floor (Fin 1 + aa * d))%num in
      let c := tiny_floor (Fin 1 + aa / c)%num in
      let h := (h * (d * c))%num in
      let aa := (- (a + m) * (qab + m) * x / ((a + m2) * (qap + m2)))%num in
      let d := (Fin 1 / tiny_floor (Fin 1 + aa * d))%num in
      let c := tiny_floor (Fin 1 + aa / c)%num in
      let del := (d * c)%num in
      let h := (h * del)%num in
      if (Math_abs (del - Fin 1) <? eps)%num then h
      else betaCF_loop a b x qab qap qam ms' c d h
  end.

Definition betaCF (a b x : num) : num :=
  let maxIter := 200 in
  let qab := (a + b)%num in
  let qap := (a + Fin 1)%num in
  let qam := (a - Fin 1)%num in
  let c := Fin 1 in
  let d := (Fin 1 / tiny_floor (Fin 1 - qab * x / qap))%num in
  let h := d in
  betaCF_loop a b x qab qap qam (range 1 (maxIter + 1)) c d h.

Definition regIncBeta (a b x : num) : num :=
  if (x <=? Fin 0)%num then Fin 0 else
  if (x >=? Fin 1)%num then Fin 1 else
  let lnBeta := (logGamma a + logGamma b - logGamma (a + b))%num in
  let front :=
    Math_exp (Math_log x * a + Math_log (Fin 1 - x) * b - lnBeta)%num in
  if (x <? (a + Fin 1) / (a + b + Fin 2))%num
  then (front * betaCF a b x / a)%num
  else (Fin 1 - front * betaCF b a (Fin 1 - x) / b)%num.

Definition studentTPDF (x nu mu scale : num) : num :=
  let z := ((x - mu) / scale)%num in
  let logP :=
    (logGamma ((nu + Fin 1) / Fin 2) - logGamma (nu / Fin 2)
     - Fin 0.5 * Math_log (nu * Math_PI) - Math_log scale
     - ((nu + Fin 1) / Fin 2) * Math_log (Fin 1 + z * z / nu))%num in
  Math_exp logP.

Definition studentTCDF (x nu mu scale : num) : num :=
  let z := ((x - mu) / scale)%num in
  let t := (nu / (nu + z * z))%num in
  if (z >=? Fin 0)%num
  then (Fin 1 - Fin 0.5 * regIncBeta (nu / Fin 2) (Fin 0.5) t)%num
  else (Fin 0.5 * regIncBeta (nu / Fin 2) (Fin 0.5) t)%num.

Fixpoint bisect (iters : nat) (p nu mu scale lo hi : num) : num * num :=
  match iters with
  | O => (lo, hi)
  | S iters' =>
      let mid := ((lo + hi) / Fin 2)%num in
      if (studentTCDF mid nu mu scale <? p)%num
      then bisect iters' p nu mu scale mid hi
      else bisect iters' p nu mu scale lo mid
  end.

Definition studentTQuantile (p nu mu scale : num) : num :=
  if (p <=? Fin 0)%num then NInf else
  if (p >=? Fin 1)%num then PInf else
  if (p =? Fin 0.5)%num then mu else
  let lo := (mu - Fin 50 * scale)%num in
  let hi := (mu + Fin 50 * scale)%num in
  let '(lo, hi) := bisect 80 p nu mu scale lo hi in
  ((lo + hi) / Fin 2)%num.


Definition normalPDF (x mu sigma : num) : num :=
  let z := ((x - mu) / sigma)%num in
  (Math_exp (- Fin 0.5 * z * z) / (sigma * Math_sqrt (Fin 2 * Math_PI)))%num.

(* ------------------------------------------------------------------ *)
(** * Bayesian linear regression (conjugate NIG) *)
(* ------------------------------------------------------------------ *)

Local Open Scope string_scope.
Local Open Scope list_scope.

(** A change-point argument is a number or [null]; [null] is 0 in
    arithmetic. *)
Definition null_to_num (c : option num) : num := default (Fin 0) c.

Definition buildDesignMatrix (temps : vec) (modelType : string)
    (cp1 cp2 : option num) : matrix :=
  let cp1 := null_to_num cp1 in
  let cp2 := null_to_num cp2 in
  if decide (modelType = "3PH") then
    (fun t : num => [Fin 1; Math_max [Fin 0; (cp1 - t)%num]]) <$> temps
  else if decide (modelType = "3PC") then
    (fun t : num => [Fin 1; Math_max [Fin 0; (t - cp1)%num]]) <$> temps
  else if decide (modelType = "5P") then
    (fun t : num =>
       [Fin 1; Math_max [Fin 0; (cp1 - t)%num]; Math_max [Fin 0; (t - cp2)%num]])
    <$> temps
  else
    (fun t : num => [Fin 1; t]) <$> temps.

Record Posterior := mkPosterior {
  muN : vec;
  LambdaN : matrix;
  LambdaN_inv : matrix;
  aN : num;
  bN : num;
  logML : num;
  post_n : nat;
  post_p : nat;
  betaOLS : vec;
  R2 : num;
  cvRMSE_OLS : num;
}.

(** The accumulation loops of [bayesianRegression] (and of [fitOLS]):
    [XtX2[j][k] += X[i][j] * X[i][k]] and [Xty[j] += X[i][j] * y[i]]. *)
Definition accumulate_XtX (X : matrix) (n p : nat) : matrix :=
  foldl (fun (M : matrix) i =>
    foldl (fun (M : matrix) j =>
      foldl (fun (M : matrix) k =>
               <[j := <[k := ((M !!! j) !!! k + (X !!! i) !!! j * (X !!! i) !!! k)%num]>
                        (M !!! j)]> M)
            M (range 0 p))
      M (range 0 p))
    (replicate p (replicate p (Fin 0))) (range 0 n).

Definition accumulate_Xty (X : matrix) (y : vec) (n p : nat) : vec :=
  foldl (fun (v : vec) i =>
    foldl (fun (v : vec) j =>
             <[j := (v !!! j + (X !!! i) !!! j * y !!! i)%num]> v)
          v (range 0 p))
    (replicate p (Fin 0)) (range 0 n).

(** [bayesianRegression]; [None] is the [null] it returns.  The first
    [XtX] of the source, built with [matMul], is never read again and is
    left out. *)
Definition bayesianRegression (X : matrix) (y mu0 : vec) (Lambda0 : matrix)
    (a0 b0 : num) : option Posterior :=
  let n := length y in
  let p := length (X !!! 0) in
  let XtX2 := accumulate_XtX X n p in
  let Xty := accumulate_Xty X y n p in
  (* Posterior precision *)
  let LambdaN := matAdd Lambda0 XtX2 in
  match matInvert LambdaN with
  | None => None
  | Some LambdaN_inv =>
      (* Posterior mean *)
      let Lambda0_mu0 := matVecMul Lambda0 mu0 in
      let sum := imap (fun j v => (v + Xty !!! j)%num) Lambda0_mu0 in
      let muN := matVecMul LambdaN_inv sum in
      (* Posterior shape *)
      let aN := (a0 + of_nat n / Fin 2)%num in
      (* Posterior scale *)
      let yty := vecDot y y in
      let mu0_L0_mu0 := vecDot mu0 (matVecMul Lambda0 mu0) in
      let muN_LN_muN := vecDot muN (matVecMul LambdaN muN) in
      let bN := (b0 + Fin 0.5 * (yty + mu0_L0_mu0 - muN_LN_muN))%num in
      (* Log marginal likelihood *)
      let logDetLambda0 := Math_log (Math_abs (matDet Lambda0)) in
      let logDetLambdaN := Math_log (Math_abs (matDet LambdaN)) in
      let logML :=
        (- of_nat n / Fin 2 * Math_log (Fin 2 * Math_PI)
         + Fin 0.5 * logDetLambda0 - Fin 0.5 * logDetLambdaN
         + a0 * Math_log b0 - aN * Math_log bN
         + logGamma aN - logGamma a0)%num in
      (* OLS for comparison *)
      let XtX_inv := matInvert XtX2 in
      let betaOLS :=
        match XtX_inv with
        | Some XtX_inv => matVecMul XtX_inv Xty
        | None => muN
        end in
      let yHat := (fun xi : vec => vecDot xi betaOLS) <$> X in
      let residuals := imap (fun i yi => (yi - yHat !!! i)%num) y in
      let SSres := foldl (fun s r => (s + r * r)%num) (Fin 0) residuals in
      let yMean := (foldl nadd (Fin 0) y / of_nat n)%num in
      let SStot :=
        foldl (fun s yi => (s + Math_pow (yi - yMean) (Fin 2))%num) (Fin 0) y in
      Some {| muN := muN; LambdaN := LambdaN; LambdaN_inv := LambdaN_inv;
              aN := aN; bN := bN; logML := logML;
              post_n := n; post_p := p;
              betaOLS := betaOLS;
              R2 := (Fin 1 - SSres / SStot)%num;
              cvRMSE_OLS :=
                (Math_sqrt (SSres / (of_nat n - of_nat p)) / yMean * Fin 100)%num |}
  end.

(** ** Priors *)

Record Priors := mkPriors {
  baseload : num;
  slope : num;
  slope2 : option num;    (* [None]: the property is absent *)
  strength : num;
  noiseA : num;
  noiseB : num;
}.

(** [a || b] on an optional number: 0, NaN and [undefined] are falsy. *)
Definition truthy (a : num) : bool :=
  match a with
  | Fin x => negb (bool_decide (x = 0%R))
  | NaN => false
  | _ => true
  end.

Definition or_else (a : option num) (b : num) : num :=
  match a with
  | Some v => if truthy v then v else b
  | None => b
  end.

(** [buildPriorParams]: the tuple is [{ mu0, Lambda0, a0, b0 }]. *)
Definition buildPriorParams (priors : Priors) (p : nat)
    : vec * matrix * num * num :=
  let mu0 :=
    if decide (p = 2) then [baseload priors; slope priors]
    else [baseload priors; slope priors; or_else (slope2 priors) (slope priors)] in
  let lambda := strength priors in
  let Lambda0 :=
    (fun row : vec => (fun v : num => (v * lambda)%num) <$> row) <$> identityMatrix p in
  (mu0, Lambda0, noiseA priors, noiseB priors).

(* ------------------------------------------------------------------ *)
(** * Change-point search *)
(* ------------------------------------------------------------------ *)

(** What the scan pushes on [results], and what is returned once the
    [posterior] property has been added to each of them. *)
Record Entry := mkEntry {
  e_cp : num;
  e_cp2 : option num;
  e_logML : num;
  e_post : Posterior;
}.

Record Candidate := mkCandidate {
  cp : num;
  cp2 : option num;
  cand_logML : num;
  post : Posterior;
  posterior : num;
}.

(** [for (let c = lo; c <= hi; c += step) body]: the loop counter is a
    double, so the number of iterations is not known from the syntax; [fuel]
    bounds it and [None] means the bound was reached. *)
Fixpoint for_steps {St : Type} (fuel : nat) (c hi step : num)
    (body : num -> St -> option St) (s : St) : option St :=
  match fuel with
  | O => None
  | S fuel' =>
      if (c <=? hi)%num then
        match body c s with
        | Some s' => for_steps fuel' (c + step)%num hi step body s'
        | None => None
        end
      else Some s
  end.

(** The body of both scans: fit at the candidate, push it when the fit is
    not [null]. *)
Definition try_candidate (temps y : vec) (modelType : string) (priors : Priors)
    (c1 : num) (c2 : option num) (results : list Entry) : list Entry :=
  let X := buildDesignMatrix temps modelType (Some c1) c2 in
  let '(mu0, Lambda0, a0, b0) := buildPriorParams priors (length (X !!! 0)) in
  match bayesianRegression X y mu0 Lambda0 a0 b0 with
  | Some post => results ++ [mkEntry c1 c2 (logML post) post]
  | None => results
  end.

Definition scan_candidates (fuel : nat) (temps y : vec) (modelType : string)
    (priors : Priors) (cpStep : num) : option (list Entry) :=
  let tMin := Math_min temps in
  let tMax := Math_max temps in
  if decide (modelType = "3PH" \/ modelType = "3PC") then
    for_steps fuel (tMin + Fin 3)%num (tMax - Fin 3)%num cpStep
      (fun c results => Some (try_candidate temps y modelType priors c None results))
      []
  else if decide (modelType = "5P") then
    for_steps fuel (tMin + Fin 4)%num (tMax - Fin 10)%num (Fin 1)
      (fun cph results =>
         for_steps fuel (cph + Fin 6)%num (tMax - Fin 4)%num (Fin 1)
           (fun cpc results =>
              Some (try_candidate temps y modelType priors cph (Some cpc) results))
           results)
      []
  else Some [].

(** Normalisation of the log marginal likelihoods into probabilities *)
Definition normalize (results : list Entry) : list Candidate :=
  if decide (length results = 0) then [] else
  let maxLogML := Math_max (e_logML <$> results) in
  let unnorm := (fun r : Entry => Math_exp (e_logML r - maxLogML)%num) <$> results in
  let Z := foldl nadd (Fin 0) unnorm in
  imap (fun i r =>
          mkCandidate (e_cp r) (e_cp2 r) (e_logML r) (e_post r) (unnorm !!! i / Z)%num)
       results.

Definition cpStep_default : num := Fin 0.5.

Definition changePointPosterior (fuel : nat) (temps y : vec) (modelType : string)
    (priors : Priors) (cpStep : num) : option (list Candidate) :=
  normalize <$> scan_candidates fuel temps y modelType priors cpStep.

(* ------------------------------------------------------------------ *)
(** * Posterior summaries *)
(* ------------------------------------------------------------------ *)

Record Point := mkPoint {
  point_x : num;
  density : num;
}.

(** The summaries are object literals; an object is the list of its
    properties, in the order of the literal. *)
Inductive value : Type :=
| VNum (a : num)
| VPair (a b : num)
| VPoints (l : list Point).

Abbreviation object := (list (string * value)).

Fixpoint get (o : object) (key : string) : option value :=
  match o with
  | [] => None
  | (k, v) :: o' => if String.eqb k key then Some v else get o' key
  end.

Definition density_curve (mu scale nu : num) (nPoints : nat) : list Point :=
  let range_ := (Fin 4 * scale)%num in
  (fun i : nat =>
     let x := (mu - range_ + (Fin 2 * range_ * of_nat i) / (of_nat nPoints - Fin 1))%num in
     mkPoint x (studentTPDF x nu mu scale))
  <$> range 0 nPoints.

Definition nPoints_default : nat := 200.

Definition parameterPosterior (post : Posterior) (paramIndex : nat) (nPoints : nat)
    : object :=
  let nu := (Fin 2 * aN post)%num in
  let mu := muN post !!! paramIndex in
  let scale :=
    Math_sqrt ((bN post / aN post) * (LambdaN_inv post !!! paramIndex) !!! paramIndex)%num in
  (* Generate density over +-4 standard deviations *)
  let points := density_curve mu scale nu nPoints in
  (* Credible intervals *)
  let ci95 := VPair (studentTQuantile (Fin 0.025) nu mu scale)
                    (studentTQuantile (Fin 0.975) nu mu scale) in
  let ci80 := VPair (studentTQuantile (Fin 0.10) nu mu scale)
                    (studentTQuantile (Fin 0.90) nu mu scale) in
  [ ("points", VPoints points); ("mean", VNum mu); ("ci95", ci95); ("ci80", ci80);
    ("nu", VNum nu); ("scale", VNum scale) ].

(* ------------------------------------------------------------------ *)
(** * Monte Carlo sampler and savings posterior *)
(* ------------------------------------------------------------------ *)

(** [Math.random] is the one effect of the engine.  A run of the program
    sees a sequence of draws [src 0, src 1, ...]; the state threaded through
    the sampler is the position in that sequence.  The accept-reject loops
    have no syntactic bound: [fuel] bounds the number of iterations and
    [None] means the bound was reached. *)
Section Sampler.
Variable src : nat -> num.

Definition rand (A : Type) : Type := nat -> option (A * nat).

Definition ret {A} (a : A) : rand A := fun pos => Some (a, pos).
Definition bind {A B} (m : rand A) (k : A -> rand B) : rand B :=
  fun pos => match m pos with
             | Some (a, pos') => k a pos'
             | None => None
             end.
Definition Math_random : rand num := fun pos => Some (src pos, S pos).

Notation "'let*' x := m 'in' k" := (bind m (fun x => k))
  (at level 10, x name, m at level 100, k at level 200).

(** [while (u === 0) u = Math.random()], entered with [u = 0] *)
Fixpoint draw_nonzero (fuel : nat) : rand num :=
  match fuel with
  | O => fun _ => None
  | S fuel' =>
      let* u := Math_random in
      if (u =? Fin 0)%num then draw_nonzero fuel' else ret u
  end.

Definition sampleNormal (fuel : nat) : rand num :=
  let* u := draw_nonzero fuel in
  let* v := draw_nonzero fuel in
  ret (Math_sqrt (Fin (-2) * Math_log u) * Math_cos (Fin 2 * Math_PI * v))%num.

(** [do { x = sampleNormal(); v = 1 + c * x } while (v <= 0)] *)
Fixpoint draw_positive (fuel : nat) (c : num) : rand (num * num) :=
  match fuel with
  | O => fun _ => None
  | S fuel' =>
      let* x := sampleNormal fuel in
      let v := (Fin 1 + c * x)%num in
      if (v <=? Fin 0)%num then draw_positive fuel' c else ret (x, v)
  end.

(** The [while (true)] loop of Marsaglia and Tsang's method *)
Fixpoint accept_reject (fuel : nat) (d c scale : num) : rand num :=
  match fuel with
  | O => fun _ => None
  | S fuel' =>
      let* xv := draw_positive fuel c in
      let x := xv.1 in
      let v := xv.2 in
      let v := (v * v * v)%num in
      let* u := Math_random in
      if (u <? Fin 1 - Fin 0.0331 * x * x * x * x)%num then ret (d * v * scale)%num
      else if (Math_log u <? Fin 0.5 * x * x + d * (Fin 1 - v + Math_log v))%num
      then ret (d * v * scale)%num
      else accept_reject fuel' d c scale
  end.

Fixpoint sampleGamma (fuel : nat) (shape scale : num) : rand num :=
  match fuel with
  | O => fun _ => None
  | S fuel' =>
      if (shape <? Fin 1)%num then
        let* g := sampleGamma fuel' (shape + Fin 1)%num scale in
        let* u := Math_random in
        ret (g * Math_pow u (Fin 1 / shape))%num
      else
        let d := (shape - Fin 1 / Fin 3)%num in
        let c := (Fin 1 / Math_sqrt (Fin 9 * d))%num in
        accept_reject fuel d c scale
  end.

Definition sampleInvGamma (fuel : nat) (a b : num) : rand num :=
  let* g := sampleGamma fuel a (Fin 1) in
  ret (b / g)%num.

(** The Cholesky factor computed in place by [sampleMVN] *)
Definition cholesky_entry (Sigma : matrix) (i : nat) (L : matrix) (j : nat) : matrix :=
  let s :=
    foldl (fun s k => (s - (L !!! i) !!! k * (L !!! j) !!! k)%num)
          ((Sigma !!! i) !!! j) (range 0 j) in
  let lij :=
    if decide (i = j) then Math_sqrt (Math_max [s; Fin 1e-15])
    else (s / (L !!! j) !!! j)%num in
  <[i := <[j := lij]> (L !!! i)]> L.

Definition cholesky (Sigma : matrix) (n : nat) : matrix :=
  foldl (fun (L : matrix) i => foldl (cholesky_entry Sigma i) L (range 0 (S i)))
        (replicate n (replicate n (Fin 0))) (range 0 n).

(** [Array.from({ length: n }, () => sampleNormal())] *)
Fixpoint normals (fuel : nat) (n : nat) : rand vec :=
  match n with
  | O => ret []
  | S n' =>
      let* z := sampleNormal fuel in
      let* zs := normals fuel n' in
      ret (z :: zs)
  end.

Definition sampleMVN (fuel : nat) (mu : vec) (Sigma : matrix) : rand vec :=
  let n := length mu in
  let L := cholesky Sigma n in
  let* z := normals fuel n in
  ret (imap (fun i m =>
               (m + reduce (fun s l j => (s + l * z !!! j)%num) (Fin 0) (L !!! i))%num)
            mu).

Record Reading := mkReading {
  temp : num;
  actual : num;
}.

(** The regressor row of the counterfactual, as in [buildDesignMatrix] *)
Definition xStar_of (modelType : string) (cp1 cp2 : option num) (t : num) : vec :=
  let cp1 := null_to_num cp1 in
  let cp2 := null_to_num cp2 in
  if decide (modelType = "3PH") then [Fin 1; Math_max [Fin 0; (cp1 - t)%num]]
  else if decide (modelType = "3PC") then [Fin 1; Math_max [Fin 0; (t - cp1)%num]]
  else if decide (modelType = "5P") then
    [Fin 1; Math_max [Fin 0; (cp1 - t)%num]; Math_max [Fin 0; (t - cp2)%num]]
  else [Fin 1; t].

Definition total_savings (modelType : string) (cp1 cp2 : option num)
    (reportingData : list Reading) (beta : vec) : num :=
  foldl (fun totalSavings d =>
           let counterfactual := vecDot (xStar_of modelType cp1 cp2 (temp d)) beta in
           (totalSavings + (counterfactual - actual d))%num)
        (Fin 0) reportingData.

(** The sampling loop: [nSamples] pushes on [samples] *)
Fixpoint draw_samples (fuel : nat) (post : Posterior) (modelType : string)
    (cp1 cp2 : option num) (reportingData : list Reading) (nSamples : nat)
    : rand (list num) :=
  match nSamples with
  | O => ret []
  | S k =>
      let* sigma2 := sampleInvGamma fuel (aN post) (bN post) in
      let* beta := sampleMVN fuel (muN post) (matScale (LambdaN_inv post) sigma2) in
      let* rest := draw_samples fuel post modelType cp1 cp2 reportingData k in
      ret (total_savings modelType cp1 cp2 reportingData beta :: rest)
  end.
End Sampler.

(** [samples.sort((a, b) => a - b)]: with a comparator that is a total
    order on the values present, every sorting algorithm returns the same
    array; insertion sort stands for the engine's. *)
Fixpoint sort_insert (x : num) (l : list num) : list num :=
  match l with
  | [] => [x]
  | y :: l' => if (y - x <? Fin 0)%num then y :: sort_insert x l' else x :: y :: l'
  end.

Definition sort_numbers (l : list num) : list num := foldr sort_insert [] l.

(** An array index: a number reads an element only when it is a
    non-negative integer. *)
Definition to_index (a : num) : option nat :=
  match a with
  | Fin x =>
      if is_int x && bool_decide (0 <= Int_part x)%Z
      then Some (Z.to_nat (Int_part x)) else None
  | _ => None
  end.

(** A numeric read [a[i]] with a computed index; [undefined] is read as
    NaN. *)
Definition at_index (l : list num) (i : num) : num :=
  match to_index i with
  | Some k => l !!! k
  | None => NaN
  end.

Record Bin := mkBin {
  bin_x : num;
  lo : num;
  hi : num;
  count : nat;
  bin_density : num;
}.

Inductive outcome (A : Type) : Type :=
| Returned (a : A)
| Threw           (* a TypeError was raised *)
| OutOfFuel.      (* a sampling loop reached its bound *)
Arguments Returned {A} a.
Arguments Threw {A}.
Arguments OutOfFuel {A}.

Record Savings := mkSavings {
  samples : list num;
  mean : num;
  median : num;
  ci95 : num * num;
  ci80 : num * num;
  bins : list Bin;
  maxCount : num;
}.

(** [for (const s of samples) { idx = ...; bins[idx].count++ }]: reading
    [count] of a bin that does not exist raises a TypeError ([None]). *)
Definition count_sample (sMin binWidth : num) (binCount : nat)
    (bins : option (list Bin)) (s : num) : option (list Bin) :=
  match bins with
  | None => None
  | Some bins =>
      let idx :=
        Math_min [Math_floor ((s - sMin) / binWidth)%num; (of_nat binCount - Fin 1)%num] in
      match to_index idx with
      | Some k =>
          match bins !! k with
          | Some b =>
              Some (<[k := mkBin (bin_x b) (lo b) (hi b) (S (count b)) (bin_density b)]> bins)
          | None => None
          end
      | None => None
      end
  end.

(** The part of [savingsPosterior] below the sampling loop *)
Definition summarize (samples : list num) (nSamples : nat) : outcome Savings :=
  let samples := sort_numbers samples in
  let n := of_nat nSamples in
  let mean := (foldl nadd (Fin 0) samples / n)%num in
  let ci95 := (at_index samples (Math_floor (n * Fin 0.025)%num),
               at_index samples (Math_floor (n * Fin 0.975)%num)) in
  let ci80 := (at_index samples (Math_floor (n * Fin 0.10)%num),
               at_index samples (Math_floor (n * Fin 0.90)%num)) in
  let median := at_index samples (Math_floor (n * Fin 0.5)%num) in
  (* Histogram bins *)
  let binCount := 50 in
  let sMin := at_index samples (Fin 0) in
  let sMax := at_index samples (n - Fin 1)%num in
  let binWidth := ((sMax - sMin) / of_nat binCount)%num in
  let bins0 :=
    (fun i : nat =>
       mkBin (sMin + (of_nat i + Fin 0.5) * binWidth)%num
             (sMin + of_nat i * binWidth)%num
             (sMin + (of_nat i + Fin 1) * binWidth)%num
             0 NaN)
    <$> range 0 binCount in
  match foldl (count_sample sMin binWidth binCount) (Some bins0) samples with
  | None => Threw
  | Some bins1 =>
      let maxCount := Math_max ((fun b : Bin => of_nat (count b)) <$> bins1) in
      let bins2 :=
        (fun b : Bin =>
           mkBin (bin_x b) (lo b) (hi b) (count b)
                 (of_nat (count b) / (n * binWidth))%num)
        <$> bins1 in
      Returned (mkSavings samples mean median ci95 ci80 bins2 maxCount)
  end.

Definition nSamples_default : nat := 5000.

Definition savingsPosterior (src : nat -> num) (fuel : nat) (post : Posterior)
    (modelType : string) (cp1 cp2 : option num) (reportingData : list Reading)
    (nSamples : nat) : outcome Savings :=
  match draw_samples src fuel post modelType cp1 cp2 reportingData nSamples 0 with
  | None => OutOfFuel
  | Some (samples, _) => summarize samples nSamples
  end.

(* ================================================================== *)
(** * Vocabulary of the specification *)
(* ================================================================== *)

(** An [r] x [c] matrix *)
Definition shape (r c : nat) (M : matrix) : Prop :=
  length M = r /\ Forall (fun row : vec => length row = c) M.

Definition finite_vec (v : vec) : Prop := Forall is_fin v.
Definition finite_matrix (M : matrix) : Prop := Forall finite_vec M.

(** The sums the accumulation loops compute: entry [(j, k)] of [XᵀX] and
    entry [j] of [Xᵀy], summed over the first [n] observations in order. *)
Definition gram_entry (X : matrix) (n j k : nat) : num :=
  foldl (fun c i => (c + (X !!! i) !!! j * (X !!! i) !!! k)%num) (Fin 0) (range 0 n).

Definition moment_entry (X : matrix) (y : vec) (n j : nat) : num :=
  foldl (fun c i => (c + (X !!! i) !!! j * y !!! i)%num) (Fin 0) (range 0 n).

(** The innermost statement [M[j][k] += t j k] *)
Definition add_entry (t : nat -> nat -> num) (j : nat) (M1 : matrix) (k : nat) : matrix :=
  <[j := <[k := ((M1 !!! j) !!! k + t j k)%num]> (M1 !!! j)]> M1.

(** Sum of [f 0 .. f (n-1)], in the order of the loops *)
Fixpoint rsum (n : nat) (f : nat -> R) : R :=
  match n with
  | O => 0%R
  | S k => (rsum k f + f k)%R
  end.

Definition kronecker (i j : nat) : R := if decide (i = j) then 1%R else 0%R.

(** A row [a | b] of the augmented matrix of [matInvert M] is in relation
    with [M] when [b * M = a]. *)
Definition row_ok (M : matrix) (n : nat) (row : vec) : Prop :=
  length row = 2 * n /\ finite_vec row
  /\ forall j, j < n ->
       rsum n (fun k => (toR (row !!! (n + k)%nat) * toR ((M !!! k) !!! j))%R) = toR (row !!! j).

(** Columns [0 .. c-1] of row [r] are those of the identity. *)
Definition unit_cols (c r : nat) (row : vec) : Prop :=
  forall j, j < c -> toR (row !!! j) = kronecker r j.

(** The invariant of the column loop of [matInvert M], before column [c] *)
Definition invert_inv (M : matrix) (n c : nat) (a : matrix) : Prop :=
  length a = n
  /\ forall r, r < n -> row_ok M n (a !!! r) /\ unit_cols c r (a !!! r).

(** The marginal variance of coefficient [j]: the quantity whose square
    root is the scale of [parameterPosterior] *)
Definition marginal_variance (post : Posterior) (j : nat) : num :=
  (bN post / aN post * (LambdaN_inv post !!! j) !!! j)%num.




(** ** The grid of the change-point scan *)

(** The values the counter of [for (c = lo; c <= hi; c += step)] takes *)
Fixpoint grid (fuel : nat) (c hi step : num) : option (list num) :=
  match fuel with
  | O => None
  | S fuel' =>
      if (c <=? hi)%num then (fun g => c :: g) <$> grid fuel' (c + step)%num hi step
      else Some []
  end.

(** The pairs the nested loops of the "5P" scan visit, for the values
    [outer] of the outer counter *)
Fixpoint grid_pairs (fuel : nat) (outer : list num) (hi2 : num)
    : option (list (num * option num)) :=
  match outer with
  | [] => Some []
  | cph :: rest =>
      match grid fuel (cph + Fin 6)%num hi2 (Fin 1), grid_pairs fuel rest hi2 with
      | Some inner, Some r => Some (((fun cpc : num => (cph, Some cpc)) <$> inner) ++ r)
      | _, _ => None
      end
  end.

(** The grid points of [changePointPosterior], in scan order: a point is
    the pair of change-point arguments handed to [buildDesignMatrix]. *)
Definition grid_points (fuel : nat) (temps : vec) (modelType : string) (cpStep : num)
    : option (list (num * option num)) :=
  let tMin := Math_min temps in
  let tMax := Math_max temps in
  if decide (modelType = "3PH" \/ modelType = "3PC") then
    (fun g : list num => (fun c : num => (c, @None num)) <$> g)
    <$> grid fuel (tMin + Fin 3)%num (tMax - Fin 3)%num cpStep
  else if decide (modelType = "5P") then
    match grid fuel (tMin + Fin 4)%num (tMax - Fin 10)%num (Fin 1) with
    | Some outer => grid_pairs fuel outer (tMax - Fin 4)%num
    | None => None
    end
  else Some [].






(** ** Normalised probabilities *)




(** ** The marginal summary *)

(** The abscissa of point [i] of a density curve of [nPoints] points *)
Definition curve_x (mu scale : num) (nPoints i : nat) : num :=
  (mu - Fin 4 * scale + (Fin 2 * (Fin 4 * scale) * of_nat i) / (of_nat nPoints - Fin 1))%num.

#[global] Instance Point_inhabited : Inhabited Point := populate (mkPoint NaN NaN).

(** A posterior on which a summary is evaluated below *)
Definition sample_posterior : Posterior :=
  mkPosterior [Fin 0] [[Fin 2]] [[Fin 0.5]] (Fin 1.5) (Fin 1) (Fin 0) 1 1
              [Fin 0] (Fin 0) (Fin 0).


(** ** A run of the sampler *)

(** A random source that always draws 0.25, and a two-parameter
    posterior *)
Definition quarter_source : nat -> num := fun _ => Fin 0.25.

Definition unit_posterior : Posterior :=
  mkPosterior [Fin 0; Fin 0] [[Fin 1; Fin 0]; [Fin 0; Fin 1]]
              [[Fin 1; Fin 0]; [Fin 0; Fin 1]] (Fin 1.5) (Fin 1) (Fin 0) 2 2
              [Fin 0; Fin 0] (Fin 0) (Fin 0).

(** ** The summary of the samples *)



#[global] Instance Bin_inhabited : Inhabited Bin := populate (mkBin NaN NaN NaN 0 NaN).


(* ------------------------------------------------------------------ *)
(** * Further summaries for visualisation *)
(* ------------------------------------------------------------------ *)



(** [parameterPrior]; [None] is the [null] it returns. *)
Definition parameterPrior (priors : Priors) (paramIndex p nPoints : nat)
    : option object :=
  let '(mu0, Lambda0, a0, b0) := buildPriorParams priors p in
  match matInvert Lambda0 with
  | None => None
  | Some Lambda0_inv =>
      let nu := (Fin 2 * a0)%num in
      let mu := mu0 !!! paramIndex in
      let scale :=
        Math_sqrt ((b0 / a0) * (Lambda0_inv !!! paramIndex) !!! paramIndex)%num in
      let points := density_curve mu scale nu nPoints in
      Some [ ("points", VPoints points); ("mean", VNum mu); ("nu", VNum nu);
             ("scale", VNum scale) ]
  end.

Record Predictive := mkPredictive {
  pred_mean : num;
  pred_scale : num;
  pred_nu : num;
  pred_ci50 : num * num;
  pred_ci80 : num * num;
  pred_ci95 : num * num;
}.

Definition predictiveAtTemp (post : Posterior) (xStar : vec) : Predictive :=
  let nu := (Fin 2 * aN post)%num in
  let mu := vecDot xStar (muN post) in
  let quadForm := vecDot xStar (matVecMul (LambdaN_inv post) xStar) in
  let scale := Math_sqrt ((bN post / aN post) * (Fin 1 + quadForm))%num in
  {| pred_mean := mu;
     pred_scale := scale;
     pred_nu := nu;
     pred_ci50 := (studentTQuantile (Fin 0.25) nu mu scale,
                   studentTQuantile (Fin 0.75) nu mu scale);
     pred_ci80 := (studentTQuantile (Fin 0.10) nu mu scale,
                   studentTQuantile (Fin 0.90) nu mu scale);
     pred_ci95 := (studentTQuantile (Fin 0.025) nu mu scale,
                   studentTQuantile (Fin 0.975) nu mu scale) |}.

Record FanRow := mkFanRow {
  fan_temp : num;
  fan_mean : num;
  ci50_lo : num;
  ci50_hi : num;
  ci80_lo : num;
  ci80_hi : num;
  ci95_lo : num;
  ci95_hi : num;
}.


Definition fanPoints_default : nat := 100.


(* ------------------------------------------------------------------ *)
(** * OLS for comparison *)
(* ------------------------------------------------------------------ *)

Record OLSFit := mkOLSFit {
  beta : vec;
  yHat : vec;
  residuals : vec;
  fit_R2 : num;
  cvRMSE : num;
  NMBE : num;
  RMSE : num;
  se : vec;
}.

(** [fitOLS]; [None] is the [null] it returns. *)
Definition fitOLS (X : matrix) (y : vec) : option OLSFit :=
  let n := length y in
  let p := length (X !!! 0) in
  let XtX := accumulate_XtX X n p in
  let Xty := accumulate_Xty X y n p in
  match matInvert XtX with
  | None => None
  | Some inv =>
      let beta := matVecMul inv Xty in
      let yHat := (fun xi : vec => vecDot xi beta) <$> X in
      let residuals := imap (fun i yi => (yi - yHat !!! i)%num) y in
      let yMean := (foldl nadd (Fin 0) y / of_nat n)%num in
      let SSres := foldl (fun s r => (s + r * r)%num) (Fin 0) residuals in
      let SStot :=
        foldl (fun s yi => (s + Math_pow (yi - yMean) (Fin 2))%num) (Fin 0) y in
      let MSE := (SSres / (of_nat n - of_nat p))%num in
      let RMSE := Math_sqrt MSE in
      Some {| beta := beta; yHat := yHat; residuals := residuals;
              fit_R2 := (Fin 1 - SSres / SStot)%num;
              cvRMSE := (RMSE / yMean * Fin 100)%num;
              NMBE :=
                (foldl nadd (Fin 0) residuals / ((of_nat n - of_nat p) * yMean)
                 * Fin 100)%num;
              RMSE := RMSE;
              se := imap (fun j _ => Math_sqrt (MSE * (inv !!! j) !!! j)%num) beta |}
  end.

(** The change points stored with the best fit: [cp], or [cph] and
    [cpc]. *)
Inductive ChangePoints : Type :=
| OneCP (cp : num)
| TwoCP (cph cpc : num).

(** The state of a search of [fitOLSWithCP]: [best] and [bestSS] *)
Abbreviation search_state := (option (OLSFit * ChangePoints) * num)%type.

(** The body of the "3PH" and "3PC" searches *)
Definition consider_3P (temps energy : vec) (modelType : string) (c : num)
    (s : search_state) : search_state :=
  let X := buildDesignMatrix temps modelType (Some c) None in
  match fitOLS X energy with
  | Some r =>
      if (fit_R2 r >? Fin 0)%num
         && (vecDot (residuals r) (residuals r) <? s.2)%num
         && (beta r !!! 1 >? Fin 0)%num
      then (Some (r, OneCP c), vecDot (residuals r) (residuals r))
      else s
  | None => s
  end.

(** The body of the "5P" search *)
Definition consider_5P (temps energy : vec) (cph cpc : num)
    (s : search_state) : search_state :=
  let X := buildDesignMatrix temps "5P" (Some cph) (Some cpc) in
  match fitOLS X energy with
  | Some r =>
      if (fit_R2 r >? Fin 0)%num
         && (vecDot (residuals r) (residuals r) <? s.2)%num
         && (beta r !!! 1 >? Fin 0)%num
         && (beta r !!! 2 >? Fin 0)%num
      then (Some (r, TwoCP cph cpc), vecDot (residuals r) (residuals r))
      else s
  | None => s
  end.

(** [fitOLSWithCP]: the outer [None] means that the bound [fuel] on the
    iterations of a search loop was reached, the inner one is the [null]
    the function returns. *)
Definition fitOLSWithCP (fuel : nat) (temps energy : vec) (modelType : string)
    : option (option (OLSFit * ChangePoints)) :=
  let tMin := Math_min temps in
  let tMax := Math_max temps in
  if decide (modelType = "3PH") then
    fst <$> for_steps fuel (tMin + Fin 3)%num (tMax - Fin 3)%num (Fin 0.5)
              (fun c s => Some (consider_3P temps energy "3PH" c s)) (None, PInf)
  else if decide (modelType = "3PC") then
    fst <$> for_steps fuel (tMin + Fin 3)%num (tMax - Fin 3)%num (Fin 0.5)
              (fun c s => Some (consider_3P temps energy "3PC" c s)) (None, PInf)
  else if decide (modelType = "5P") then
    fst <$> for_steps fuel (tMin + Fin 4)%num (tMax - Fin 10)%num (Fin 1)
              (fun cph s =>
                 for_steps fuel (cph + Fin 6)%num (tMax - Fin 4)%num (Fin 1)
                   (fun cpc s => Some (consider_5P temps energy cph cpc s)) s)
              (None, PInf)
  else Some None.

(* ------------------------------------------------------------------ *)
(** * Default priors *)
(* ------------------------------------------------------------------ *)



(* ------------------------------------------------------------------ *)
(** * Vocabulary of the further properties *)
(* ------------------------------------------------------------------ *)

(* ================================================================== *)
(** * Vocabulary of the further properties *)
(* ================================================================== *)

(** The real number at row [i], column [j] of a matrix *)
Definition ent (A : matrix) (i j : nat) : R := toR ((A !!! i) !!! j).

(** The real number at index [i] of a vector *)
Definition at_ (v : vec) (i : nat) : R := toR (v !!! i).

(** The rows of [a0] are combinations of the rows of [a], with the
    coefficients [G]: [G * a = a0] on [n] rows and [2 n] columns. *)
Definition spans (G : nat -> nat -> R) (n : nat) (a0 a : matrix) : Prop :=
  forall i j, i < n -> j < 2 * n ->
    rsum n (fun k => (G i k * ent a k j)%R) = ent a0 i j.

(** The exchange of two indices *)
Definition exchange (c m k : nat) : nat :=
  if decide (k = m) then c else if decide (k = c) then m else k.

(** Entry [(j, k)] of [XᵀX] and entry [j] of [Xᵀy] as real numbers *)
Definition gram (X : matrix) (n j k : nat) : R :=
  rsum n (fun i => (ent X i j * ent X i k)%R).

Definition moment (X : matrix) (y : vec) (n j : nat) : R :=
  rsum n (fun i => (ent X i j * at_ y i)%R).

(** The fitted value of observation [i] for the coefficients [b] *)
Definition fitted (X : matrix) (b : vec) (p i : nat) : R :=
  rsum p (fun k => (ent X i k * at_ b k)%R).

(** Data on which [fitOLS] is evaluated below: three observations of a
    line with an intercept *)
Definition line_X : matrix := [[Fin 1; Fin 0]; [Fin 1; Fin 1]; [Fin 1; Fin 2]].
Definition line_y : vec := [Fin 1; Fin 2; Fin 4].

(** What a search of [fitOLSWithCP] does at a grid point *)
Definition consider_point (temps energy : vec) (modelType : string)
    (s : search_state) (pt : num * option num) : search_state :=
  match pt.2 with
  | None => consider_3P temps energy modelType pt.1 s
  | Some cpc => consider_5P temps energy pt.1 cpc s
  end.

(** The fit kept by a search qualifies: it is the fit at its change
    point(s), with positive [R2] and positive slope(s), and [bestSS] is its
    residual sum of squares. *)
Definition qualifies (temps energy : vec) (modelType : string) (s : search_state) : Prop :=
  match s.1 with
  | None => True
  | Some (r, cps) =>
      (fit_R2 r >? Fin 0)%num = true
      /\ (beta r !!! 1 >? Fin 0)%num = true
      /\ s.2 = vecDot (residuals r) (residuals r)
      /\ match cps with
         | OneCP c =>
             fitOLS (buildDesignMatrix temps modelType (Some c) None) energy = Some r
         | TwoCP cph cpc =>
             (beta r !!! 2 >? Fin 0)%num = true
             /\ fitOLS (buildDesignMatrix temps "5P" (Some cph) (Some cpc)) energy = Some r
         end
  end.

(** Two observations of a heating load, and their design at the change
    point 3 *)
Definition heat_temps : vec := [Fin 0; Fin 6].
Definition heat_energy : vec := [Fin 2; Fin 1].
Definition heat_X : matrix := [[Fin 1; Fin (0 + 3 + - 0)]; [Fin 1; Fin 0]].


(** The prior precision of [buildPriorParams]: [lambda] times the
    identity *)
Definition scaled_identity (p : nat) (lambda : num) : matrix :=
  (fun row : vec => (fun v : num => (v * lambda)%num) <$> row) <$> identityMatrix p.

(** Entry [(r, j)] of the working matrix of [matInvert] on [lambda * I],
    before column [c]: rows above [c] are done. *)
Definition diag_stage (lambda : R) (n c r j : nat) : R :=
  if decide (j < n) then
    (if decide (r < c) then kronecker r j else (lambda * kronecker r j)%R)
  else
    (if decide (r < c) then (kronecker r (j - n) / lambda)%R else kronecker r (j - n)).

(** [lo <= hi] on an interval returned as a pair *)
Definition ordered (iv : num * num) : Prop := (iv.1 <=? iv.2)%num = true.

(** The interval [inner] lies inside [outer]. *)
Definition inside (inner outer : num * num) : Prop :=
  (outer.1 <=? inner.1)%num = true /\ (inner.2 <=? outer.2)%num = true.

#[global] Instance FanRow_inhabited : Inhabited FanRow :=
  populate (mkFanRow NaN NaN NaN NaN NaN NaN NaN NaN).








(** A random source that draws 0, 0.5, 0 and then 0.25 for ever *)
Definition stutter_source : nat -> num :=
  fun i => match i with
           | 0 | 2 => Fin 0
           | 1 => Fin 0.5
           | _ => Fin 0.25
           end.
(* ================================================================== *)
(** * Properties *)
(* ================================================================== *)

(** ** Evaluation on concrete inputs *)

(** Bring the denominators of the goal to normal form: [lra] evaluates a
    quotient of constants only when its denominator is a numeral. *)
Ltac norm_denominators :=
  repeat match goal with
  | |- context [(?a / ?b)%R] =>
      lazymatch b with
      | IZR _ => fail
      | _ => progress ring_simplify b
      end
  end.

(** Side conditions on real constants *)
Ltac real_side :=
  unfold Rabs; repeat destruct Rcase_abs;
  first [lra | lia | done | (norm_denominators; lra)].

(** Decide every comparison of the goal whose operands are constants. *)
Ltac decide_consts :=
  repeat match goal with
  | |- context [bool_decide ?P] =>
      first [ rewrite (bool_decide_eq_true_2 P) by real_side
            | rewrite (bool_decide_eq_false_2 P) by real_side ]
  | |- context [decide ?P] =>
      first [ rewrite (decide_True (P:=P)) by real_side
            | rewrite (decide_False (P:=P)) by real_side ]
  end.

(** ** Loops and shapes *)

Lemma range_0_S q : range 0 (S q) = range 0 q ++ [q].
Proof. unfold range. rewrite !Nat.sub_0_r, seq_S. reflexivity. Qed.

Lemma elem_of_range lo hi i : i ∈ range lo hi <-> lo <= i < hi.
Proof. unfold range. rewrite elem_of_seq. lia. Qed.

Lemma length_range lo hi : length (range lo hi) = hi - lo.
Proof. apply length_seq. Qed.

(** The invariant rule for [for (let i = 0; i < n; i++)] *)
Lemma loop_invariant {St : Type} (P : nat -> St -> Prop) (f : St -> nat -> St) (s0 : St) (n : nat) :
  P 0 s0 ->
  (forall i s, i < n -> P i s -> P (S i) (f s i)) ->
  P n (foldl f s0 (range 0 n)).
Proof.
  intros H0 Hstep. induction n as [|n IH]; [exact H0|].
  rewrite range_0_S, foldl_app. simpl.
  apply Hstep; [lia|]. apply IH. intros i s Hi. apply Hstep. lia.
Qed.

Lemma foldl_ext_in {A B : Type} (f g : A -> B -> A) (l : list B) (a : A) :
  (forall s x, x ∈ l -> f s x = g s x) -> foldl f a l = foldl g a l.
Proof.
  revert a. induction l as [|x l IH]; intros a H; [reflexivity|].
  simpl. rewrite H by left. apply IH. intros s z Hz. apply H. right. exact Hz.
Qed.

Lemma shape_row r c M i : shape r c M -> i < r -> length (M !!! i) = c.
Proof.
  intros [Hr Hc] Hi. rewrite Forall_lookup in Hc.
  apply (Hc i). apply list_lookup_lookup_total_lt. lia.
Qed.

Lemma vec_ext (u v : vec) n :
  length u = n -> length v = n ->
  (forall i, i < n -> u !!! i = v !!! i) -> u = v.
Proof.
  intros Hu Hv H. apply (list_eq_same_length _ _ n); [done..|].
  intros i x y Hi Hx Hy.
  apply list_lookup_total_correct in Hx, Hy. rewrite <- Hx, <- Hy. auto.
Qed.

Lemma matrix_ext r c (A B : matrix) :
  shape r c A -> shape r c B ->
  (forall i j, i < r -> j < c -> (A !!! i) !!! j = (B !!! i) !!! j) -> A = B.
Proof.
  intros HA HB H. apply (list_eq_same_length _ _ r); [apply HB|apply HA|].
  intros i x y Hi Hx Hy.
  apply list_lookup_total_correct in Hx as Hx', Hy as Hy'. subst x y.
  apply (vec_ext _ _ c); [eapply shape_row; eauto..|].
  intros j Hj. auto.
Qed.

Lemma shape_insert r c M i row :
  shape r c M -> length row = c -> shape r c (<[i := row]> M).
Proof.
  intros [Hr Hc] Hrow. split; [rewrite length_insert; done|].
  apply Forall_insert; done.
Qed.

Lemma shape_replicate r c a : shape r c (replicate r (replicate c a)).
Proof.
  split; [apply length_replicate|].
  apply Forall_replicate. apply length_replicate.
Qed.

Lemma lookup_total_replicate2 r c (a : num) i j :
  i < r -> j < c -> (replicate r (replicate c a) !!! i) !!! j = a.
Proof.
  intros Hi Hj. rewrite !lookup_total_replicate_2 by lia. reflexivity.
Qed.

(** ** The accumulation loops *)

Lemma gram_entry_S X n j k :
  gram_entry X (S n) j k = (gram_entry X n j k + (X !!! n) !!! j * (X !!! n) !!! k)%num.
Proof. unfold gram_entry. rewrite range_0_S, foldl_app. reflexivity. Qed.

Lemma moment_entry_S X y n j :
  moment_entry X y (S n) j = (moment_entry X y n j + (X !!! n) !!! j * y !!! n)%num.
Proof. unfold moment_entry. rewrite range_0_S, foldl_app. reflexivity. Qed.


Section AddOuterProduct.
Variable t : nat -> nat -> num.
Variable p : nat.
Local Abbreviation add_entry := (add_entry t).

(** One pass of the two inner loops adds [t j k] to every entry. *)
Lemma add_entry_row j M0 q :
  shape p p M0 -> j < p -> q <= p ->
  shape p p (foldl (add_entry j) M0 (range 0 q))
  /\ forall a b, a < p -> b < p ->
       (foldl (add_entry j) M0 (range 0 q) !!! a) !!! b
       = if decide (a = j /\ b < q) then ((M0 !!! a) !!! b + t a b)%num
         else (M0 !!! a) !!! b.
Proof.
  intros HM0 Hj. induction q as [|k IH]; intros Hq.
  { split; [exact HM0|]. intros a b _ _. rewrite decide_False by lia. reflexivity. }
  rewrite range_0_S, foldl_app. simpl.
  destruct IH as [HM1 HM1e]; [lia|].
  set (M1 := foldl (add_entry j) M0 (range 0 k)) in *.
  unfold add_entry at 1 2. split.
  { apply shape_insert; [exact HM1|]. rewrite length_insert.
    eapply shape_row; eauto. }
  intros a b Ha Hb.
  rewrite list_lookup_total_insert.
  destruct (decide (a = j)) as [->|Hne].
  - rewrite decide_True by (split; [done|]; destruct HM1 as [-> _]; lia).
    rewrite list_lookup_total_insert.
    destruct (decide (k = b)) as [->|Hkb].
    + rewrite decide_True by (split; [done|]; rewrite (shape_row p p M1 j) by done; lia).
      rewrite decide_True by lia. rewrite HM1e by done.
      rewrite decide_False by lia. reflexivity.
    + rewrite decide_False by (intros [? ?]; done).
      rewrite HM1e by done.
      destruct (decide (b < k)).
      * rewrite !decide_True by lia. reflexivity.
      * rewrite !decide_False by lia. reflexivity.
  - rewrite decide_False by (intros [? ?]; done).
    rewrite HM1e by done. rewrite !decide_False by (intros [? ?]; done). reflexivity.
Qed.

Lemma add_entry_rows M q :
  shape p p M -> q <= p ->
  shape p p (foldl (fun M0 j => foldl (add_entry j) M0 (range 0 p)) M (range 0 q))
  /\ forall a b, a < p -> b < p ->
       (foldl (fun M0 j => foldl (add_entry j) M0 (range 0 p)) M (range 0 q) !!! a) !!! b
       = if decide (a < q) then ((M !!! a) !!! b + t a b)%num else (M !!! a) !!! b.
Proof.
  intros HM. induction q as [|j IH]; intros Hq.
  { split; [exact HM|]. intros a b _ _. rewrite decide_False by lia. reflexivity. }
  rewrite range_0_S, foldl_app. simpl.
  destruct IH as [HM0 HM0e]; [lia|].
  set (M0 := foldl _ M (range 0 j)) in *.
  destruct (add_entry_row j M0 p HM0 ltac:(lia) (le_n _)) as [HS HE].
  split; [exact HS|]. intros a b Ha Hb. rewrite HE by done.
  destruct (decide (a = j)) as [->|Hne].
  - rewrite decide_True by done. rewrite decide_True by lia.
    rewrite HM0e by done. rewrite decide_False by lia. reflexivity.
  - rewrite decide_False by (intros [? ?]; done).
    rewrite HM0e by done. destruct (decide (a < j)).
    + rewrite decide_True by lia. reflexivity.
    + rewrite decide_False by lia. reflexivity.
Qed.
End AddOuterProduct.

Lemma accumulate_XtX_spec X n p :
  shape p p (accumulate_XtX X n p)
  /\ forall j k, j < p -> k < p ->
       (accumulate_XtX X n p !!! j) !!! k = gram_entry X n j k.
Proof.
  unfold accumulate_XtX. induction n as [|i IH].
  { split; [apply shape_replicate|]. intros j k Hj Hk.
    simpl. rewrite lookup_total_replicate2 by done. reflexivity. }
  rewrite range_0_S, foldl_app. simpl.
  destruct IH as [HM HMe]. set (M := foldl _ _ (range 0 i)) in *.
  destruct (add_entry_rows (fun a b => ((X !!! i) !!! a * (X !!! i) !!! b)%num) p M p HM (le_n _))
    as [HS HE].
  split; [exact HS|]. intros j k Hj Hk.
  rewrite gram_entry_S, <- HMe by done.
  etransitivity; [apply HE; done|]. rewrite decide_True by done. reflexivity.
Qed.

Lemma accumulate_Xty_spec X y n p :
  length (accumulate_Xty X y n p) = p
  /\ forall j, j < p -> accumulate_Xty X y n p !!! j = moment_entry X y n j.
Proof.
  unfold accumulate_Xty. induction n as [|i IH].
  { split; [apply length_replicate|]. intros j Hj. simpl.
    rewrite lookup_total_replicate_2 by done. reflexivity. }
  rewrite range_0_S, foldl_app. simpl.
  destruct IH as [Hv Hve]. set (v := foldl _ _ (range 0 i)) in *.
  assert (H : forall q, q <= p ->
    length (foldl (fun (v0 : vec) j =>
              <[j := (v0 !!! j + (X !!! i) !!! j * y !!! i)%num]> v0) v (range 0 q)) = p
    /\ forall j, j < p ->
         foldl (fun (v0 : vec) j =>
              <[j := (v0 !!! j + (X !!! i) !!! j * y !!! i)%num]> v0) v (range 0 q) !!! j
         = if decide (j < q) then (v !!! j + (X !!! i) !!! j * y !!! i)%num else v !!! j).
  { induction q as [|k IHq]; intros Hq.
    { split; [exact Hv|]. intros j _. rewrite decide_False by lia. reflexivity. }
    rewrite range_0_S, foldl_app. simpl.
    destruct IHq as [Hv0 Hv0e]; [lia|]. set (v0 := foldl _ v (range 0 k)) in *.
    split; [rewrite length_insert; exact Hv0|].
    intros j Hj. rewrite list_lookup_total_insert.
    destruct (decide (k = j)) as [->|Hne].
    - rewrite decide_True by (split; [done|lia]). rewrite decide_True by lia.
      rewrite Hv0e by done. rewrite decide_False by lia. reflexivity.
    - rewrite decide_False by (intros [? ?]; done). rewrite Hv0e by done.
      destruct (decide (j < k)).
      + rewrite !decide_True by lia. reflexivity.
      + rewrite !decide_False by lia. reflexivity. }
  destruct (H p (le_n _)) as [HL HE]. split; [exact HL|].
  intros j Hj. rewrite HE by done. rewrite decide_True by done.
  rewrite moment_entry_S, Hve by done. reflexivity.
Qed.

(** ** The design matrix *)

(** C8. For a model-shape tag other than "3PH", "3PC" and "5P",
    [buildDesignMatrix] returns the plain linear design: row [i] is
    [[1, t_i]], whatever the two change-point arguments are. *)
Theorem buildDesignMatrix_default_linear
    (temps : vec) (modelType : string) (cp1 cp2 : option num) :
  modelType <> "3PH" -> modelType <> "3PC" -> modelType <> "5P" ->
  buildDesignMatrix temps modelType cp1 cp2 = (fun t : num => [Fin 1; t]) <$> temps
  /\ length (buildDesignMatrix temps modelType cp1 cp2) = length temps
  /\ (forall i t, temps !! i = Some t ->
        buildDesignMatrix temps modelType cp1 cp2 !! i = Some [Fin 1; t])
  /\ (forall cp1' cp2',
        buildDesignMatrix temps modelType cp1' cp2'
        = buildDesignMatrix temps modelType cp1 cp2).
Proof.
  intros H3PH H3PC H5P.
  assert (Hdef : forall c1 c2,
             buildDesignMatrix temps modelType c1 c2
             = (fun t : num => [Fin 1; t]) <$> temps).
  { intros c1 c2. unfold buildDesignMatrix.
    rewrite !decide_False by assumption. reflexivity. }
  repeat split.
  - apply Hdef.
  - rewrite Hdef. apply length_fmap.
  - intros i t Hi. rewrite Hdef, list_lookup_fmap, Hi. reflexivity.
  - intros c1 c2. rewrite !Hdef. reflexivity.
Qed.

Lemma buildDesignMatrix_default_linear_witness :
  buildDesignMatrix [Fin 30; Fin 50; Fin 70] "2P" (Some (Fin 45)) None
  = [[Fin 1; Fin 30]; [Fin 1; Fin 50]; [Fin 1; Fin 70]].
Proof.
  pose proof (buildDesignMatrix_default_linear
                [Fin 30; Fin 50; Fin 70] "2P" (Some (Fin 45)) None) as H.
  destruct H as [H _]; [discriminate | discriminate | discriminate |].
  exact H.
Defined.

(** ** The change-point scan on other model shapes *)

(** C9. When the model-shape tag is none of "3PH", "3PC" and "5P",
    [changePointPosterior] scans nothing and returns the empty sequence; no
    loop is entered, so the result does not depend on the iteration bound. *)
Theorem changePointPosterior_other_shape
    (fuel : nat) (temps y : vec) (modelType : string) (priors : Priors) (cpStep : num) :
  modelType <> "3PH" -> modelType <> "3PC" -> modelType <> "5P" ->
  scan_candidates fuel temps y modelType priors cpStep = Some []
  /\ changePointPosterior fuel temps y modelType priors cpStep = Some [].
Proof.
  intros H3PH H3PC H5P.
  assert (Hscan : scan_candidates fuel temps y modelType priors cpStep = Some []).
  { unfold scan_candidates.
    rewrite decide_False by (intros [?|?]; contradiction).
    rewrite decide_False by assumption. reflexivity. }
  split; [exact Hscan|].
  unfold changePointPosterior. rewrite Hscan. reflexivity.
Qed.

Lemma changePointPosterior_other_shape_witness :
  changePointPosterior 0 [Fin 30; Fin 50] [Fin 1; Fin 2] "2P"
    (mkPriors (Fin 1) (Fin 1) None (Fin 1) (Fin 3) (Fin 1)) cpStep_default
  = Some [].
Proof.
  refine (proj2 (changePointPosterior_other_shape 0 _ _ "2P" _ _ _ _ _));
    discriminate.
Defined.

(** ** logGamma *)

Local Open Scope R_scope.






Local Close Scope R_scope.

(** ** The sums as matrix products *)

Lemma lookup_total_fmap_range {B : Type} `{!Inhabited B} (f : nat -> B) n i :
  i < n -> (f <$> range 0 n) !!! i = f i.
Proof.
  intros Hi. apply list_lookup_total_correct.
  rewrite list_lookup_fmap. unfold range.
  rewrite lookup_seq_lt by lia. reflexivity.
Qed.

Lemma shape_table r c (f : nat -> nat -> num) :
  shape r c ((fun i : nat => (fun j : nat => f i j) <$> range 0 c) <$> range 0 r).
Proof.
  split; [rewrite length_fmap, length_range; lia|].
  apply Forall_fmap, Forall_forall. intros i _. simpl.
  rewrite length_fmap, length_range. lia.
Qed.

Lemma lookup_total_table r c (f : nat -> nat -> num) i j :
  i < r -> j < c ->
  (((fun i : nat => (fun j : nat => f i j) <$> range 0 c) <$> range 0 r) !!! i) !!! j = f i j.
Proof.
  intros Hi Hj. rewrite lookup_total_fmap_range by done.
  rewrite lookup_total_fmap_range by done. reflexivity.
Qed.

Lemma matTranspose_entry X n p i j :
  length X = n -> length (X !!! 0) = p -> j < p -> i < n ->
  (matTranspose X !!! j) !!! i = (X !!! i) !!! j.
Proof.
  intros Hn Hp Hj Hi. unfold matTranspose. rewrite Hn, Hp.
  apply (lookup_total_table p n (fun j i => (X !!! i) !!! j)); done.
Qed.

Lemma shape_matTranspose X n p :
  length X = n -> length (X !!! 0) = p -> shape p n (matTranspose X).
Proof.
  intros Hn Hp. unfold matTranspose. rewrite Hn, Hp.
  apply (shape_table p n (fun j i => (X !!! i) !!! j)).
Qed.


Lemma reduce_from_fmap_seq (g : nat -> num) (v : vec) j n s :
  reduce_from (fun s a i => (s + a * v !!! i)%num) j (g <$> seq j n) s
  = foldl (fun c i => (c + g i * v !!! i)%num) s (seq j n).
Proof.
  revert j s. induction n as [|n IH]; intros j s; [reflexivity|].
  simpl. apply IH.
Qed.


(** ** Gauss-Jordan elimination *)

Local Open Scope R_scope.

Lemma rsum_ext n f g : (forall k, (k < n)%nat -> f k = g k) -> rsum n f = rsum n g.
Proof.
  induction n as [|n IH]; intros H; [reflexivity|].
  simpl. rewrite IH by (intros; apply H; lia). rewrite H by lia. reflexivity.
Qed.

Lemma rsum_linear n f g a b :
  rsum n (fun k => a * f k + b * g k) = a * rsum n f + b * rsum n g.
Proof. induction n as [|n IH]; simpl; [lra|]. rewrite IH. lra. Qed.

Lemma rsum_kronecker n i (f : nat -> R) :
  (i < n)%nat -> rsum n (fun k => kronecker i k * f k) = f i.
Proof.
  induction n as [|n IH]; intros Hi; [lia|]. simpl.
  destruct (decide (i = n)) as [->|Hne].
  - rewrite (rsum_ext n _ (fun _ => 0)).
    + unfold kronecker. rewrite decide_True by done.
      clear. induction n as [|n IH]; simpl; [lra|]. 
      assert (rsum n (fun _ => 0) = 0) as -> by (clear; induction n; simpl; lra). lra.
    + intros k Hk. unfold kronecker. rewrite decide_False by lia. lra.
  - rewrite IH by lia. unfold kronecker at 1. rewrite decide_False by done. lra.
Qed.

Lemma is_fin_toR a : is_fin a -> a = Fin (toR a).
Proof. destruct a; simpl; intros H; first [reflexivity | contradiction]. Qed.

Lemma finite_vec_lookup (v : vec) i : finite_vec v -> (i < length v)%nat -> is_fin (v !!! i).
Proof.
  intros Hv Hi. unfold finite_vec in Hv. rewrite Forall_lookup in Hv.
  apply (Hv i). apply list_lookup_lookup_total_lt. exact Hi.
Qed.

Lemma finite_vec_intro (v : vec) :
  (forall i, (i < length v)%nat -> is_fin (v !!! i)) -> finite_vec v.
Proof.
  intros H. apply Forall_lookup. intros i x Hx.
  pose proof (lookup_lt_Some _ _ _ Hx) as Hi.
  apply list_lookup_total_correct in Hx. subst x. auto.
Qed.

(** *** Row operations *)

Lemma length_for_cols lo hi g r : length (for_cols lo hi g r) = length r.
Proof. apply length_imap. Qed.

Lemma lookup_total_for_cols lo hi g (r : vec) j :
  (j < length r)%nat ->
  for_cols lo hi g r !!! j = if decide (lo <= j < hi)%nat then g j (r !!! j) else r !!! j.
Proof.
  intros Hj. unfold for_cols. apply list_lookup_total_correct.
  rewrite list_lookup_imap, (list_lookup_lookup_total_lt r j) by done. reflexivity.
Qed.

(** [row[j] /= pivot] keeps the relation. *)
Lemma row_ok_scale M n row p :
  row_ok M n row -> p <> 0 ->
  row_ok M n (for_cols 0 (2 * n) (fun _ v => (v / Fin p)%num) row)
  /\ forall j, (j < 2 * n)%nat ->
       toR (for_cols 0 (2 * n) (fun _ v => (v / Fin p)%num) row !!! j) = toR (row !!! j) / p.
Proof.
  intros (HL & HF & HR) Hp.
  assert (HE : forall j, (j < 2 * n)%nat ->
            for_cols 0 (2 * n) (fun _ v => (v / Fin p)%num) row !!! j
            = Fin (toR (row !!! j) / p)).
  { intros j Hj. rewrite lookup_total_for_cols by lia.
    rewrite decide_True by lia.
    rewrite (is_fin_toR (row !!! j)) at 1 by (apply finite_vec_lookup; [done|lia]).
    simpl. rewrite decide_False by done. reflexivity. }
  split; [split; [|split]|].
  - rewrite length_for_cols. exact HL.
  - apply finite_vec_intro. intros i Hi. rewrite length_for_cols in Hi.
    rewrite HE by lia. exact I.
  - intros j Hj. rewrite HE by lia. simpl.
    rewrite <- (HR j Hj).
    rewrite (rsum_ext n _ (fun k => / p * (toR (row !!! (n + k)%nat) * toR ((M !!! k) !!! j))
                                    + 0 * 0)).
    + rewrite rsum_linear. unfold Rdiv. lra.
    + intros k Hk. rewrite HE by lia. simpl. unfold Rdiv. lra.
  - intros j Hj. rewrite HE by done. reflexivity.
Qed.

(** [row[j] -= f * pivotRow[j]] keeps the relation. *)
Lemma row_ok_eliminate M n row crow f :
  row_ok M n row -> row_ok M n crow ->
  row_ok M n (for_cols 0 (2 * n) (fun j v => (v - Fin f * crow !!! j)%num) row)
  /\ forall j, (j < 2 * n)%nat ->
       toR (for_cols 0 (2 * n) (fun j v => (v - Fin f * crow !!! j)%num) row !!! j)
       = toR (row !!! j) - f * toR (crow !!! j).
Proof.
  intros (HL & HF & HR) (HLc & HFc & HRc).
  assert (HE : forall j, (j < 2 * n)%nat ->
            for_cols 0 (2 * n) (fun j v => (v - Fin f * crow !!! j)%num) row !!! j
            = Fin (toR (row !!! j) - f * toR (crow !!! j))).
  { intros j Hj. rewrite lookup_total_for_cols by lia.
    rewrite decide_True by lia.
    rewrite (is_fin_toR (row !!! j)) at 1 by (apply finite_vec_lookup; [done|lia]).
    rewrite (is_fin_toR (crow !!! j)) at 1 by (apply finite_vec_lookup; [done|lia]).
    simpl. unfold nsub. simpl. f_equal. }
  split; [split; [|split]|].
  - rewrite length_for_cols. exact HL.
  - apply finite_vec_intro. intros i Hi. rewrite length_for_cols in Hi.
    rewrite HE by lia. exact I.
  - intros j Hj. rewrite HE by lia. simpl.
    rewrite <- (HR j Hj), <- (HRc j Hj).
    rewrite (rsum_ext n _ (fun k => 1 * (toR (row !!! (n + k)%nat) * toR ((M !!! k) !!! j))
                  + (- f) * (toR (crow !!! (n + k)%nat) * toR ((M !!! k) !!! j)))).
    + rewrite rsum_linear. lra.
    + intros k Hk. rewrite HE by lia. simpl. lra.
  - intros j Hj. rewrite HE by done. reflexivity.
Qed.

(** *** The pivot search and the row swap *)

Lemma find_pivot_range a n col :
  (col < n)%nat -> (col <= find_pivot a n col < n)%nat.
Proof.
  intros Hc. unfold find_pivot.
  assert (H : forall l mr, (forall x, x ∈ l -> (col <= x < n)%nat) ->
            (col <= mr < n)%nat ->
            (col <= foldl (fun maxRow row =>
                  if (Math_abs ((a !!! row) !!! col) >? Math_abs ((a !!! maxRow) !!! col))%num
                  then row else maxRow) mr l < n)%nat).
  { induction l as [|x l IH]; intros mr Hl Hmr; [exact Hmr|].
    simpl. apply IH.
    - intros z Hz. apply Hl. right. exact Hz.
    - destruct (_ >? _)%num; [apply Hl; left|exact Hmr]. }
  apply H; [|lia]. intros x Hx. apply elem_of_range in Hx. lia.
Qed.

Lemma lookup_total_swap_rows (a : matrix) i j r :
  (i < length a)%nat -> (j < length a)%nat ->
  swap_rows i j a !!! r
  = if decide (r = j) then a !!! i else if decide (r = i) then a !!! j else a !!! r.
Proof.
  intros Hi Hj. unfold swap_rows.
  rewrite list_lookup_total_insert, length_insert.
  destruct (decide (r = j)) as [->|Hrj].
  - rewrite decide_True by done. reflexivity.
  - rewrite decide_False by (intros [? ?]; done).
    rewrite list_lookup_total_insert.
    destruct (decide (r = i)) as [->|Hri].
    + rewrite decide_True by done. reflexivity.
    + rewrite decide_False by (intros [? ?]; done). reflexivity.
Qed.

Lemma invert_inv_swap M n c mr a :
  invert_inv M n c a -> (c <= mr < n)%nat ->
  invert_inv M n c (swap_rows c mr a).
Proof.
  intros [HL HR] Hmr. split.
  { unfold swap_rows. rewrite !length_insert. exact HL. }
  intros r Hr. rewrite lookup_total_swap_rows by lia.
  assert (Hzero : forall r1 r2, (c <= r1 < n)%nat -> (c <= r2)%nat ->
            unit_cols c r2 (a !!! r1)).
  { intros r1 r2 Hr1 Hr2 j Hj. destruct (HR r1) as [_ HU]; [lia|].
    rewrite HU by done. unfold kronecker. rewrite !decide_False by lia. reflexivity. }
  destruct (decide (r = mr)) as [->|Hne].
  - split; [apply HR; lia|]. apply Hzero; lia.
  - destruct (decide (r = c)) as [->|Hne'].
    + split; [apply HR; lia|]. apply Hzero; lia.
    + apply HR. exact Hr.
Qed.

Lemma pivot_nonzero (x : num) :
  is_fin x -> (Math_abs x <? pivot_tol)%num = false -> toR x <> 0.
Proof.
  destruct x as [x| | |]; simpl; try contradiction.
  intros _ H. apply bool_decide_eq_false in H.
  intros ->. apply H. rewrite Rabs_R0. lra.
Qed.

(** *** One column *)

Lemma row_ok_entry_fin M n row j :
  row_ok M n row -> (j < 2 * n)%nat -> row !!! j = Fin (toR (row !!! j)).
Proof.
  intros (HL & HF & _) Hj. apply is_fin_toR, finite_vec_lookup; [done|lia].
Qed.

Lemma eliminate_spec M n col a :
  (col < n)%nat -> length a = n ->
  (forall r, (r < n)%nat -> row_ok M n (a !!! r) /\ unit_cols col r (a !!! r)) ->
  toR ((a !!! col) !!! col) = 1 ->
  invert_inv M n (S col) (eliminate a n col).
Proof.
  intros Hcol HL HR Hone. unfold eliminate.
  assert (H : forall q, (q <= n)%nat ->
    let a' := foldl (eliminate_row n col) a (range 0 q) in
    length a' = n /\ a' !!! col = a !!! col
    /\ forall r, (r < n)%nat ->
         row_ok M n (a' !!! r) /\ unit_cols col r (a' !!! r)
         /\ ((r < q)%nat -> toR ((a' !!! r) !!! col) = kronecker r col)).
  { induction q as [|q IH]; intros Hq; cbv zeta.
    { split; [exact HL|]. split; [reflexivity|]. intros r Hr.
      destruct (HR r Hr) as [H1 H2]. split; [exact H1|]. split; [exact H2|]. lia. }
    rewrite range_0_S, foldl_app. simpl.
    destruct IH as (HL' & Hc' & HR'); [lia|].
    set (a' := foldl (eliminate_row n col) a (range 0 q)) in *.
    unfold eliminate_row. destruct (decide (q = col)) as [->|Hne].
    { split; [exact HL'|]. split; [exact Hc'|]. intros r Hr.
      destruct (HR' r Hr) as (H1 & H2 & H3). split; [exact H1|]. split; [exact H2|].
      intros Hrq. destruct (decide (r = col)) as [->|Hrc].
      - rewrite Hc', Hone. unfold kronecker. rewrite decide_True by done. reflexivity.
      - apply H3. lia. }
    destruct (HR' q) as (Hq1 & Hq2 & _); [lia|].
    destruct (HR' col Hcol) as (Hc1 & Hc2 & _).
    pose proof (row_ok_entry_fin M n (a' !!! q) col Hq1 ltac:(lia)) as Hfq.
    rewrite Hfq.
    destruct (row_ok_eliminate M n (a' !!! q) (a' !!! col) (toR ((a' !!! q) !!! col)) Hq1 Hc1)
      as [Hnew HnewE].
    split; [rewrite length_insert; exact HL'|].
    split; [rewrite list_lookup_total_insert_ne by done; exact Hc'|].
    intros r Hr. rewrite list_lookup_total_insert.
    destruct (decide (q = r)) as [<-|Hqr].
    - rewrite decide_True by (split; [done|lia]).
      split; [exact Hnew|]. split.
      + intros j Hj. rewrite HnewE by lia. rewrite Hq2, Hc2 by done.
        unfold kronecker at 2. rewrite decide_False by lia. lra.
      + intros _. rewrite HnewE by lia. rewrite Hc', Hone.
        unfold kronecker. rewrite decide_False by done. lra.
    - rewrite decide_False by (intros [? ?]; done).
      destruct (HR' r Hr) as (H1 & H2 & H3). split; [exact H1|]. split; [exact H2|].
      intros Hrq. apply H3. lia. }
  destruct (H n (le_n _)) as (HL' & _ & HR').
  split; [exact HL'|]. intros r Hr. destruct (HR' r Hr) as (H1 & H2 & H3).
  split; [exact H1|]. intros j Hj.
  destruct (decide (j = col)) as [->|Hjc]; [apply H3; exact Hr|apply H2; lia].
Qed.

Lemma invert_step_inv M n col a a' :
  (col < n)%nat -> invert_inv M n col a ->
  invert_step n a col = Some a' -> invert_inv M n (S col) a'.
Proof.
  intros Hcol Hinv. unfold invert_step.
  pose proof (find_pivot_range a n col Hcol) as Hmr.
  pose proof (invert_inv_swap M n col _ a Hinv Hmr) as [HL HR].
  set (b := swap_rows col (find_pivot a n col) a) in *.
  destruct (HR col Hcol) as [Hrow Hunit].
  destruct (_ <? _)%num eqn:Hpiv; [discriminate|].
  intros [= <-].
  assert (Hp : toR ((b !!! col) !!! col) <> 0).
  { apply pivot_nonzero; [|exact Hpiv].
    rewrite (row_ok_entry_fin M n _ col Hrow) by lia. exact I. }
  unfold scale_pivot_row.
  pose proof (row_ok_entry_fin M n _ col Hrow ltac:(lia)) as Hpv.
  set (p := toR ((b !!! col) !!! col)) in *. rewrite Hpv.
  destruct (row_ok_scale M n (b !!! col) p Hrow Hp) as [Hs HsE].
  apply eliminate_spec; [exact Hcol|rewrite length_insert; exact HL| |].
  - intros r Hr. rewrite list_lookup_total_insert.
    destruct (decide (col = r)) as [<-|Hne].
    + rewrite decide_True by (split; [done|lia]). split; [exact Hs|].
      intros j Hj. rewrite HsE by lia. rewrite Hunit by done.
      unfold kronecker. rewrite decide_False by lia. unfold Rdiv. lra.
    + rewrite decide_False by (intros [? ?]; done). apply HR. exact Hr.
  - rewrite list_lookup_total_insert_eq by lia. rewrite HsE by lia.
    unfold Rdiv. apply Rinv_r. exact Hp.
Qed.

Lemma invert_loop_inv M n k : forall c a a',
  (c + k = n)%nat -> invert_inv M n c a ->
  invert_loop n (seq c k) a = Some a' -> invert_inv M n n a'.
Proof.
  induction k as [|k IH]; intros c a a' Hck Hinv Hloop.
  - simpl in Hloop. injection Hloop as <-.
    assert (Hc : c = n) by lia. subst c. exact Hinv.
  - simpl in Hloop. destruct (invert_step n a c) as [a1|] eqn:Hstep; [|discriminate].
    apply (IH (S c) a1 a'); [lia| |exact Hloop].
    apply (invert_step_inv M n c a a1); [lia|exact Hinv|exact Hstep].
Qed.

(** *** The augmented matrix, and the result *)

Lemma finite_matrix_row (M : matrix) i :
  finite_matrix M -> (i < length M)%nat -> finite_vec (M !!! i).
Proof.
  intros HM Hi. unfold finite_matrix in HM. rewrite Forall_lookup in HM.
  apply (HM i). apply list_lookup_lookup_total_lt. exact Hi.
Qed.

Lemma augment_inv M n :
  shape n n M -> finite_matrix M -> invert_inv M n 0 (augment M).
Proof.
  intros HS HF. pose proof HS as [HL _]. unfold augment. rewrite HL.
  split; [rewrite length_imap; exact HL|].
  intros r Hr.
  assert (Hrow : imap (fun i (row : vec) =>
             row ++ ((fun j : nat => if decide (i = j) then Fin 1 else Fin 0) <$> range 0 n)) M
           !!! r
           = M !!! r ++ ((fun j : nat => if decide (r = j) then Fin 1 else Fin 0) <$> range 0 n)).
  { apply list_lookup_total_correct. rewrite list_lookup_imap.
    rewrite (list_lookup_lookup_total_lt M r) by lia. reflexivity. }
  rewrite Hrow. clear Hrow.
  pose proof (shape_row n n M r HS Hr) as HLr.
  assert (Hleft : forall j, (j < n)%nat ->
    (M !!! r ++ ((fun j : nat => if decide (r = j) then Fin 1 else Fin 0) <$> range 0 n)) !!! j
    = (M !!! r) !!! j).
  { intros j Hj. rewrite lookup_total_app_l by lia. reflexivity. }
  assert (Hright : forall k, (k < n)%nat ->
    (M !!! r ++ ((fun j : nat => if decide (r = j) then Fin 1 else Fin 0) <$> range 0 n))
      !!! (n + k)%nat
    = Fin (kronecker r k)).
  { intros k Hk. rewrite lookup_total_app_r by lia.
    replace (n + k - length (M !!! r))%nat with k by lia.
    rewrite lookup_total_fmap_range by done. unfold kronecker.
    destruct (decide (r = k)); reflexivity. }
  split; [split; [|split]|].
  - rewrite length_app, length_fmap, length_range. lia.
  - apply Forall_app. split; [apply finite_matrix_row; [done|lia]|].
    apply Forall_fmap, Forall_forall. intros j _. simpl. destruct (decide (r = j)); exact I.
  - intros j Hj. rewrite Hleft by done.
    rewrite (rsum_ext n _ (fun k => kronecker r k * toR ((M !!! k) !!! j))).
    + apply (rsum_kronecker n r (fun k => toR ((M !!! k) !!! j))). exact Hr.
    + intros k Hk. rewrite Hright by done. reflexivity.
  - intros j Hj. lia.
Qed.

(** Sums of finite products, as the loops of [matMul] form them *)
Lemma foldl_fin_sum (f : nat -> num) (g : nat -> R) n :
  (forall k, (k < n)%nat -> f k = Fin (g k)) ->
  foldl (fun c l => (c + f l)%num) (Fin 0) (range 0 n) = Fin (rsum n g).
Proof.
  induction n as [|n IH]; intros H; [reflexivity|].
  rewrite range_0_S, foldl_app. simpl.
  rewrite IH by (intros; apply H; lia). rewrite H by lia. reflexivity.
Qed.

(** On a finite square matrix, a successful [matInvert] returns a finite
    matrix [B] with [B * M = I]. *)
Lemma matInvert_left_inverse M n B :
  shape n n M -> finite_matrix M -> matInvert M = Some B ->
  shape n n B /\ finite_matrix B /\ matMul B M = identityMatrix n.
Proof.
  intros HS HF. pose proof HS as [HL _]. unfold matInvert. rewrite HL.
  destruct (invert_loop n (range 0 n) (augment M)) as [a|] eqn:Hloop; [|discriminate].
  intros [= <-].
  assert (Hinv : invert_inv M n n a).
  { apply (invert_loop_inv M n n 0 (augment M) a); [lia|apply augment_inv; done|].
    unfold range in Hloop. rewrite Nat.sub_0_r in Hloop. exact Hloop. }
  destruct Hinv as [HLa HRa].
  assert (Hrow : forall i, (i < n)%nat -> (drop n <$> a) !!! i = drop n (a !!! i)).
  { intros i Hi. apply list_lookup_total_correct. rewrite list_lookup_fmap.
    rewrite (list_lookup_lookup_total_lt a i) by lia. reflexivity. }
  assert (HSB : shape n n (drop n <$> a)).
  { split; [rewrite length_fmap; exact HLa|].
    apply Forall_fmap, Forall_lookup. intros i row Hi. simpl.
    pose proof (lookup_lt_Some _ _ _ Hi) as Hi'.
    apply list_lookup_total_correct in Hi. subst row.
    destruct (HRa i) as [(Hlen & _ & _) _]; [lia|]. rewrite length_drop. lia. }
  assert (HFB : finite_matrix (drop n <$> a)).
  { apply Forall_fmap, Forall_lookup. intros i row Hi. simpl.
    pose proof (lookup_lt_Some _ _ _ Hi) as Hi'.
    apply list_lookup_total_correct in Hi. subst row.
    destruct (HRa i) as [(_ & Hfin & _) _]; [lia|]. apply Forall_drop. exact Hfin. }
  split; [exact HSB|]. split; [exact HFB|].
  assert (Hcols : length (M !!! 0%nat) = n).
  { destruct n as [|n']; [|apply (shape_row (S n') (S n') M 0 HS); lia].
    apply nil_length_inv in HL. subst M. reflexivity. }
  unfold matMul, identityMatrix.
  rewrite length_fmap, HLa, HL, Hcols.
  apply (matrix_ext n n); [apply shape_table|apply (shape_table n n (fun i j => if decide (i = j) then Fin 1 else Fin 0))|].
  intros i j Hi Hj.
  rewrite (lookup_total_table n n
     (fun i j => foldl (fun c l => (c + ((drop n <$> a) !!! i) !!! l * (M !!! l) !!! j)%num)
                   (Fin 0) (range 0 n))) by done.
  rewrite (lookup_total_table n n (fun i j => if decide (i = j) then Fin 1 else Fin 0)) by done.
  destruct (HRa i Hi) as [(Hlen & Hfin & Hrel) Hunit].
  rewrite (foldl_fin_sum _ (fun k => toR ((a !!! i) !!! (n + k)%nat) * toR ((M !!! k) !!! j))).
  - rewrite Hrel by done. rewrite Hunit by done. unfold kronecker.
    destruct (decide (i = j)); reflexivity.
  - intros k Hk. rewrite Hrow by done. rewrite lookup_total_drop.
    rewrite (is_fin_toR ((a !!! i) !!! (n + k)%nat)) by (apply finite_vec_lookup; [done|lia]).
    rewrite (is_fin_toR ((M !!! k) !!! j)).
    + reflexivity.
    + apply finite_vec_lookup; [apply finite_matrix_row; [done|lia]|].
      rewrite (shape_row n n M k HS) by done. exact Hj.
Qed.

Local Close Scope R_scope.

Ltac eval_sums := cbn -[matInvert Z.pow_pos Rabs].

Ltac js_eval :=
  repeat (progress (cbn -[Z.pow_pos Rabs]; decide_consts)).

(** ** The conjugate update *)

(** What [bayesianRegression] returns when the inversion of the posterior
    precision succeeds, with the sums still in the form of the loops *)
Lemma bayesianRegression_fields X y mu0 Lambda0 a0 b0 Linv :
  let n := length y in
  let p := length (X !!! 0) in
  let XtX := accumulate_XtX X n p in
  let Xty := accumulate_Xty X y n p in
  let LN := matAdd Lambda0 XtX in
  let mN := matVecMul Linv (imap (fun j v => (v + Xty !!! j)%num) (matVecMul Lambda0 mu0)) in
  matInvert LN = Some Linv ->
  exists post,
    bayesianRegression X y mu0 Lambda0 a0 b0 = Some post
    /\ LambdaN post = LN /\ LambdaN_inv post = Linv /\ muN post = mN
    /\ aN post = (a0 + of_nat n / Fin 2)%num
    /\ bN post = (b0 + Fin 0.5 * (vecDot y y + vecDot mu0 (matVecMul Lambda0 mu0)
                                  - vecDot mN (matVecMul LN mN)))%num
    /\ logML post
       = (- of_nat n / Fin 2 * Math_log (Fin 2 * Math_PI)
          + Fin 0.5 * Math_log (Math_abs (matDet Lambda0))
          - Fin 0.5 * Math_log (Math_abs (matDet LN))
          + a0 * Math_log b0 - aN post * Math_log (bN post)
          + logGamma (aN post) - logGamma a0)%num
    /\ betaOLS post = match matInvert XtX with
                      | Some XtX_inv => matVecMul XtX_inv Xty
                      | None => mN
                      end.
Proof.
  intros n p XtX Xty LN mN Hinv. unfold bayesianRegression.
  fold n p. fold XtX Xty. fold LN. rewrite Hinv.
  eexists. split; [reflexivity|]. simpl. repeat split.
Qed.


(** *** Matrices with a single entry *)

Local Open Scope R_scope.

Lemma matInvert_1x1 (a : R) :
  matInvert [[Fin a]]
  = if bool_decide (Rabs a < 1e-14) then None else Some [[Fin (1 / a)]].
Proof.
  assert (Hz : Rabs a < 1e-14 \/ a <> 0).
  { destruct (decide (a = 0)) as [->|Hne]; [left; rewrite Rabs_R0; lra|right; exact Hne]. }
  unfold matInvert, augment. cbn -[Z.pow_pos Rabs].
  unfold invert_step, pivot_tol. cbn -[Z.pow_pos Rabs].
  case_bool_decide as Hp; [reflexivity|].
  destruct Hz as [Hz|Hz]; [contradiction|].
  unfold eliminate_row. js_eval.
  reflexivity.
Qed.

Local Close Scope R_scope.

(** *** Failure of the update *)


Local Open Scope R_scope.




(** *** The posterior shape and the observation count *)


Lemma fit_one_observation :
  exists post,
    bayesianRegression [[Fin 1]] [Fin 0] [Fin 0] [[Fin 1]] (Fin 1) (Fin 1) = Some post
    /\ exists v, marginal_variance post 0 = Fin v /\ v = 1 / 3.
Proof.
  edestruct (bayesianRegression_fields [[Fin 1]] [Fin 0] [Fin 0] [[Fin 1]] (Fin 1) (Fin 1))
    as (post & Hpost & _ & HLi & HmN & HaN & HbN & _).
  { eval_sums. rewrite matInvert_1x1. rewrite bool_decide_eq_false_2 by real_side. reflexivity. }
  exists post. split; [exact Hpost|].
  unfold marginal_variance. rewrite HbN, HaN, HLi. js_eval.
  eexists. split; [reflexivity|]. lra.
Qed.




Local Close Scope R_scope.

(** *** Finiteness of the sums *)




(** *** The update *)



(** ** The change-point scan *)







(** *** Normalisation keeps the candidates *)








(** *** The scan terminates *)

Lemma grid_mono fuel : forall c hi step g fuel',
  grid fuel c hi step = Some g -> fuel <= fuel' -> grid fuel' c hi step = Some g.
Proof.
  induction fuel as [|fuel IH]; intros c hi step g fuel' Hg Hle; [discriminate|].
  destruct fuel' as [|fuel']; [lia|]. simpl in *.
  destruct (c <=? hi)%num; [|exact Hg].
  destruct (grid fuel (c + step)%num hi step) as [g'|] eqn:Hg'; [|discriminate].
  rewrite (IH _ _ _ g' fuel' Hg') by lia. exact Hg.
Qed.

Lemma grid_pairs_mono fuel outer hi2 r fuel' :
  grid_pairs fuel outer hi2 = Some r -> fuel <= fuel' ->
  grid_pairs fuel' outer hi2 = Some r.
Proof.
  intros Hr Hle. revert r Hr. induction outer as [|cph rest IH]; intros r Hr; [exact Hr|].
  simpl in *.
  destruct (grid fuel (cph + Fin 6)%num hi2 (Fin 1)) as [inner|] eqn:Hin; [|discriminate].
  destruct (grid_pairs fuel rest hi2) as [r'|] eqn:Hrest; [|discriminate].
  rewrite (grid_mono fuel _ _ _ inner fuel' Hin Hle), (IH r' eq_refl). exact Hr.
Qed.

Local Open Scope R_scope.








Local Close Scope R_scope.

(** *** Singular candidates are dropped *)




(** ** Probability normalisation *)



Local Open Scope R_scope.







Local Close Scope R_scope.


Ltac eval_invert :=
  unfold matInvert, augment;
  repeat (progress (cbn -[Z.pow_pos Rabs];
                    unfold invert_step, eliminate_row, pivot_tol;
                    decide_consts)).

(** *** A scan whose probabilities are not numbers *)

Local Open Scope R_scope.









Local Close Scope R_scope.

(** ** The marginal posterior of a coefficient *)

Local Open Scope R_scope.

Lemma Math_sqrt_fin_nonneg (v : num) (s : R) : Math_sqrt v = Fin s -> 0 <= s.
Proof.
  destruct v as [x| | |]; simpl; try discriminate.
  destruct (decide (x < 0)); [discriminate|]. intros [= <-]. apply sqrt_pos.
Qed.

Lemma curve_x_fin (m s : R) (nPoints i : nat) :
  (2 <= nPoints)%nat ->
  curve_x (Fin m) (Fin s) nPoints i
  = Fin (m + - (4 * s) + 2 * (4 * s) * INR i / (INR nPoints + - 1)).
Proof.
  intros Hn. unfold curve_x, of_nat, nsub. simpl.
  rewrite decide_False; [reflexivity|].
  apply le_INR in Hn. simpl in Hn. lra.
Qed.

Lemma density_curve_lookup mu scale nu nPoints i :
  (i < nPoints)%nat ->
  density_curve mu scale nu nPoints !! i
  = Some (mkPoint (curve_x mu scale nPoints i)
                  (studentTPDF (curve_x mu scale nPoints i) nu mu scale)).
Proof.
  intros Hi. unfold density_curve. rewrite list_lookup_fmap.
  unfold range. rewrite lookup_seq_lt by lia. reflexivity.
Qed.

(** C4, as the code has it.  For a parameter index within range,
    [parameterPosterior] returns an object with the properties [points],
    [mean], [ci95], [ci80], [nu] and [scale] and no other: the Student-t
    summary with [nu = 2 aN], location [muN[j]] and scale
    [sqrt((bN / aN) * LambdaN_inv[j][j])], the 95% and 80% credible
    intervals as quantiles, and a curve of 200 points [(x, density at x)].
    When location and scale are finite the abscissae run from
    [mean - 4 scale] to [mean + 4 scale] in nondecreasing order.  There is no
    50% interval. *)
Theorem parameterPosterior_summary (post : Posterior) (j : nat) :
  (j < length (muN post))%nat ->
  (j < length (LambdaN_inv post))%nat ->
  (j < length (LambdaN_inv post !!! j))%nat ->
  let nu := (Fin 2 * aN post)%num in
  let mu := muN post !!! j in
  let scale := Math_sqrt (marginal_variance post j) in
  let r := parameterPosterior post j nPoints_default in
  r.*1 = ["points"; "mean"; "ci95"; "ci80"; "nu"; "scale"]
  /\ get r "nu" = Some (VNum nu)
  /\ get r "mean" = Some (VNum mu)
  /\ get r "scale" = Some (VNum scale)
  /\ get r "ci95" = Some (VPair (studentTQuantile (Fin 0.025) nu mu scale)
                                (studentTQuantile (Fin 0.975) nu mu scale))
  /\ get r "ci80" = Some (VPair (studentTQuantile (Fin 0.10) nu mu scale)
                                (studentTQuantile (Fin 0.90) nu mu scale))
  /\ get r "ci50" = None
  /\ exists pts,
       get r "points" = Some (VPoints pts)
       /\ length pts = 200%nat
       /\ (forall i, (i < 200)%nat ->
             pts !! i = Some (mkPoint (curve_x mu scale 200 i)
                                      (studentTPDF (curve_x mu scale 200 i) nu mu scale)))
       /\ (forall m s, mu = Fin m -> scale = Fin s ->
             point_x (pts !!! 0%nat) = Fin (m + - (4 * s) + 2 * (4 * s) * 0 / (200 + - 1))
             /\ m + - (4 * s) + 2 * (4 * s) * 0 / (200 + - 1) = m - 4 * s
             /\ point_x (pts !!! 199%nat)
                = Fin (m + - (4 * s) + 2 * (4 * s) * 199 / (200 + - 1))
             /\ m + - (4 * s) + 2 * (4 * s) * 199 / (200 + - 1) = m + 4 * s
             /\ forall i, (S i < 200)%nat ->
                  (point_x (pts !!! i) <=? point_x (pts !!! S i))%num = true).
Proof.
  intros _ _ _ nu mu scale r.
  split; [reflexivity|]. do 6 (split; [reflexivity|]).
  exists (density_curve mu scale nu 200).
  split; [reflexivity|]. split.
  { unfold density_curve. rewrite length_fmap, length_range. reflexivity. }
  split.
  { intros i Hi. apply density_curve_lookup. exact Hi. }
  intros m s Hmu Hscale.
  assert (Hs : 0 <= s) by (apply (Math_sqrt_fin_nonneg _ _ Hscale)).
  assert (Hx : forall i, (i < 200)%nat ->
            point_x (density_curve mu scale nu 200 !!! i)
            = Fin (m + - (4 * s) + 2 * (4 * s) * INR i / (INR 200 + - 1))).
  { intros i Hi.
    rewrite (list_lookup_total_correct _ _ _ (density_curve_lookup mu scale nu 200 i Hi)).
    simpl. rewrite Hmu, Hscale. apply curve_x_fin. lia. }
  assert (HINR : forall k : Z, (0 <= k)%Z -> INR (Z.to_nat k) = IZR k).
  { intros k Hk. rewrite INR_IZR_INZ, Z2Nat.id by exact Hk. reflexivity. }
  pose proof (HINR 200%Z ltac:(lia)) as H200.
  pose proof (HINR 199%Z ltac:(lia)) as H199.
  pose proof (HINR 0%Z ltac:(lia)) as H0.
  change (Z.to_nat 200) with 200%nat in H200.
  change (Z.to_nat 199) with 199%nat in H199.
  change (Z.to_nat 0) with 0%nat in H0.
  split; [|split; [|split; [|split]]].
  - rewrite Hx by lia. rewrite H200, H0. reflexivity.
  - unfold Rdiv. lra.
  - rewrite Hx by lia. rewrite H200, H199. reflexivity.
  - unfold Rdiv. lra.
  - intros i Hi. rewrite !Hx by lia. cbn [nle]. apply bool_decide_eq_true.
    rewrite H200, S_INR. pose proof (pos_INR i) as Hpos.
    unfold Rdiv. nra.
Qed.

Lemma parameterPosterior_summary_witness :
  get (parameterPosterior sample_posterior 0 nPoints_default) "nu"
  = Some (VNum (Fin 2 * Fin 1.5)%num)
  /\ get (parameterPosterior sample_posterior 0 nPoints_default) "ci50" = None.
Proof.
  destruct (parameterPosterior_summary sample_posterior 0)
    as (_ & Hnu & _ & _ & _ & _ & H50 & _).
  - simpl. lia.
  - simpl. lia.
  - simpl. lia.
  - split; [exact Hnu|exact H50].
Defined.

(** C4: the summary has no 50% credible interval. *)
Lemma parameterPosterior_no_ci50 :
  (parameterPosterior sample_posterior 0 nPoints_default).*1
  = ["points"; "mean"; "ci95"; "ci80"; "nu"; "scale"]
  /\ get (parameterPosterior sample_posterior 0 nPoints_default) "ci50" = None.
Proof. split; reflexivity. Qed.

Local Close Scope R_scope.

(** ** The savings posterior *)

Section SamplerFacts.
Variable src : nat -> num.

Lemma draw_samples_length fuel post modelType cp1 cp2 data nSamples :
  forall pos samples pos',
  draw_samples src fuel post modelType cp1 cp2 data nSamples pos = Some (samples, pos') ->
  length samples = nSamples.
Proof.
  induction nSamples as [|k IH]; intros pos samples pos' H.
  - injection H as <- _. reflexivity.
  - simpl in H. unfold bind in H.
    destruct (sampleInvGamma src fuel (aN post) (bN post) pos) as [[sigma2 p1]|];
      [|discriminate].
    destruct (sampleMVN src fuel (muN post) _ p1) as [[beta p2]|]; [|discriminate].
    destruct (draw_samples src fuel post modelType cp1 cp2 data k p2) as [[rest p3]|] eqn:Hr;
      [|discriminate].
    injection H as <- _. simpl. f_equal. exact (IH _ _ _ Hr).
Qed.
End SamplerFacts.

Local Open Scope R_scope.

Lemma Int_part_of_zero (x : R) : x = 0 -> Int_part x = 0%Z.
Proof. intros ->. symmetry. apply Int_part_spec. simpl. lra. Qed.

Lemma to_index_zero (x : R) : x = 0 -> to_index (Fin x) = Some 0%nat.
Proof.
  intros Hx. unfold to_index, is_int. rewrite (Int_part_of_zero x Hx).
  rewrite bool_decide_eq_true_2 by (simpl; lra).
  rewrite bool_decide_eq_true_2 by lia. reflexivity.
Qed.

(** With a single sample the bin width is [0 / 50] and the bin index
    [0 / 0]. *)
Lemma single_sample_bin_index (s : num) :
  Math_min [Math_floor ((s - s) / ((s - s) / of_nat 50%nat))%num; (of_nat 50%nat - Fin 1)%num]
  = NaN.
Proof.
  assert (H50 : INR 50%nat <> 0) by (apply not_0_INR; lia).
  destruct s as [x| | |]; try reflexivity.
  unfold nsub, of_nat. cbn [nneg nadd ndiv].
  rewrite (decide_False (P := INR 50 = 0)) by exact H50.
  rewrite decide_True by (unfold Rdiv; apply Rmult_eq_0_compat_r; lra).
  unfold by_sign. rewrite !decide_False by lra. reflexivity.
Qed.

Lemma summarize_single_sample (s : num) : summarize [s] 1%nat = Threw.
Proof.
  unfold summarize.
  assert (Hsort : sort_numbers [s] = [s]) by reflexivity.
  rewrite Hsort.
  assert (Hmin : at_index [s] (Fin 0) = s).
  { unfold at_index. rewrite to_index_zero by reflexivity. reflexivity. }
  assert (Hmax : at_index [s] (of_nat 1%nat - Fin 1)%num = s).
  { unfold at_index, of_nat, nsub. cbn [nneg nadd].
    rewrite to_index_zero by (simpl; lra). reflexivity. }
  rewrite Hmin, Hmax.
  cbn [foldl]. unfold count_sample at 1.
  rewrite single_sample_bin_index. reflexivity.
Qed.

(** C7 at [nSamples = 1].  Whenever the sampling loop ends,
    [savingsPosterior] raises a TypeError instead of returning the summary
    of its single sample: the bin width is 0, the bin index of the sample is
    [0 / 0] and [bins[NaN]] does not exist. *)
Theorem savingsPosterior_single_sample_throws src fuel post modelType cp1 cp2 data
    samples pos' :
  draw_samples src fuel post modelType cp1 cp2 data 1%nat 0%nat = Some (samples, pos') ->
  savingsPosterior src fuel post modelType cp1 cp2 data 1%nat = Threw
  /\ forall r, savingsPosterior src fuel post modelType cp1 cp2 data 1%nat <> Returned r.
Proof.
  intros Hdraw.
  assert (Hthrow : savingsPosterior src fuel post modelType cp1 cp2 data 1%nat = Threw).
  { unfold savingsPosterior. rewrite Hdraw.
    pose proof (draw_samples_length src _ _ _ _ _ _ _ _ _ _ Hdraw) as Hlen.
    destruct samples as [|s [|? ?]]; try discriminate.
    apply summarize_single_sample. }
  split; [exact Hthrow|]. intros r. rewrite Hthrow. discriminate.
Qed.

(** *** A run that reaches the histogram *)

Lemma draw_nonzero_quarter fuel pos :
  draw_nonzero quarter_source (S fuel) pos = Some (Fin 0.25, S pos).
Proof.
  simpl. unfold bind, Math_random, quarter_source. simpl.
  rewrite bool_decide_eq_false_2 by lra. reflexivity.
Qed.

Lemma sampleNormal_quarter fuel pos :
  exists x, sampleNormal quarter_source (S fuel) pos = Some (Fin x, S (S pos)) /\ x = 0.
Proof.
  unfold sampleNormal, bind. rewrite !draw_nonzero_quarter. unfold ret.
  assert (Hln : ln 0.25 < 0).
  { rewrite <- ln_1. apply ln_increasing; lra. }
  assert (Hcos : cos (2 * PI * 0.25) = 0).
  { replace (2 * PI * 0.25) with (PI / 2) by lra. apply cos_PI2. }
  unfold Math_log, Math_sqrt, Math_cos, Math_PI. 
  rewrite (decide_True (P := 0 < 0.25)) by lra. cbn [nmul].
  rewrite decide_False by lra.
  eexists. split; [reflexivity|]. rewrite Hcos. lra.
Qed.

Lemma sampleGamma_quarter fuel pos :
  exists g, sampleGamma quarter_source (S fuel) (Fin 1.5) (Fin 1) pos
            = Some (g, S (S (S pos))).
Proof.
  cbn [sampleGamma nlt]. rewrite bool_decide_eq_false_2 by lra.
  cbn [accept_reject draw_positive]. unfold bind at 1 2.
  destruct (sampleNormal_quarter fuel pos) as (x & -> & ->).
  set (c := (Fin 1 / Math_sqrt (Fin 9 * (Fin 1.5 - Fin 1 / Fin 3)))%num).
  assert (Hc : exists cr, c = Fin cr).
  { unfold c, nsub. cbn [ndiv nmul nneg nadd]. rewrite decide_False by lra.
    cbn [nneg nadd nmul Math_sqrt]. rewrite decide_False by lra.
    cbn [ndiv]. rewrite decide_False; [eauto|].
    intros H0. apply sqrt_eq_0 in H0; lra. }
  destruct Hc as [cr ->].
  cbn [nmul nadd nle]. rewrite bool_decide_eq_false_2 by lra.
  unfold ret at 1. cbn [fst snd]. unfold bind at 1, Math_random at 1, quarter_source at 1.
  cbn [nmul nsub nneg nadd nlt]. rewrite bool_decide_eq_true_2 by lra.
  unfold ret. eauto.
Qed.

Lemma normals_quarter fuel n : forall pos,
  exists zs, normals quarter_source (S fuel) n pos = Some (zs, (2 * n + pos)%nat).
Proof.
  induction n as [|n IH]; intros pos.
  - exists []. reflexivity.
  - cbn [normals]. unfold bind at 1.
    destruct (sampleNormal_quarter fuel pos) as (x & -> & _).
    unfold bind at 1. destruct (IH (S (S pos))) as [zs ->].
    exists (Fin x :: zs). unfold ret. do 2 f_equal. lia.
Qed.

Lemma draw_one_sample_quarter :
  exists samples pos',
    draw_samples quarter_source 1%nat unit_posterior "3PH" (Some (Fin 45)) None
      [mkReading (Fin 30) (Fin 100)] 1%nat 0%nat = Some (samples, pos').
Proof.
  cbn [draw_samples]. unfold bind at 1, sampleInvGamma, bind at 1.
  destruct (sampleGamma_quarter 0%nat 0%nat) as [g Hg].
  change (aN unit_posterior) with (Fin 1.5). rewrite Hg.
  unfold ret at 1. unfold bind at 1, sampleMVN, bind at 1.
  change (length (muN unit_posterior)) with 2%nat.
  destruct (normals_quarter 0%nat 2%nat 3%nat) as [zs ->].
  unfold ret at 1. unfold bind at 1, ret at 1. unfold ret. eauto.
Qed.

Lemma savingsPosterior_single_sample_throws_witness :
  savingsPosterior quarter_source 1%nat unit_posterior "3PH" (Some (Fin 45)) None
    [mkReading (Fin 30) (Fin 100)] 1%nat = Threw.
Proof.
  destruct draw_one_sample_quarter as (samples & pos' & Hdraw).
  exact (proj1 (savingsPosterior_single_sample_throws _ _ _ _ _ _ _ _ _ Hdraw)).
Defined.

Local Close Scope R_scope.

(** *** Samples that are not all equal *)

(** Sorting *)

Local Open Scope R_scope.




(** Indices *)

Lemma Int_part_IZR (k : Z) : Int_part (IZR k) = k.
Proof. symmetry. apply Int_part_spec. lra. Qed.






(** The histogram *)







Local Close Scope R_scope.

(** *** A scan with finite log marginal likelihoods *)

Local Open Scope R_scope.





Local Close Scope R_scope.

(* ------------------------------------------------------------------ *)
(** * Further properties of the engine *)
(* ------------------------------------------------------------------ *)

(* ================================================================== *)
(** * Further properties of the engine *)
(* ================================================================== *)

(** ** Finite matrices as tables of reals *)

Local Open Scope R_scope.

Lemma ent_fin (A : matrix) r c i j :
  shape r c A -> finite_matrix A -> (i < r)%nat -> (j < c)%nat ->
  (A !!! i) !!! j = Fin (ent A i j).
Proof.
  intros HS HF Hi Hj. apply is_fin_toR, finite_vec_lookup.
  - apply finite_matrix_row; [exact HF|]. destruct HS as [-> _]. exact Hi.
  - rewrite (shape_row r c A i HS Hi). exact Hj.
Qed.

Lemma at_fin (v : vec) i : finite_vec v -> (i < length v)%nat -> v !!! i = Fin (at_ v i).
Proof. intros Hv Hi. apply is_fin_toR, finite_vec_lookup; assumption. Qed.

Lemma finite_matrix_intro r c (A : matrix) :
  shape r c A ->
  (forall i j, (i < r)%nat -> (j < c)%nat -> is_fin ((A !!! i) !!! j)) ->
  finite_matrix A.
Proof.
  intros HS H. apply Forall_lookup. intros i row Hi.
  pose proof (lookup_lt_Some _ _ _ Hi) as Hi'. destruct HS as [HL HR].
  pose proof (shape_row r c A i (conj HL HR) ltac:(lia)) as Hlen.
  apply list_lookup_total_correct in Hi. subst row.
  apply finite_vec_intro. intros j Hj. apply H; lia.
Qed.

Lemma rsum_0 n : rsum n (fun _ => 0) = 0.
Proof. induction n as [|n IH]; simpl; [reflexivity|]. rewrite IH. lra. Qed.

Lemma rsum_plus n f g : rsum n (fun k => f k + g k) = rsum n f + rsum n g.
Proof. induction n as [|n IH]; simpl; [lra|]. rewrite IH. lra. Qed.

Lemma rsum_scal n a f : rsum n (fun k => a * f k) = a * rsum n f.
Proof. induction n as [|n IH]; simpl; [lra|]. rewrite IH. lra. Qed.

Lemma rsum_swap n m (f : nat -> nat -> R) :
  rsum n (fun i => rsum m (fun j => f i j)) = rsum m (fun j => rsum n (fun i => f i j)).
Proof.
  induction n as [|n IH]; simpl; [symmetry; apply rsum_0|].
  rewrite IH, <- rsum_plus. reflexivity.
Qed.

Lemma rsum_S_left n f : rsum (S n) f = f 0%nat + rsum n (fun k => f (S k)).
Proof.
  induction n as [|n IH]; [simpl; lra|].
  change (rsum (S (S n)) f) with (rsum (S n) f + f (S n)).
  rewrite IH. simpl. lra.
Qed.

Lemma rsum_kronecker_r n i (f : nat -> R) :
  (i < n)%nat -> rsum n (fun k => f k * kronecker k i) = f i.
Proof.
  intros Hi. rewrite <- (rsum_kronecker n i f Hi). apply rsum_ext.
  intros k _. unfold kronecker.
  destruct (decide (k = i)), (decide (i = k)); (lra || lia).
Qed.

Lemma rsum_nonneg n f : (forall k, (k < n)%nat -> 0 <= f k) -> 0 <= rsum n f.
Proof.
  induction n as [|n IH]; intros H; simpl; [lra|].
  specialize (IH ltac:(intros; apply H; lia)). specialize (H n ltac:(lia)). lra.
Qed.

(** [reduce] with the accumulation of a dot product *)
Lemma reduce_from_dot (b : vec) : forall (a : vec) (f g : nat -> R) j s,
  (forall i, (i < length a)%nat -> a !!! i = Fin (f i)) ->
  (forall i, (i < length a)%nat -> b !!! (j + i)%nat = Fin (g i)) ->
  reduce_from (fun s ai i => (s + ai * b !!! i)%num) j a (Fin s)
  = Fin (s + rsum (length a) (fun i => f i * g i)).
Proof.
  induction a as [|x a IH]; intros f g j s Ha Hb.
  - simpl. f_equal. lra.
  - cbn [reduce_from length].
    pose proof (Ha 0%nat ltac:(simpl; lia)) as Hx. simpl in Hx. subst x.
    pose proof (Hb 0%nat ltac:(simpl; lia)) as Hb0. rewrite Nat.add_0_r in Hb0.
    rewrite Hb0. cbn [nmul nadd].
    rewrite (IH (fun i => f (S i)) (fun i => g (S i)) (S j) _).
    + rewrite rsum_S_left. f_equal. lra.
    + intros i Hi. apply (Ha (S i)). simpl. lia.
    + intros i Hi. replace (S j + i)%nat with (j + S i)%nat by lia.
      apply Hb. simpl. lia.
Qed.

Lemma vecDot_fin (a b : vec) :
  finite_vec a -> finite_vec b -> (length a <= length b)%nat ->
  vecDot a b = Fin (rsum (length a) (fun i => at_ a i * at_ b i)).
Proof.
  intros Ha Hb Hlen. unfold vecDot, reduce.
  rewrite (reduce_from_dot b a (at_ a) (at_ b) 0 0).
  - f_equal. lra.
  - intros i Hi. apply at_fin; assumption.
  - intros i Hi. apply at_fin; [assumption|simpl; lia].
Qed.

Lemma matVecMul_fin r c (A : matrix) (v : vec) :
  shape r c A -> finite_matrix A -> finite_vec v -> (c <= length v)%nat ->
  length (matVecMul A v) = r
  /\ forall i, (i < r)%nat ->
       matVecMul A v !!! i = Fin (rsum c (fun l => ent A i l * at_ v l)).
Proof.
  intros HS HF Hv Hc. unfold matVecMul. pose proof HS as [HL HR].
  split; [rewrite length_fmap; exact HL|].
  intros i Hi. rewrite (list_lookup_total_fmap (A:=vec) _ A i) by lia.
  change (reduce _ (Fin 0) (A !!! i)) with (vecDot (A !!! i) v).
  pose proof (shape_row r c A i HS Hi) as Hrow.
  rewrite vecDot_fin; [|apply finite_matrix_row; [done|lia]|done|lia].
  rewrite Hrow. reflexivity.
Qed.

Lemma matMul_fin m k n (A B : matrix) :
  shape m k A -> shape k n B -> (0 < k)%nat -> finite_matrix A -> finite_matrix B ->
  shape m n (matMul A B)
  /\ forall i j, (i < m)%nat -> (j < n)%nat ->
       (matMul A B !!! i) !!! j = Fin (rsum k (fun l => ent A i l * ent B l j)).
Proof.
  intros HA HB Hk HFA HFB. unfold matMul.
  pose proof HA as [HLA _]. pose proof HB as [HLB _].
  rewrite HLA, HLB, (shape_row k n B 0 HB Hk).
  split; [apply shape_table|].
  intros i j Hi Hj.
  rewrite (lookup_total_table m n
     (fun i j => foldl (fun c l => (c + (A !!! i) !!! l * (B !!! l) !!! j)%num)
                   (Fin 0) (range 0 k))) by done.
  apply foldl_fin_sum. intros l Hl.
  rewrite (ent_fin A m k i l), (ent_fin B k n l j) by done. reflexivity.
Qed.

Lemma identityMatrix_shape n : shape n n (identityMatrix n).
Proof. apply (shape_table n n (fun i j => if decide (i = j) then Fin 1 else Fin 0)). Qed.

Lemma identityMatrix_entry n i j :
  (i < n)%nat -> (j < n)%nat ->
  (identityMatrix n !!! i) !!! j = Fin (kronecker i j).
Proof.
  intros Hi Hj. unfold identityMatrix.
  rewrite (lookup_total_table n n (fun i j => if decide (i = j) then Fin 1 else Fin 0)) by done.
  unfold kronecker. destruct (decide (i = j)); reflexivity.
Qed.

Lemma identityMatrix_finite n : finite_matrix (identityMatrix n).
Proof.
  apply (finite_matrix_intro n n); [apply identityMatrix_shape|].
  intros i j Hi Hj. rewrite identityMatrix_entry by done. exact I.
Qed.

Lemma ent_identity n i j : (i < n)%nat -> (j < n)%nat -> ent (identityMatrix n) i j = kronecker i j.
Proof. intros Hi Hj. unfold ent. rewrite identityMatrix_entry by done. reflexivity. Qed.

Local Close Scope R_scope.

(** ** Matrix utilities *)

(** X1. On a matrix of [r >= 1] rows and [c >= 1] columns, [matTranspose]
    returns the [c] x [r] matrix whose entry [(j, i)] is entry [(i, j)] of
    the argument, and transposing twice gives the argument back. *)
Theorem matTranspose_involutive (A : matrix) (r c : nat) :
  shape r c A -> 0 < r -> 0 < c ->
  shape c r (matTranspose A)
  /\ (forall i j, i < r -> j < c -> (matTranspose A !!! j) !!! i = (A !!! i) !!! j)
  /\ matTranspose (matTranspose A) = A.
Proof.
  intros HS Hr Hc. pose proof HS as [HL _].
  pose proof (shape_row r c A 0 HS Hr) as H0.
  pose proof (shape_matTranspose A r c HL H0) as HT.
  assert (HE : forall i j, i < r -> j < c -> (matTranspose A !!! j) !!! i = (A !!! i) !!! j).
  { intros i j Hi Hj. apply (matTranspose_entry A r c); assumption. }
  split; [exact HT|]. split; [exact HE|].
  pose proof HT as [HLT _].
  pose proof (shape_row c r _ 0 HT Hc) as HT0.
  apply (matrix_ext r c); [apply shape_matTranspose; assumption|exact HS|].
  intros i j Hi Hj.
  rewrite (matTranspose_entry (matTranspose A) c r) by assumption.
  apply HE; assumption.
Qed.

Lemma matTranspose_involutive_witness :
  matTranspose (matTranspose [[Fin 1; Fin 2; Fin 3]]) = [[Fin 1; Fin 2; Fin 3]].
Proof.
  refine (proj2 (proj2 (matTranspose_involutive [[Fin 1; Fin 2; Fin 3]] 1 3 _ _ _))).
  - split; [reflexivity|]. repeat constructor.
  - lia.
  - lia.
Defined.

Local Open Scope R_scope.

(** X2. The identity matrix is neutral for [matMul] on finite matrices:
    for a finite [r] x [c] matrix [A] with [r, c >= 1], both
    [matMul (identityMatrix r) A] and [matMul A (identityMatrix c)] are
    [A]. *)
Theorem matMul_identity (A : matrix) (r c : nat) :
  shape r c A -> finite_matrix A -> (0 < r)%nat -> (0 < c)%nat ->
  matMul (identityMatrix r) A = A /\ matMul A (identityMatrix c) = A.
Proof.
  intros HS HF Hr Hc. split.
  - destruct (matMul_fin r r c (identityMatrix r) A) as [HSm HEm];
      [apply identityMatrix_shape|exact HS|exact Hr|apply identityMatrix_finite|exact HF|].
    apply (matrix_ext r c); [exact HSm|exact HS|].
    intros i j Hi Hj. rewrite HEm by assumption.
    rewrite (ent_fin A r c i j) by assumption. f_equal.
    rewrite (rsum_ext r _ (fun l => kronecker i l * ent A l j)).
    + apply (rsum_kronecker r i (fun l => ent A l j)). exact Hi.
    + intros l Hl. rewrite ent_identity by assumption. reflexivity.
  - destruct (matMul_fin r c c A (identityMatrix c)) as [HSm HEm];
      [exact HS|apply identityMatrix_shape|exact Hc|exact HF|apply identityMatrix_finite|].
    apply (matrix_ext r c); [exact HSm|exact HS|].
    intros i j Hi Hj. rewrite HEm by assumption.
    rewrite (ent_fin A r c i j) by assumption. f_equal.
    rewrite (rsum_ext c _ (fun l => ent A i l * kronecker l j)).
    + apply (rsum_kronecker_r c j (fun l => ent A i l)). exact Hj.
    + intros l Hl. rewrite ent_identity by assumption. reflexivity.
Qed.

Lemma matMul_identity_witness :
  matMul (identityMatrix 1) [[Fin 2; Fin 3]] = [[Fin 2; Fin 3]]
  /\ matMul [[Fin 2; Fin 3]] (identityMatrix 2) = [[Fin 2; Fin 3]].
Proof.
  apply (matMul_identity [[Fin 2; Fin 3]] 1 2).
  - split; [reflexivity|]. repeat constructor.
  - repeat constructor.
  - lia.
  - lia.
Defined.

Local Close Scope R_scope.

(** *** The dot product *)

Lemma nmul_comm (a b : num) : (a * b)%num = (b * a)%num.
Proof.
  destruct a as [x| | |], b as [y| | |]; simpl; try reflexivity.
  f_equal. apply Rmult_comm.
Qed.

Lemma nadd_comm (a b : num) : (a + b)%num = (b + a)%num.
Proof.
  destruct a as [x| | |], b as [y| | |]; simpl; try reflexivity.
  f_equal. apply Rplus_comm.
Qed.

Lemma nadd_NaN_l (a : num) : (NaN + a)%num = NaN.
Proof. reflexivity. Qed.

Lemma nadd_NaN_r (a : num) : (a + NaN)%num = NaN.
Proof. destruct a; reflexivity. Qed.

Lemma nmul_NaN_r (a : num) : (a * NaN)%num = NaN.
Proof. destruct a; reflexivity. Qed.

Lemma lookup_total_beyond (b : vec) i : length b <= i -> b !!! i = NaN.
Proof.
  intros Hi. rewrite list_lookup_total_alt.
  rewrite (proj2 (lookup_ge_None b i)) by exact Hi. reflexivity.
Qed.

Lemma list_as_table (a : vec) : a = (fun i : nat => a !!! i) <$> seq 0 (length a).
Proof.
  apply list_eq. intros i. rewrite list_lookup_fmap.
  destruct (decide (i < length a)) as [Hi|Hi].
  - rewrite lookup_seq_lt by exact Hi. simpl.
    apply list_lookup_lookup_total_lt. exact Hi.
  - rewrite lookup_seq_ge by lia. simpl. apply lookup_ge_None. lia.
Qed.

(** [vecDot] as a loop over the indices of its first argument *)
Lemma vecDot_foldl (a b : vec) :
  vecDot a b
  = foldl (fun s i => (s + a !!! i * b !!! i)%num) (Fin 0) (range 0 (length a)).
Proof.
  unfold vecDot, reduce, range. rewrite Nat.sub_0_r.
  rewrite (list_as_table a) at 1.
  apply (reduce_from_fmap_seq (fun i => a !!! i) b 0 (length a) (Fin 0)).
Qed.

Lemma foldl_NaN (g : nat -> num) (l : list nat) :
  foldl (fun s i => (s + g i)%num) NaN l = NaN.
Proof. induction l as [|i l IH]; [reflexivity|]. simpl. exact IH. Qed.

(** X3. [vecDot a b] reads the first [length a] entries of [b] and
    nothing else: entries of [b] beyond them do not change the result, and
    when [b] is shorter than [a] the result is NaN.  On vectors of equal
    length it is symmetric, whatever their entries (infinities and NaN
    included). *)
Theorem vecDot_reads_prefix (a b : vec) :
  (length a <= length b -> forall extra, vecDot a (b ++ extra) = vecDot a b)
  /\ (length b < length a -> vecDot a b = NaN)
  /\ (length a = length b -> vecDot a b = vecDot b a).
Proof.
  split; [|split].
  - intros Hlen extra. rewrite !vecDot_foldl. apply foldl_ext_in.
    intros s i Hi. apply elem_of_range in Hi.
    rewrite lookup_total_app_l by lia. reflexivity.
  - intros Hlen. rewrite vecDot_foldl.
    assert (Hsplit : range 0 (length a)
                     = range 0 (length b) ++ length b :: seq (S (length b)) (length a - S (length b))).
    { unfold range. rewrite !Nat.sub_0_r.
      replace (length a) with (length b + S (length a - S (length b))) at 1 by lia.
      rewrite seq_app. reflexivity. }
    rewrite Hsplit, foldl_app. cbn [foldl].
    rewrite (lookup_total_beyond b (length b)) by lia.
    rewrite nmul_NaN_r, nadd_NaN_r.
    apply (foldl_NaN (fun i => (a !!! i * b !!! i)%num)).
  - intros Hlen. rewrite !vecDot_foldl, Hlen. apply foldl_ext_in.
    intros s i _. rewrite nmul_comm. reflexivity.
Qed.

Lemma vecDot_reads_prefix_witness :
  vecDot [Fin 1] ([Fin 2] ++ [Fin 5]) = vecDot [Fin 1] [Fin 2]
  /\ vecDot [Fin 1; Fin 2] [Fin 3] = NaN
  /\ vecDot [Fin 1; PInf] [NaN; Fin 2] = vecDot [NaN; Fin 2] [Fin 1; PInf].
Proof.
  split; [|split].
  - apply (proj1 (vecDot_reads_prefix [Fin 1] [Fin 2])). simpl. lia.
  - apply (proj1 (proj2 (vecDot_reads_prefix [Fin 1; Fin 2] [Fin 3]))). simpl. lia.
  - apply (proj2 (proj2 (vecDot_reads_prefix [Fin 1; PInf] [NaN; Fin 2]))). reflexivity.
Defined.

(** ** Gauss-Jordan elimination returns the two-sided inverse *)

Local Open Scope R_scope.

Lemma rsum_exchange n c m (h : nat -> R) :
  (c < n)%nat -> (m < n)%nat ->
  rsum n (fun k => h (exchange c m k)) = rsum n h.
Proof.
  intros Hc Hm. destruct (decide (c = m)) as [->|Hne].
  - apply rsum_ext. intros k _. unfold exchange.
    destruct (decide (k = m)) as [->|]; reflexivity.
  - rewrite (rsum_ext n _ (fun k => h k + (kronecker m k * (h c - h m)
                                          + kronecker c k * (h m - h c)))).
    + rewrite rsum_plus, rsum_plus.
      rewrite (rsum_kronecker n m (fun _ => h c - h m)) by exact Hm.
      rewrite (rsum_kronecker n c (fun _ => h m - h c)) by exact Hc. lra.
    + intros k _. unfold exchange, kronecker.
      destruct (decide (k = m)) as [->|Hkm].
      * rewrite decide_True by reflexivity. rewrite decide_False by exact Hne. lra.
      * rewrite (decide_False (P := m = k)) by congruence.
        destruct (decide (k = c)) as [->|Hkc].
        -- rewrite decide_True by reflexivity. lra.
        -- rewrite decide_False by congruence. lra.
Qed.

Lemma spans_swap G n a0 a c m :
  length a = n -> (c < n)%nat -> (m < n)%nat -> spans G n a0 a ->
  spans (fun i k => G i (exchange c m k)) n a0 (swap_rows c m a).
Proof.
  intros HL Hc Hm HG i j Hi Hj. rewrite <- (HG i j Hi Hj).
  rewrite <- (rsum_exchange n c m (fun k => G i k * ent a k j) Hc Hm).
  apply rsum_ext. intros k Hk. unfold ent.
  rewrite lookup_total_swap_rows by lia. unfold exchange.
  destruct (decide (k = m)); [reflexivity|].
  destruct (decide (k = c)); reflexivity.
Qed.

Lemma spans_scale G n a0 (a : matrix) c p row' :
  (c < n)%nat -> length a = n -> p <> 0 -> spans G n a0 a ->
  (forall j, (j < 2 * n)%nat -> toR (row' !!! j) = ent a c j / p) ->
  spans (fun i k => if decide (k = c) then G i c * p else G i k) n a0 (<[c := row']> a).
Proof.
  intros Hc HL Hp HG Hrow i j Hi Hj. rewrite <- (HG i j Hi Hj).
  apply rsum_ext. intros k Hk. unfold ent.
  rewrite list_lookup_total_insert.
  destruct (decide (k = c)) as [->|Hkc].
  - rewrite decide_True by (split; [reflexivity|lia]).
    rewrite Hrow by exact Hj. unfold ent. field. exact Hp.
  - rewrite decide_False by (intros [? ?]; congruence). reflexivity.
Qed.

Lemma spans_eliminate G n a0 (a : matrix) c r f row' :
  (c < n)%nat -> (r < n)%nat -> r <> c -> length a = n -> spans G n a0 a ->
  (forall j, (j < 2 * n)%nat -> toR (row' !!! j) = ent a r j - f * ent a c j) ->
  spans (fun i k => if decide (k = c) then G i c + f * G i r else G i k) n a0
        (<[r := row']> a).
Proof.
  intros Hc Hr Hne HL HG Hrow i j Hi Hj. rewrite <- (HG i j Hi Hj).
  rewrite (rsum_ext n _ (fun k => G i k * ent a k j
             + (kronecker c k * (f * G i r * ent a c j)
                + kronecker r k * (- (f * G i r * ent a c j))))).
  - rewrite rsum_plus, rsum_plus.
    rewrite (rsum_kronecker n c (fun _ => f * G i r * ent a c j)) by exact Hc.
    rewrite (rsum_kronecker n r (fun _ => - (f * G i r * ent a c j))) by exact Hr. lra.
  - intros k Hk. unfold ent at 1. rewrite list_lookup_total_insert. unfold kronecker.
    destruct (decide (k = c)) as [->|Hkc].
    + rewrite (decide_False (P := r = c /\ _)) by (intros [? ?]; congruence).
      rewrite (decide_True (P := c = c)) by reflexivity.
      rewrite (decide_False (P := r = c)) by exact Hne. unfold ent. lra.
    + rewrite (decide_False (P := c = k)) by congruence.
      destruct (decide (k = r)) as [->|Hkr].
      * rewrite decide_True by (split; [reflexivity|lia]).
        rewrite (decide_True (P := r = r)) by reflexivity.
        rewrite Hrow by exact Hj. lra.
      * rewrite decide_False by (intros [? ?]; congruence).
        rewrite (decide_False (P := r = k)) by congruence. unfold ent. lra.
Qed.

(** The row loop of one column keeps the rows in relation with [M] and
    keeps a combination that gives back the initial matrix. *)
Lemma eliminate_spans M n col a0 a :
  (col < n)%nat -> length a = n ->
  (forall r, (r < n)%nat -> row_ok M n (a !!! r)) ->
  (exists G, spans G n a0 a) ->
  exists G, spans G n a0 (eliminate a n col).
Proof.
  intros Hcol HL HR HG. unfold eliminate.
  assert (H : forall q, (q <= n)%nat ->
    let a' := foldl (eliminate_row n col) a (range 0 q) in
    length a' = n /\ (forall r, (r < n)%nat -> row_ok M n (a' !!! r))
    /\ exists G, spans G n a0 a').
  { induction q as [|q IH]; intros Hq; cbv zeta; [auto|].
    rewrite range_0_S, foldl_app. simpl.
    destruct IH as (HL' & HR' & [G HG']); [lia|].
    set (a' := foldl (eliminate_row n col) a (range 0 q)) in *.
    unfold eliminate_row. destruct (decide (q = col)) as [->|Hne]; [eauto|].
    pose proof (HR' q ltac:(lia)) as Hq1. pose proof (HR' col Hcol) as Hc1.
    pose proof (row_ok_entry_fin M n (a' !!! q) col Hq1 ltac:(lia)) as Hfq.
    rewrite Hfq.
    destruct (row_ok_eliminate M n (a' !!! q) (a' !!! col) (toR ((a' !!! q) !!! col)) Hq1 Hc1)
      as [Hnew HnewE].
    split; [rewrite length_insert; exact HL'|]. split.
    - intros r Hr. rewrite list_lookup_total_insert.
      destruct (decide (q = r)) as [<-|Hqr].
      + rewrite decide_True by (split; [reflexivity|lia]). exact Hnew.
      + rewrite decide_False by (intros [? ?]; congruence). apply HR'. exact Hr.
    - eexists. apply (spans_eliminate G n a0 a' col q (toR ((a' !!! q) !!! col)));
        [exact Hcol|lia|exact Hne|exact HL'|exact HG'|].
      intros j Hj. rewrite HnewE by exact Hj. reflexivity. }
  destruct (H n (le_n _)) as (_ & _ & HG'). exact HG'.
Qed.

Lemma invert_step_spans M n col a0 a a' :
  (col < n)%nat -> invert_inv M n col a -> (exists G, spans G n a0 a) ->
  invert_step n a col = Some a' -> exists G, spans G n a0 a'.
Proof.
  intros Hcol Hinv [G HG]. unfold invert_step.
  pose proof (find_pivot_range a n col Hcol) as Hmr.
  pose proof (invert_inv_swap M n col _ a Hinv Hmr) as [HL HR].
  pose proof (spans_swap G n a0 a col (find_pivot a n col)
                (proj1 Hinv) Hcol ltac:(lia) HG) as HGs.
  set (b := swap_rows col (find_pivot a n col) a) in *.
  destruct (HR col Hcol) as [Hrow Hunit].
  destruct (_ <? _)%num eqn:Hpiv; [discriminate|].
  intros [= <-].
  assert (Hp : toR ((b !!! col) !!! col) <> 0).
  { apply pivot_nonzero; [|exact Hpiv].
    rewrite (row_ok_entry_fin M n _ col Hrow) by lia. exact I. }
  unfold scale_pivot_row.
  pose proof (row_ok_entry_fin M n _ col Hrow ltac:(lia)) as Hpv.
  set (p := toR ((b !!! col) !!! col)) in *. rewrite Hpv.
  destruct (row_ok_scale M n (b !!! col) p Hrow Hp) as [Hs HsE].
  apply (eliminate_spans M); [exact Hcol|rewrite length_insert; exact HL| |].
  - intros r Hr. rewrite list_lookup_total_insert.
    destruct (decide (col = r)) as [<-|Hne].
    + rewrite decide_True by (split; [reflexivity|lia]). exact Hs.
    + rewrite decide_False by (intros [? ?]; congruence). apply HR. exact Hr.
  - eexists. apply (spans_scale (fun i k => G i (exchange col (find_pivot a n col) k))
                            n a0 b col p); [exact Hcol|exact HL|exact Hp|exact HGs|].
    intros j Hj. rewrite HsE by exact Hj. reflexivity.
Qed.

Lemma invert_loop_spans M n a0 k : forall c a a',
  (c + k = n)%nat -> invert_inv M n c a -> (exists G, spans G n a0 a) ->
  invert_loop n (seq c k) a = Some a' -> exists G, spans G n a0 a'.
Proof.
  induction k as [|k IH]; intros c a a' Hck Hinv HG Hloop.
  - simpl in Hloop. injection Hloop as <-. exact HG.
  - simpl in Hloop. destruct (invert_step n a c) as [a1|] eqn:Hstep; [|discriminate].
    apply (IH (S c) a1 a'); [lia| | |exact Hloop].
    + apply (invert_step_inv M n c a a1); [lia|exact Hinv|exact Hstep].
    + apply (invert_step_spans M n c a0 a a1); [lia|exact Hinv|exact HG|exact Hstep].
Qed.

Lemma augment_row M n r :
  length M = n -> (r < n)%nat ->
  augment M !!! r
  = M !!! r ++ ((fun j : nat => if decide (r = j) then Fin 1 else Fin 0) <$> range 0 n).
Proof.
  intros HL Hr. unfold augment. rewrite HL.
  apply list_lookup_total_correct. rewrite list_lookup_imap.
  rewrite (list_lookup_lookup_total_lt M r) by lia. reflexivity.
Qed.

Lemma ent_augment_left M n i j :
  shape n n M -> (i < n)%nat -> (j < n)%nat -> ent (augment M) i j = ent M i j.
Proof.
  intros HS Hi Hj. unfold ent. rewrite (augment_row M n i) by (apply HS || exact Hi).
  rewrite lookup_total_app_l by (rewrite (shape_row n n M i HS Hi); exact Hj).
  reflexivity.
Qed.

Lemma ent_augment_right M n i j :
  shape n n M -> (i < n)%nat -> (j < n)%nat ->
  ent (augment M) i (n + j) = kronecker i j.
Proof.
  intros HS Hi Hj. unfold ent. rewrite (augment_row M n i) by (apply HS || exact Hi).
  rewrite lookup_total_app_r by (rewrite (shape_row n n M i HS Hi); lia).
  rewrite (shape_row n n M i HS Hi).
  replace (n + j - n)%nat with j by lia.
  rewrite lookup_total_fmap_range by exact Hj. unfold kronecker.
  destruct (decide (i = j)); reflexivity.
Qed.

(** On a finite square matrix, a successful [matInvert] returns a right
    inverse too. *)
Lemma matInvert_right_inverse M n B :
  shape n n M -> finite_matrix M -> (0 < n)%nat -> matInvert M = Some B ->
  matMul M B = identityMatrix n.
Proof.
  intros HS HF Hn HB.
  destruct (matInvert_left_inverse M n B HS HF HB) as (HSB & HFB & _).
  pose proof HS as [HL _]. unfold matInvert in HB. rewrite HL in HB.
  destruct (invert_loop n (range 0 n) (augment M)) as [a|] eqn:Hloop; [|discriminate].
  injection HB as <-.
  unfold range in Hloop. rewrite Nat.sub_0_r in Hloop.
  assert (Hinv : invert_inv M n n a).
  { apply (invert_loop_inv M n n 0 (augment M) a); [lia|apply augment_inv; assumption|exact Hloop]. }
  assert (HG : exists G, spans G n (augment M) a).
  { apply (invert_loop_spans M n (augment M) n 0 (augment M) a);
      [lia|apply augment_inv; assumption| |exact Hloop].
    exists kronecker. intros i j Hi Hj.
    apply (rsum_kronecker n i (fun k => ent (augment M) k j)). exact Hi. }
  destruct HG as [G HG]. destruct Hinv as [HLa HRa].
  assert (HGM : forall i k, (i < n)%nat -> (k < n)%nat -> G i k = ent M i k).
  { intros i k Hi Hk. rewrite <- (ent_augment_left M n i k HS Hi Hk).
    rewrite <- (HG i k Hi ltac:(lia)).
    rewrite (rsum_ext n _ (fun l => G i l * kronecker l k)).
    - symmetry. apply (rsum_kronecker_r n k (fun l => G i l)). exact Hk.
    - intros l Hl. destruct (HRa l Hl) as [_ HU]. unfold ent. rewrite (HU k Hk). reflexivity. }
  assert (HentB : forall k j, (k < n)%nat -> (j < n)%nat ->
            ent (drop n <$> a) k j = ent a k (n + j)).
  { intros k j Hk Hj. unfold ent.
    rewrite (list_lookup_total_fmap (A:=vec) _ a k) by lia.
    rewrite lookup_total_drop. reflexivity. }
  destruct (matMul_fin n n n M (drop n <$> a) HS HSB Hn HF HFB) as [HSm HEm].
  apply (matrix_ext n n); [exact HSm|apply identityMatrix_shape|].
  intros i j Hi Hj. rewrite HEm, identityMatrix_entry by assumption. f_equal.
  rewrite <- (ent_augment_right M n i j HS Hi Hj).
  rewrite <- (HG i (n + j)%nat Hi ltac:(lia)).
  apply rsum_ext. intros k Hk. rewrite HGM, HentB by assumption. reflexivity.
Qed.

(** X4. Whenever [matInvert] returns a matrix for a finite [n] x [n]
    matrix [M] ([n >= 1]), that matrix is finite, [n] x [n], and a
    two-sided inverse: both products with [M], formed by [matMul], are the
    identity matrix. *)
Theorem matInvert_two_sided (M B : matrix) (n : nat) :
  shape n n M -> finite_matrix M -> (0 < n)%nat -> matInvert M = Some B ->
  shape n n B /\ finite_matrix B
  /\ matMul B M = identityMatrix n /\ matMul M B = identityMatrix n.
Proof.
  intros HS HF Hn HB.
  destruct (matInvert_left_inverse M n B HS HF HB) as (HSB & HFB & Hleft).
  repeat split; try assumption; try apply HSB.
  apply (matInvert_right_inverse M n B); assumption.
Qed.

Local Close Scope R_scope.

Local Open Scope R_scope.

Lemma matInvert_two_sided_witness :
  matMul [[Fin (1 / 2)]] [[Fin 2]] = identityMatrix 1
  /\ matMul [[Fin 2]] [[Fin (1 / 2)]] = identityMatrix 1.
Proof.
  refine (proj2 (proj2 (matInvert_two_sided [[Fin 2]] [[Fin (1 / 2)]] 1 _ _ _ _))).
  - split; [reflexivity|]. repeat constructor.
  - repeat constructor.
  - lia.
  - rewrite matInvert_1x1. rewrite bool_decide_eq_false_2 by real_side. reflexivity.
Defined.

(** The entries of a product that is the identity *)
Lemma identity_product_entries (B M : matrix) n :
  shape n n B -> shape n n M -> finite_matrix B -> finite_matrix M -> (0 < n)%nat ->
  matMul B M = identityMatrix n ->
  forall i j, (i < n)%nat -> (j < n)%nat ->
    rsum n (fun k => ent B i k * ent M k j) = kronecker i j.
Proof.
  intros HSB HSM HFB HFM Hn Hprod i j Hi Hj.
  destruct (matMul_fin n n n B M HSB HSM Hn HFB HFM) as [_ HE].
  specialize (HE i j Hi Hj). rewrite Hprod, identityMatrix_entry in HE by assumption.
  injection HE as HE. symmetry. exact HE.
Qed.



(** *** Determinant and inverse *)






Local Close Scope R_scope.

Local Open Scope R_scope.




Local Close Scope R_scope.

(** ** Student-t quantiles *)

Local Open Scope R_scope.

Lemma midpoint_fin (lo hi : R) : ((Fin lo + Fin hi) / Fin 2)%num = Fin ((lo + hi) / 2).
Proof. cbn [nadd ndiv]. rewrite decide_False by lra. reflexivity. Qed.

(** The bisection keeps its bracket inside the initial one. *)
Lemma bisect_bracket (p nu mu scale : num) : forall iters (lo hi : R),
  lo <= hi ->
  exists lo' hi', bisect iters p nu mu scale (Fin lo) (Fin hi) = (Fin lo', Fin hi')
    /\ lo <= lo' /\ lo' <= hi' /\ hi' <= hi.
Proof.
  induction iters as [|k IH]; intros lo hi Hle.
  - exists lo, hi. repeat split; (reflexivity || lra).
  - cbn [bisect]. rewrite midpoint_fin.
    destruct (studentTCDF (Fin ((lo + hi) / 2)) nu mu scale <? p)%num.
    + destruct (IH ((lo + hi) / 2) hi ltac:(lra)) as (lo' & hi' & -> & H1 & H2 & H3).
      exists lo', hi'. repeat split; (reflexivity || lra).
    + destruct (IH lo ((lo + hi) / 2) ltac:(lra)) as (lo' & hi' & -> & H1 & H2 & H3).
      exists lo', hi'. repeat split; (reflexivity || lra).
Qed.

Lemma nlt_le_trans (c : num) (p p' : R) : p <= p' -> (c <? Fin p)%num = true -> (c <? Fin p')%num = true.
Proof.
  intros Hp. destruct c as [x| | |]; simpl; try (intros; assumption).
  intros H. apply bool_decide_eq_true in H. apply bool_decide_eq_true. lra.
Qed.

(** Two bisections from the same bracket, for probabilities [p <= p']:
    the brackets stay equal or the one of [p] ends below the one of [p']. *)
Lemma bisect_ordered (p p' : R) (nu mu scale : num) : p <= p' ->
  forall iters (lo hi : R), lo <= hi ->
  exists l1 h1 l2 h2,
    bisect iters (Fin p) nu mu scale (Fin lo) (Fin hi) = (Fin l1, Fin h1)
    /\ bisect iters (Fin p') nu mu scale (Fin lo) (Fin hi) = (Fin l2, Fin h2)
    /\ l1 + h1 <= l2 + h2.
Proof.
  intros Hp. induction iters as [|k IH]; intros lo hi Hle.
  - exists lo, hi, lo, hi. repeat split; (reflexivity || lra).
  - cbn [bisect]. rewrite midpoint_fin.
    destruct (studentTCDF (Fin ((lo + hi) / 2)) nu mu scale <? Fin p)%num eqn:H1.
    + rewrite (nlt_le_trans _ p p' Hp H1). apply IH. lra.
    + destruct (studentTCDF (Fin ((lo + hi) / 2)) nu mu scale <? Fin p')%num.
      * destruct (bisect_bracket (Fin p) nu mu scale k lo ((lo + hi) / 2) ltac:(lra))
          as (l1 & h1 & -> & ? & ? & ?).
        destruct (bisect_bracket (Fin p') nu mu scale k ((lo + hi) / 2) hi ltac:(lra))
          as (l2 & h2 & -> & ? & ? & ?).
        exists l1, h1, l2, h2. repeat split; (reflexivity || lra).
      * apply IH. lra.
Qed.

Lemma studentTQuantile_inner (p : R) (nu mu scale : num) :
  0 < p < 1 -> p <> 0.5 ->
  studentTQuantile (Fin p) nu mu scale
  = (let '(lo, hi) := bisect 80 (Fin p) nu mu scale
                        (mu - Fin 50 * scale)%num (mu + Fin 50 * scale)%num in
     ((lo + hi) / Fin 2)%num).
Proof.
  intros Hp Hhalf. unfold studentTQuantile. cbn [nle neqb].
  rewrite !bool_decide_eq_false_2 by lra. reflexivity.
Qed.



Lemma studentTQuantile_cases (p : R) (nu : num) (mu s : R) :
  p <> 0.5 -> 0 <= s ->
  (p <= 0 /\ studentTQuantile (Fin p) nu (Fin mu) (Fin s) = NInf)
  \/ (1 <= p /\ studentTQuantile (Fin p) nu (Fin mu) (Fin s) = PInf)
  \/ (0 < p < 1 /\ exists q, studentTQuantile (Fin p) nu (Fin mu) (Fin s) = Fin q).
Proof.
  intros Hhalf Hs.
  destruct (Rle_dec p 0) as [H0|H0].
  { left. split; [exact H0|]. unfold studentTQuantile. cbn [nle].
    rewrite bool_decide_eq_true_2 by exact H0. reflexivity. }
  destruct (Rle_dec 1 p) as [H1|H1].
  { right. left. split; [exact H1|]. unfold studentTQuantile. cbn [nle].
    rewrite bool_decide_eq_false_2 by exact H0.
    rewrite bool_decide_eq_true_2 by exact H1. reflexivity. }
  right. right. split; [lra|].
  assert (Hp : 0 < p < 1) by lra.
  rewrite studentTQuantile_inner by assumption.
  unfold nsub. cbn [nmul nneg nadd].
  destruct (bisect_bracket (Fin p) nu (Fin mu) (Fin s) 80 (mu + - (50 * s)) (mu + 50 * s)
              ltac:(lra)) as (lo & hi & -> & _).
  rewrite midpoint_fin. eexists. reflexivity.
Qed.

(** Quantiles at increasing probabilities, none of them 0.5 *)
Lemma quantiles_ordered (p p' : R) (nu : num) (mu s : R) :
  p <= p' -> p <> 0.5 -> p' <> 0.5 -> 0 <= s ->
  (studentTQuantile (Fin p) nu (Fin mu) (Fin s)
   <=? studentTQuantile (Fin p') nu (Fin mu) (Fin s))%num = true.
Proof.
  intros Hpp Hh Hh' Hs.
  destruct (studentTQuantile_cases p nu mu s Hh Hs)
    as [[H0 ->]|[[H1 ->]|[Hin [q Hq]]]];
  destruct (studentTQuantile_cases p' nu mu s Hh' Hs)
    as [[H0' ->]|[[H1' ->]|[Hin' [q' Hq']]]];
  try reflexivity; try lra.
  - rewrite Hq'. reflexivity.
  - rewrite Hq. reflexivity.
  - rewrite !studentTQuantile_inner by assumption.
    unfold nsub. cbn [nmul nneg nadd].
    destruct (bisect_ordered p p' nu (Fin mu) (Fin s) Hpp 80
                (mu + - (50 * s)) (mu + 50 * s) ltac:(lra))
      as (l1 & h1 & l2 & h2 & -> & -> & Hle).
    rewrite !midpoint_fin. cbn [nle]. apply bool_decide_eq_true. lra.
Qed.



(** ** Densities *)

(** X9. At its location the Student-t distribution function is one
    half: [studentTCDF mu nu mu scale] is 0.5 for a finite location, a
    finite non-zero scale and a finite non-zero [nu]. *)
Theorem studentTCDF_at_location (mu nu s : R) :
  s <> 0 -> nu <> 0 ->
  studentTCDF (Fin mu) (Fin nu) (Fin mu) (Fin s) = Fin 0.5.
Proof.
  intros Hs Hnu. unfold studentTCDF, nsub. cbn [nneg nadd ndiv].
  rewrite (decide_False (P := s = 0)) by exact Hs. cbn [nmul nadd ndiv].
  assert (Hz : (mu + - mu) / s = 0) by (unfold Rdiv; lra).
  rewrite Hz. 
  rewrite (decide_False (P := nu + 0 * 0 = 0)) by lra.
  cbn [nle]. rewrite bool_decide_eq_true_2 by lra.
  unfold regIncBeta. cbn [nle].
  assert (Ht : nu / (nu + 0 * 0) = 1) by (field; lra).
  rewrite Ht.
  rewrite bool_decide_eq_false_2 by lra. rewrite bool_decide_eq_true_2 by lra.
  cbn [nmul nneg nadd]. f_equal. lra.
Qed.

Lemma studentTCDF_at_location_witness :
  studentTCDF (Fin 10) (Fin 3) (Fin 10) (Fin 2) = Fin 0.5.
Proof. apply studentTCDF_at_location; lra. Defined.

Lemma ndiv_square_even (d : R) (scale : num) :
  (Fin d / scale * (Fin d / scale))%num = (Fin (- d) / scale * (Fin (- d) / scale))%num.
Proof.
  destruct scale as [s| | |]; cbn [ndiv]; try reflexivity.
  destruct (decide (s = 0)) as [Hs|Hs].
  - unfold by_sign.
    destruct (decide (0 < d)) as [Hd|Hd].
    + rewrite (decide_False (P := 0 < - d)) by lra.
      rewrite (decide_True (P := - d < 0)) by lra. reflexivity.
    + destruct (decide (d < 0)) as [Hd'|Hd'].
      * rewrite (decide_True (P := 0 < - d)) by lra. reflexivity.
      * rewrite (decide_False (P := 0 < - d)) by lra.
        rewrite (decide_False (P := - d < 0)) by lra. reflexivity.
  - cbn [nmul]. f_equal. field. exact Hs.
Qed.

Lemma Math_exp_not_negative (a : num) : (Math_exp a <? Fin 0)%num = false.
Proof.
  destruct a as [x| | |]; simpl; try reflexivity.
  - apply bool_decide_eq_false_2. pose proof (exp_pos x). lra.
  - apply bool_decide_eq_false_2. lra.
Qed.

(** X10. The Student-t density is symmetric about its location and never
    negative: at [mu + d] and at [mu - d] [studentTPDF] returns the same
    value, for every degrees-of-freedom and scale argument, and it returns
    no number below zero for any arguments. *)
Theorem studentTPDF_symmetric (mu d : R) (x nu loc scale : num) :
  studentTPDF (Fin (mu + d)) nu (Fin mu) scale
  = studentTPDF (Fin (mu - d)) nu (Fin mu) scale
  /\ (studentTPDF x nu loc scale <? Fin 0)%num = false.
Proof.
  split.
  - unfold studentTPDF, nsub. cbn [nneg nadd].
    replace (mu + d + - mu) with d by lra.
    replace (mu - d + - mu) with (- d) by lra.
    rewrite (ndiv_square_even d scale). reflexivity.
  - unfold studentTPDF. apply Math_exp_not_negative.
Qed.

Local Close Scope R_scope.

(** ** The design matrix and the regressor rows *)

Local Open Scope R_scope.

Lemma hinge_fin (x : R) : Math_max [Fin 0; Fin x] = Fin (Rmax 0 x).
Proof.
  unfold Math_max. cbn [foldl Math_max2 nlt]. unfold Rmax.
  case_bool_decide as H; destruct (Rle_dec 0 x) as [H'|H']; try reflexivity.
  - exfalso. lra.
  - f_equal. lra.
Qed.

(** X11. The regressor row that [savingsPosterior] and
    [posteriorPredictiveFan] build at a temperature is the row that
    [buildDesignMatrix] builds for it: the design matrix is that row for
    each temperature, every row starts with 1, and the rows have 3 entries
    for "5P" and 2 otherwise.  On finite temperatures and change points the
    change-point regressors are hinge functions -- [max(0, cp1 - t)] for
    "3PH", [max(0, t - cp1)] for "3PC", both [max(0, cp1 - t)] and
    [max(0, t - cp2)] for "5P" -- so no regressor is ever negative. *)
Theorem buildDesignMatrix_rows (temps : vec) (modelType : string) (cp1 cp2 : option num)
    (ts : list R) (c1 c2 : R) :
  buildDesignMatrix temps modelType cp1 cp2 = xStar_of modelType cp1 cp2 <$> temps
  /\ shape (length temps) (if decide (modelType = "5P") then 3 else 2)
           (buildDesignMatrix temps modelType cp1 cp2)
  /\ Forall (fun row : vec => row !! 0%nat = Some (Fin 1))
            (buildDesignMatrix temps modelType cp1 cp2)
  /\ buildDesignMatrix (Fin <$> ts) "3PH" (Some (Fin c1)) cp2
     = (fun t => [Fin 1; Fin (Rmax 0 (c1 - t))]) <$> ts
  /\ buildDesignMatrix (Fin <$> ts) "3PC" (Some (Fin c1)) cp2
     = (fun t => [Fin 1; Fin (Rmax 0 (t - c1))]) <$> ts
  /\ buildDesignMatrix (Fin <$> ts) "5P" (Some (Fin c1)) (Some (Fin c2))
     = (fun t => [Fin 1; Fin (Rmax 0 (c1 - t)); Fin (Rmax 0 (t - c2))]) <$> ts.
Proof.
  assert (Heq : buildDesignMatrix temps modelType cp1 cp2
                = xStar_of modelType cp1 cp2 <$> temps).
  { unfold buildDesignMatrix, xStar_of.
    destruct (decide (modelType = "3PH")); [reflexivity|].
    destruct (decide (modelType = "3PC")); [reflexivity|].
    destruct (decide (modelType = "5P")); reflexivity. }
  split; [exact Heq|]. rewrite Heq. split; [split|]; [| |split].
  - apply length_fmap.
  - apply Forall_fmap, Forall_forall. intros t _. unfold xStar_of. simpl.
    destruct (decide (modelType = "3PH")) as [->|]; [reflexivity|].
    destruct (decide (modelType = "3PC")) as [->|]; [reflexivity|].
    destruct (decide (modelType = "5P")); reflexivity.
  - apply Forall_fmap, Forall_forall. intros t _. unfold xStar_of. simpl.
    destruct (decide (modelType = "3PH")); [reflexivity|].
    destruct (decide (modelType = "3PC")); [reflexivity|].
    destruct (decide (modelType = "5P")); reflexivity.
  - unfold buildDesignMatrix.
    rewrite (decide_True (P := "3PH" = "3PH")) by reflexivity.
    rewrite (decide_False (P := "3PC" = "3PH")) by discriminate.
    rewrite (decide_True (P := "3PC" = "3PC")) by reflexivity.
    rewrite (decide_False (P := "5P" = "3PH")) by discriminate.
    rewrite (decide_False (P := "5P" = "3PC")) by discriminate.
    rewrite (decide_True (P := "5P" = "5P")) by reflexivity.
    rewrite <- !list_fmap_compose.
    repeat split; apply list_fmap_ext; intros i t _;
      cbn [compose null_to_num default from_option]; unfold Datatypes.id, nsub;
      cbn [nneg nadd]; rewrite !hinge_fin; reflexivity.
Qed.

Local Close Scope R_scope.

(** ** Prior parameters *)

(** X12. [buildPriorParams] returns the prior precision [strength * I]:
    for a finite strength the matrix is [p] x [p] with [strength] on the
    diagonal and 0 elsewhere.  The prior mean has two entries when [p] is
    2 and three otherwise, and its third entry is [slope] whenever
    [slope2] is absent, zero or NaN. *)
Theorem buildPriorParams_prior (priors : Priors) (p : nat) (lambda : R) :
  strength priors = Fin lambda ->
  let '(mu0, Lambda0, a0, b0) := buildPriorParams priors p in
  shape p p Lambda0
  /\ (forall i j, i < p -> j < p ->
        (Lambda0 !!! i) !!! j = Fin (kronecker i j * lambda))
  /\ a0 = noiseA priors /\ b0 = noiseB priors
  /\ (p = 2 -> mu0 = [baseload priors; slope priors])
  /\ (p <> 2 -> exists third, mu0 = [baseload priors; slope priors; third]
        /\ ((slope2 priors = None \/ slope2 priors = Some (Fin 0)
             \/ slope2 priors = Some NaN) -> third = slope priors)).
Proof.
  intros Hlam. unfold buildPriorParams. rewrite Hlam.
  assert (Htab : (fun row : vec => (fun v : num => (v * Fin lambda)%num) <$> row)
                 <$> identityMatrix p
                 = (fun i : nat => (fun j : nat => Fin (kronecker i j * lambda)) <$> range 0 p)
                   <$> range 0 p).
  { unfold identityMatrix. rewrite <- list_fmap_compose.
    apply list_fmap_ext. intros _ i _. cbn [compose].
    rewrite <- list_fmap_compose. apply list_fmap_ext. intros _ j _. cbn [compose].
    unfold kronecker. destruct (decide (i = j)); reflexivity. }
  rewrite Htab. split; [apply shape_table|]. split.
  { intros i j Hi Hj.
    apply (lookup_total_table p p (fun i j => Fin (kronecker i j * lambda))); assumption. }
  split; [reflexivity|]. split; [reflexivity|]. split.
  - intros ->. reflexivity.
  - intros Hp. rewrite decide_False by exact Hp. eexists. split; [reflexivity|].
    intros [-> |[-> | ->]]; cbn [or_else truthy]; [reflexivity| |reflexivity].
    rewrite bool_decide_eq_true_2 by reflexivity. reflexivity.
Qed.

Lemma buildPriorParams_prior_witness :
  let '(mu0, Lambda0, a0, b0) :=
    buildPriorParams (mkPriors (Fin 1) (Fin 2) (Some (Fin 0)) (Fin 4) (Fin 3) (Fin 5)) 3 in
  shape 3 3 Lambda0
  /\ (forall i j, i < 3 -> j < 3 -> (Lambda0 !!! i) !!! j = Fin (kronecker i j * 4))
  /\ a0 = Fin 3 /\ b0 = Fin 5
  /\ (3 = 2 -> mu0 = [Fin 1; Fin 2])
  /\ (3 <> 2 -> exists third, mu0 = [Fin 1; Fin 2; third]
        /\ ((Some (Fin 0) = @None num \/ Some (Fin 0) = Some (Fin 0)
             \/ Some (Fin 0) = Some NaN) -> third = Fin 2)).
Proof.
  exact (buildPriorParams_prior
           (mkPriors (Fin 1) (Fin 2) (Some (Fin 0)) (Fin 4) (Fin 3) (Fin 5)) 3 4 eq_refl).
Defined.

(** ** The OLS comparison *)

(** X13. The OLS figures that [bayesianRegression] reports are those of
    [fitOLS] on the same data: when both return a result, [betaOLS], [R2]
    and [cvRMSE_OLS] of the posterior are [beta], [R2] and [cvRMSE] of the
    OLS fit; when [fitOLS] returns [null], [betaOLS] is the posterior mean
    [muN]. *)
Theorem bayesianRegression_OLS_agrees (X : matrix) (y mu0 : vec) (Lambda0 : matrix)
    (a0 b0 : num) (post : Posterior) :
  bayesianRegression X y mu0 Lambda0 a0 b0 = Some post ->
  match fitOLS X y with
  | Some r =>
      betaOLS post = beta r /\ R2 post = fit_R2 r /\ cvRMSE_OLS post = cvRMSE r
  | None => betaOLS post = muN post
  end.
Proof.
  unfold bayesianRegression, fitOLS.
  destruct (matInvert (matAdd Lambda0 _)) as [Linv|]; [|discriminate].
  intros [= <-]. cbn [betaOLS R2 cvRMSE_OLS muN].
  destruct (matInvert (accumulate_XtX X (length y) (length (X !!! 0)))) as [inv|].
  - cbn [beta fit_R2 cvRMSE]. repeat split.
  - reflexivity.
Qed.

Lemma bayesianRegression_OLS_agrees_witness :
  exists post,
    bayesianRegression [[Fin 1]] [Fin 0] [Fin 0] [[Fin 1]] (Fin 1) (Fin 1) = Some post
    /\ match fitOLS [[Fin 1]] [Fin 0] with
       | Some r =>
           betaOLS post = beta r /\ R2 post = fit_R2 r /\ cvRMSE_OLS post = cvRMSE r
       | None => betaOLS post = muN post
       end.
Proof.
  destruct fit_one_observation as (post & Hpost & _).
  exists post. split; [exact Hpost|].
  exact (bayesianRegression_OLS_agrees _ _ _ _ _ _ post Hpost).
Defined.

(** ** Ordinary least squares *)

Local Open Scope R_scope.

Lemma foldl_list_sum (h : num -> num) (l : vec) (H : nat -> R) :
  (forall i, (i < length l)%nat -> h (l !!! i) = Fin (H i)) ->
  foldl (fun s x => (s + h x)%num) (Fin 0) l = Fin (rsum (length l) H).
Proof.
  induction l as [|x l IH] using rev_ind; intros Hh; [reflexivity|].
  rewrite foldl_app, length_app, Nat.add_1_r. cbn [foldl rsum].
  rewrite IH.
  - specialize (Hh (length l)). rewrite lookup_total_app_r, Nat.sub_diag in Hh by lia.
    cbn in Hh. rewrite Hh by (rewrite length_app; simpl; lia). reflexivity.
  - intros i Hi. rewrite <- (Hh i) by (rewrite length_app; simpl; lia).
    rewrite lookup_total_app_l by exact Hi. reflexivity.
Qed.

Lemma foldl_nadd_sum (l : vec) :
  finite_vec l -> foldl nadd (Fin 0) l = Fin (rsum (length l) (at_ l)).
Proof.
  intros Hl. apply (foldl_list_sum (fun x => x) l (at_ l)).
  intros i Hi. apply at_fin; assumption.
Qed.

Lemma Math_pow_2 (x : R) : Math_pow (Fin x) (Fin 2) = Fin (x * x).
Proof.
  unfold Math_pow. rewrite decide_False by lra.
  assert (Hint : is_int 2 = true).
  { unfold is_int. apply bool_decide_eq_true. rewrite (Int_part_IZR 2). reflexivity. }
  assert (Hodd : is_odd_int 2 = false).
  { unfold is_odd_int. rewrite Hint, (Int_part_IZR 2). reflexivity. }
  assert (Hpow : forall z, 0 < z -> Rpower z 2 = z * z).
  { intros z Hz. replace 2 with (INR 2) by (simpl; lra).
    rewrite Rpower_pow by exact Hz. simpl. lra. }
  destruct (decide (0 < x)) as [Hpos|Hnpos]; [rewrite Hpow by exact Hpos; reflexivity|].
  destruct (decide (x = 0)) as [->|Hne].
  - rewrite decide_True by lra. f_equal. lra.
  - rewrite Hint, Hodd. rewrite Hpow by lra. f_equal. lra.
Qed.

Lemma gram_entry_real X n p j k :
  shape n p X -> finite_matrix X -> (j < p)%nat -> (k < p)%nat ->
  gram_entry X n j k = Fin (gram X n j k).
Proof.
  intros HS HF Hj Hk. unfold gram_entry, gram. apply foldl_fin_sum.
  intros i Hi. rewrite !(ent_fin X n p) by assumption. reflexivity.
Qed.

Lemma moment_entry_real X y n p j :
  shape n p X -> finite_matrix X -> length y = n -> finite_vec y -> (j < p)%nat ->
  moment_entry X y n j = Fin (moment X y n j).
Proof.
  intros HS HF Hlen Hy Hj. unfold moment_entry, moment.
  apply (foldl_fin_sum (fun i => ((X !!! i) !!! j * y !!! i)%num)).
  intros i Hi. rewrite (ent_fin X n p), (at_fin y i) by (assumption || lia). reflexivity.
Qed.

Lemma accumulate_XtX_real X n p :
  shape n p X -> finite_matrix X ->
  shape p p (accumulate_XtX X n p) /\ finite_matrix (accumulate_XtX X n p)
  /\ forall j k, (j < p)%nat -> (k < p)%nat -> ent (accumulate_XtX X n p) j k = gram X n j k.
Proof.
  intros HS HF. destruct (accumulate_XtX_spec X n p) as [HSa HE].
  split; [exact HSa|]. split.
  - apply (finite_matrix_intro p p); [exact HSa|]. intros j k Hj Hk.
    rewrite HE, (gram_entry_real X n p) by assumption. exact I.
  - intros j k Hj Hk. unfold ent.
    rewrite HE, (gram_entry_real X n p) by assumption. reflexivity.
Qed.

Lemma accumulate_Xty_real X y n p :
  shape n p X -> finite_matrix X -> length y = n -> finite_vec y ->
  length (accumulate_Xty X y n p) = p /\ finite_vec (accumulate_Xty X y n p)
  /\ forall j, (j < p)%nat -> at_ (accumulate_Xty X y n p) j = moment X y n j.
Proof.
  intros HS HF Hlen Hy. destruct (accumulate_Xty_spec X y n p) as [HL HE].
  split; [exact HL|]. split.
  - apply finite_vec_intro. intros j Hj. rewrite HL in Hj.
    rewrite HE, (moment_entry_real X y n p) by assumption. exact I.
  - intros j Hj. unfold at_.
    rewrite HE, (moment_entry_real X y n p) by assumption. reflexivity.
Qed.

(** What [fitOLS] returns on finite data, in real numbers *)
Lemma fitOLS_real X y n p r :
  shape n p X -> finite_matrix X -> length y = n -> finite_vec y ->
  (0 < n)%nat -> (0 < p)%nat -> fitOLS X y = Some r ->
  length (beta r) = p /\ finite_vec (beta r)
  /\ (forall j, (j < p)%nat ->
        rsum p (fun k => gram X n j k * at_ (beta r) k) = moment X y n j)
  /\ length (residuals r) = n /\ finite_vec (residuals r)
  /\ (forall i, (i < n)%nat -> at_ (residuals r) i = at_ y i - fitted X (beta r) p i)
  /\ fit_R2 r
     = (Fin 1 - Fin (rsum n (fun i => (at_ (residuals r) i * at_ (residuals r) i)%R))
                / Fin (rsum n (fun i => ((at_ y i - rsum n (at_ y) / INR n)
                                         * (at_ y i - rsum n (at_ y) / INR n))%R)))%num
  /\ NMBE r
     = (Fin (rsum n (at_ (residuals r)))
        / ((of_nat n - of_nat p) * Fin (rsum n (at_ y) / INR n)) * Fin 100)%num.
Proof.
  intros HS HF Hlen Hy Hn Hp. unfold fitOLS.
  rewrite Hlen, (shape_row n p X 0 HS Hn).
  destruct (accumulate_XtX_real X n p HS HF) as (HSM & HFM & HM).
  destruct (accumulate_Xty_real X y n p HS HF Hlen Hy) as (HLc & HFc & Hc).
  destruct (matInvert (accumulate_XtX X n p)) as [inv|] eqn:Hinv; [|discriminate].
  destruct (matInvert_left_inverse _ p inv HSM HFM Hinv) as (HSI & HFI & _).
  pose proof (matInvert_right_inverse _ p inv HSM HFM Hp Hinv) as Hright.
  pose proof (identity_product_entries _ _ p HSM HSI HFM HFI Hp Hright) as HI.
  destruct (matVecMul_fin p p inv (accumulate_Xty X y n p) HSI HFI HFc ltac:(lia))
    as [HLb Hb].
  set (b := matVecMul inv (accumulate_Xty X y n p)) in *.
  assert (HFb : finite_vec b).
  { apply finite_vec_intro. intros j Hj. rewrite HLb in Hj. rewrite Hb by exact Hj. exact I. }
  assert (Hyhat : forall i, (i < n)%nat ->
            ((fun xi : vec => vecDot xi b) <$> X) !!! i = Fin (fitted X b p i)).
  { intros i Hi. rewrite (list_lookup_total_fmap (A:=vec) _ X i) by (destruct HS; lia).
    rewrite vecDot_fin.
    - rewrite (shape_row n p X i HS Hi). reflexivity.
    - apply finite_matrix_row; [exact HF|]. destruct HS; lia.
    - exact HFb.
    - rewrite (shape_row n p X i HS Hi). lia. }
  set (res := imap (fun i yi => (yi - ((fun xi : vec => vecDot xi b) <$> X) !!! i)%num) y).
  assert (Hres : forall i, (i < n)%nat -> res !!! i = Fin (at_ y i - fitted X b p i)).
  { intros i Hi. unfold res. rewrite (list_lookup_total_imap _ y i) by lia.
    rewrite Hyhat by exact Hi. rewrite (at_fin y i) at 1 by (assumption || lia).
    reflexivity. }
  assert (HLres : length res = n) by (unfold res; rewrite length_imap; exact Hlen).
  assert (HFres : finite_vec res).
  { apply finite_vec_intro. intros i Hi. rewrite HLres in Hi. rewrite Hres by exact Hi. exact I. }
  assert (Hmean : (foldl nadd (Fin 0) y / of_nat n)%num = Fin (rsum n (at_ y) / INR n)).
  { rewrite foldl_nadd_sum, Hlen by exact Hy. unfold of_nat. cbn [ndiv].
    rewrite decide_False; [reflexivity|]. apply not_0_INR. lia. }
  intros Hr. apply (inj Some) in Hr. subst r. cbn [beta residuals fit_R2 NMBE]. fold b. fold res.
  split; [exact HLb|]. split; [exact HFb|]. split.
  { intros j Hj.
    rewrite (rsum_ext p _ (fun k => rsum p (fun l =>
               ent (accumulate_XtX X n p) j k * ent inv k l * moment X y n l))).
    2:{ intros k Hk. unfold at_. rewrite Hb by exact Hk. cbn [toR].
        rewrite <- HM by assumption. rewrite <- rsum_scal.
        apply rsum_ext. intros l Hl. rewrite Hc by exact Hl. lra. }
    rewrite rsum_swap.
    rewrite (rsum_ext p _ (fun l => kronecker j l * moment X y n l)).
    - apply (rsum_kronecker p j (fun l => moment X y n l)). exact Hj.
    - intros l Hl. rewrite <- (HI j l Hj Hl).
      rewrite Rmult_comm, <- rsum_scal. apply rsum_ext. intros k _. lra. }
  split; [exact HLres|]. split; [exact HFres|]. split.
  { intros i Hi. unfold at_ at 1. rewrite Hres by exact Hi. reflexivity. }
  assert (HSS : foldl (fun s r => (s + r * r)%num) (Fin 0) res
                = Fin (rsum n (fun i => at_ res i * at_ res i))).
  { rewrite (foldl_list_sum (fun x => (x * x)%num) res
               (fun i => at_ res i * at_ res i)), HLres; [reflexivity|].
    intros i Hi. rewrite (at_fin res i) by assumption. reflexivity. }
  assert (HST : foldl (fun s yi => (s + Math_pow (yi - Fin (rsum n (at_ y) / INR n)) (Fin 2))%num)
                  (Fin 0) y
                = Fin (rsum n (fun i => (at_ y i - rsum n (at_ y) / INR n)
                                        * (at_ y i - rsum n (at_ y) / INR n)))).
  { rewrite (foldl_list_sum _ y
               (fun i => (at_ y i - rsum n (at_ y) / INR n)
                         * (at_ y i - rsum n (at_ y) / INR n))), Hlen; [reflexivity|].
    intros i Hi. rewrite (at_fin y i) at 1 by assumption.
    unfold nsub. cbn [nneg nadd]. rewrite Math_pow_2. reflexivity. }
  rewrite Hmean, HSS, HST, (foldl_nadd_sum res HFres), HLres. split; reflexivity.
Qed.

Local Close Scope R_scope.

Local Open Scope R_scope.






(** X16. The coefficient of determination that [fitOLS] reports on finite
    data is never above 1: it is a number at most 1, [-Infinity] or NaN. *)
Theorem fitOLS_R2_at_most_one (X : matrix) (y : vec) (n p : nat) (r : OLSFit) :
  shape n p X -> finite_matrix X -> length y = n -> finite_vec y ->
  (0 < n)%nat -> (0 < p)%nat -> fitOLS X y = Some r ->
  (Fin 1 <? fit_R2 r)%num = false.
Proof.
  intros HS HF Hlen Hy Hn Hp Hfit.
  destruct (fitOLS_real X y n p r HS HF Hlen Hy Hn Hp Hfit)
    as (_ & _ & _ & _ & _ & _ & -> & _).
  set (A := rsum n (fun i => at_ (residuals r) i * at_ (residuals r) i)).
  set (B := rsum n _).
  assert (HA : 0 <= A).
  { apply rsum_nonneg. intros i _. apply Rle_0_sqr. }
  assert (HB : 0 <= B).
  { apply rsum_nonneg. intros i _. apply Rle_0_sqr. }
  unfold nsub. cbn [ndiv]. destruct (decide (B = 0)) as [HB0|HB0].
  - unfold by_sign. destruct (decide (0 < A)); [reflexivity|].
    destruct (decide (A < 0)); [lra|reflexivity].
  - cbn [nneg nadd nlt]. apply bool_decide_eq_false_2.
    assert (0 <= A / B) by (apply Rmult_le_pos; [exact HA|]; apply Rlt_le, Rinv_0_lt_compat; lra).
    lra.
Qed.

Local Close Scope R_scope.

Local Open Scope R_scope.

Lemma line_fit : exists r, fitOLS line_X line_y = Some r.
Proof.
  assert (Hinv : exists inv, matInvert (accumulate_XtX line_X 3 2) = Some inv).
  { unfold accumulate_XtX, line_X. cbn -[matInvert Z.pow_pos Rabs].
    eval_invert. eexists. reflexivity. }
  destruct Hinv as [inv Hinv]. unfold fitOLS.
  change (length line_y) with 3%nat. change (length (line_X !!! 0%nat)) with 2%nat.
  rewrite Hinv. eexists. reflexivity.
Qed.

Lemma line_shape : shape 3 2 line_X /\ finite_matrix line_X /\ finite_vec line_y.
Proof.
  split; [split; [reflexivity|repeat constructor]|]. split; repeat constructor.
Qed.



Lemma fitOLS_R2_at_most_one_witness :
  exists r, fitOLS line_X line_y = Some r /\ (Fin 1 <? fit_R2 r)%num = false.
Proof.
  destruct line_fit as [r Hr]. destruct line_shape as (HS & HF & Hy).
  exists r. split; [exact Hr|].
  exact (fitOLS_R2_at_most_one line_X line_y 3 2 r HS HF eq_refl Hy
           ltac:(lia) ltac:(lia) Hr).
Defined.

Local Close Scope R_scope.

(** ** The OLS change-point search *)

(** A loop with a body that always continues folds over the grid. *)
Lemma for_steps_total {St : Type} (f : St -> num -> St) fuel : forall c hi step s,
  for_steps fuel c hi step (fun c s => Some (f s c)) s
  = (fun g => foldl f s g) <$> grid fuel c hi step.
Proof.
  induction fuel as [|fuel IH]; intros c hi step s; [reflexivity|].
  simpl. destruct (c <=? hi)%num; [|reflexivity].
  rewrite IH. destruct (grid fuel _ hi step); reflexivity.
Qed.

Lemma for_steps_total_nested {St : Type} (f : St -> num * option num -> St)
    fuelI hi2 fuel : forall c hi s,
  for_steps fuel c hi (Fin 1)
    (fun cph s =>
       for_steps fuelI (cph + Fin 6)%num hi2 (Fin 1)
         (fun cpc s => Some (f s (cph, Some cpc))) s)
    s
  = match grid fuel c hi (Fin 1) with
    | Some outer => (fun pts => foldl f s pts) <$> grid_pairs fuelI outer hi2
    | None => None
    end.
Proof.
  induction fuel as [|fuel IH]; intros c hi s; [reflexivity|].
  simpl. destruct (c <=? hi)%num; [|reflexivity].
  rewrite (for_steps_total (fun s cpc => f s (c, Some cpc))).
  destruct (grid fuelI (c + Fin 6)%num hi2 (Fin 1)) as [inner|] eqn:Hinner; simpl.
  - rewrite IH. destruct (grid fuel _ hi (Fin 1)) as [outer|]; simpl; [|reflexivity].
    rewrite Hinner. destruct (grid_pairs fuelI outer hi2) as [r|]; simpl; [|reflexivity].
    rewrite foldl_app, foldl_fmap. reflexivity.
  - destruct (grid fuel _ hi (Fin 1)) as [outer|]; simpl; [|reflexivity].
    rewrite Hinner. reflexivity.
Qed.

(** The search as a fold over the grid of [changePointPosterior] *)
Lemma fitOLSWithCP_fold fuel temps energy modelType :
  fitOLSWithCP fuel temps energy modelType
  = (fun g => (foldl (consider_point temps energy modelType) (None, PInf) g).1)
    <$> grid_points fuel temps modelType cpStep_default.
Proof.
  unfold fitOLSWithCP, grid_points, cpStep_default.
  destruct (decide (modelType = "3PH")) as [->|H3PH].
  { rewrite decide_True by (left; reflexivity).
    rewrite (for_steps_total (fun s c => consider_3P temps energy "3PH" c s)).
    destruct (grid fuel _ _ (Fin 0.5)) as [g|]; simpl; [|reflexivity].
    rewrite foldl_fmap. reflexivity. }
  destruct (decide (modelType = "3PC")) as [->|H3PC].
  { rewrite decide_True by (right; reflexivity).
    rewrite (for_steps_total (fun s c => consider_3P temps energy "3PC" c s)).
    destruct (grid fuel _ _ (Fin 0.5)) as [g|]; simpl; [|reflexivity].
    rewrite foldl_fmap. reflexivity. }
  rewrite (decide_False (P := modelType = "3PH" \/ modelType = "3PC"))
    by (intros [?|?]; contradiction).
  destruct (decide (modelType = "5P")) as [->|H5P]; [|reflexivity].
  rewrite (for_steps_total_nested (consider_point temps energy "5P")).
  destruct (grid fuel _ _ (Fin 1)) as [outer|]; [|reflexivity].
  destruct (grid_pairs fuel outer _); reflexivity.
Qed.



Lemma foldl_invariant {St B : Type} (P : St -> Prop) (f : St -> B -> St) (l : list B) :
  (forall s x, x ∈ l -> P s -> P (f s x)) -> forall s, P s -> P (foldl f s l).
Proof.
  induction l as [|x l IH]; intros Hstep s Hs; [exact Hs|].
  simpl. apply IH.
  - intros s' x' Hx'. apply Hstep. right. exact Hx'.
  - apply Hstep; [left|exact Hs].
Qed.

Lemma grid_pairs_second fuel outer hi2 pts pt :
  grid_pairs fuel outer hi2 = Some pts -> pt ∈ pts -> exists cpc, pt.2 = Some cpc.
Proof.
  revert pts. induction outer as [|cph rest IH]; intros pts Hpts Hin.
  - injection Hpts as <-. inversion Hin.
  - simpl in Hpts.
    destruct (grid fuel (cph + Fin 6)%num hi2 (Fin 1)) as [inner|]; [|discriminate].
    destruct (grid_pairs fuel rest hi2) as [r|]; [|discriminate].
    injection Hpts as <-. apply elem_of_app in Hin as [Hin|Hin].
    + apply list_elem_of_fmap in Hin as (cpc & -> & _). exists cpc. reflexivity.
    + apply (IH r eq_refl Hin).
Qed.

Lemma consider_point_qualifies temps energy modelType s pt :
  (pt.2 = None \/ modelType = "5P") ->
  qualifies temps energy modelType s ->
  qualifies temps energy modelType (consider_point temps energy modelType s pt).
Proof.
  intros Hpt Hs. destruct pt as [c [cpc|]]; unfold consider_point; cbn [fst snd] in *.
  - destruct Hpt as [Hpt|Hpt]; [discriminate|]. unfold consider_5P.
    destruct (fitOLS _ energy) as [r|] eqn:Hfit; [|exact Hs].
    destruct (_ && _) eqn:Hcond; [|exact Hs].
    apply andb_prop in Hcond as [Hcond H2]. apply andb_prop in Hcond as [Hcond H1].
    apply andb_prop in Hcond as [HR2 _].
    unfold qualifies. cbn [fst snd]. repeat split; assumption.
  - unfold consider_3P.
    destruct (fitOLS _ energy) as [r|] eqn:Hfit; [|exact Hs].
    destruct (_ && _) eqn:Hcond; [|exact Hs].
    apply andb_prop in Hcond as [Hcond H1]. apply andb_prop in Hcond as [HR2 _].
    unfold qualifies. cbn [fst snd]. repeat split; assumption.
Qed.

(** X18. A fit that [fitOLSWithCP] returns always qualifies: it is the
    [fitOLS] fit of the design at the change point(s) stored with it, its
    [R2] is positive and its slope coefficient(s) are positive.  A fit with
    a non-positive [R2] or slope is never returned. *)
Theorem fitOLSWithCP_best_qualifies (fuel : nat) (temps energy : vec)
    (modelType : string) (r : OLSFit) (cps : ChangePoints) :
  fitOLSWithCP fuel temps energy modelType = Some (Some (r, cps)) ->
  (fit_R2 r >? Fin 0)%num = true
  /\ (beta r !!! 1 >? Fin 0)%num = true
  /\ match cps with
     | OneCP c =>
         fitOLS (buildDesignMatrix temps modelType (Some c) None) energy = Some r
     | TwoCP cph cpc =>
         (beta r !!! 2 >? Fin 0)%num = true
         /\ fitOLS (buildDesignMatrix temps "5P" (Some cph) (Some cpc)) energy = Some r
     end.
Proof.
  rewrite fitOLSWithCP_fold.
  destruct (grid_points fuel temps modelType cpStep_default) as [g|] eqn:Hg; [|discriminate].
  cbn [fmap option_fmap option_map]. intros Hbest. apply (inj Some) in Hbest.
  assert (Hq : qualifies temps energy modelType
                 (foldl (consider_point temps energy modelType) (None, PInf) g)).
  { apply foldl_invariant; [|exact I].
    intros s pt Hpt Hs. apply consider_point_qualifies; [|exact Hs].
    unfold grid_points in Hg.
    destruct (decide (modelType = "3PH" \/ modelType = "3PC")).
    - destruct (grid fuel _ _ cpStep_default) as [g0|]; [|discriminate].
      injection Hg as <-. apply list_elem_of_fmap in Hpt as (c & -> & _). left. reflexivity.
    - destruct (decide (modelType = "5P")) as [->|]; [right; reflexivity|].
      injection Hg as <-. inversion Hpt. }
  unfold qualifies in Hq. rewrite Hbest in Hq.
  destruct Hq as (H1 & H2 & _ & H4). repeat split; try assumption.
Qed.

Local Open Scope R_scope.

(** *** A search that returns a fit *)

Lemma heat_fit :
  exists r, fitOLS heat_X heat_energy = Some r
    /\ (fit_R2 r >? Fin 0)%num = true
    /\ (vecDot (residuals r) (residuals r) <? PInf)%num = true
    /\ (beta r !!! 1%nat >? Fin 0)%num = true.
Proof.
  assert (Hinv : exists inv, matInvert (accumulate_XtX heat_X 2 2) = Some inv).
  { assert (HM : accumulate_XtX heat_X 2 2 = [[Fin 2; Fin 3]; [Fin 3; Fin 9]]).
    { unfold accumulate_XtX, heat_X. cbn -[Z.pow_pos Rabs]. repeat f_equal; lra. }
    rewrite HM. eval_invert. eexists. reflexivity. }
  destruct Hinv as [inv Hinv].
  assert (Hfit : exists r, fitOLS heat_X heat_energy = Some r).
  { unfold fitOLS.
    change (length heat_energy) with 2%nat. change (length (heat_X !!! 0%nat)) with 2%nat.
    rewrite Hinv. eexists. reflexivity. }
  destruct Hfit as [r Hfit]. exists r. split; [exact Hfit|].
  assert (HS : shape 2 2 heat_X) by (split; [reflexivity|repeat constructor]).
  assert (HF : finite_matrix heat_X) by repeat constructor.
  assert (Hy : finite_vec heat_energy) by repeat constructor.
  destruct (fitOLS_real heat_X heat_energy 2 2 r HS HF eq_refl Hy ltac:(lia) ltac:(lia) Hfit)
    as (HLb & HFb & Hnormal & HLr & HFr & Hres & HR2 & _).
  pose proof (Hnormal 0%nat ltac:(lia)) as N0.
  pose proof (Hnormal 1%nat ltac:(lia)) as N1.
  pose proof (Hres 0%nat ltac:(lia)) as R0. pose proof (Hres 1%nat ltac:(lia)) as R1.
  unfold gram, moment, fitted, ent, at_ in N0, N1, R0, R1, HR2.
  unfold heat_X, heat_energy in N0, N1, R0, R1, HR2.
  cbn [rsum lookup_total list_lookup_total toR] in N0, N1, R0, R1, HR2.
  assert (Hb0 : toR (beta r !!! 0%nat) = 1) by lra.
  assert (Hb1 : toR (beta r !!! 1%nat) = 1 / 3) by lra.
  rewrite Hb0, Hb1 in R0, R1.
  assert (R0' : toR (residuals r !!! 0%nat) = 0) by lra.
  assert (R1' : toR (residuals r !!! 1%nat) = 0) by lra.
  split; [|split].
  - rewrite HR2, R0', R1'.
    unfold nsub. cbn [ndiv]. rewrite decide_False by (simpl; lra).
    cbn [nneg nadd nlt]. apply bool_decide_eq_true. simpl. lra.
  - rewrite vecDot_fin by (assumption || lia). reflexivity.
  - rewrite (at_fin (beta r) 1) by (assumption || lia). cbn [nlt].
    apply bool_decide_eq_true. unfold at_. lra.
Qed.

Lemma heat_search :
  exists r, fitOLSWithCP 2 heat_temps heat_energy "3PH"
            = Some (Some (r, OneCP (Fin (0 + 3)))).
Proof.
  destruct heat_fit as (r & Hfit & HR2 & HSS & Hb1). exists r.
  rewrite fitOLSWithCP_fold.
  assert (Hgrid : grid_points 2 heat_temps "3PH" cpStep_default = Some [(Fin (0 + 3), None)]).
  { unfold grid_points, heat_temps, cpStep_default. js_eval. reflexivity. }
  rewrite Hgrid. cbn [fmap option_fmap option_map foldl].
  unfold consider_point, consider_3P. cbn [fst snd].
  assert (HX : buildDesignMatrix heat_temps "3PH" (Some (Fin (0 + 3))) None = heat_X).
  { unfold buildDesignMatrix, heat_temps, heat_X. js_eval. reflexivity. }
  rewrite HX, Hfit, HR2, HSS, Hb1. reflexivity.
Qed.

Lemma fitOLSWithCP_best_qualifies_witness :
  exists r, fitOLSWithCP 2 heat_temps heat_energy "3PH"
            = Some (Some (r, OneCP (Fin (0 + 3))))
    /\ (fit_R2 r >? Fin 0)%num = true /\ (beta r !!! 1%nat >? Fin 0)%num = true.
Proof.
  destruct heat_search as [r Hr]. exists r. split; [exact Hr|].
  destruct (fitOLSWithCP_best_qualifies _ _ _ _ _ _ Hr) as (H1 & H2 & _).
  split; assumption.
Defined.

Local Close Scope R_scope.

(** ** Default priors *)

Local Open Scope R_scope.









Local Close Scope R_scope.

(** ** The density of the noise variance *)

Local Open Scope R_scope.



Local Close Scope R_scope.

(** ** The prior density of a coefficient *)

Local Open Scope R_scope.

Lemma scaled_identity_entries (p : nat) (lambda : R) :
  shape p p (scaled_identity p (Fin lambda))
  /\ finite_matrix (scaled_identity p (Fin lambda))
  /\ forall i j, (i < p)%nat -> (j < p)%nat ->
       ent (scaled_identity p (Fin lambda)) i j = kronecker i j * lambda.
Proof.
  assert (Htab : scaled_identity p (Fin lambda)
                 = (fun i : nat => (fun j : nat => Fin (kronecker i j * lambda)) <$> range 0 p)
                   <$> range 0 p).
  { unfold scaled_identity, identityMatrix. rewrite <- list_fmap_compose.
    apply list_fmap_ext. intros _ i _. cbn [compose].
    rewrite <- list_fmap_compose. apply list_fmap_ext. intros _ j _. cbn [compose].
    unfold kronecker. destruct (decide (i = j)); reflexivity. }
  rewrite Htab.
  assert (HE : forall i j, (i < p)%nat -> (j < p)%nat ->
            (((fun i : nat => (fun j : nat => Fin (kronecker i j * lambda)) <$> range 0 p)
              <$> range 0 p) !!! i) !!! j = Fin (kronecker i j * lambda)).
  { intros i j Hi Hj.
    apply (lookup_total_table p p (fun i j => Fin (kronecker i j * lambda))); assumption. }
  split; [apply shape_table|]. split.
  - apply (finite_matrix_intro p p); [apply shape_table|].
    intros i j Hi Hj. rewrite HE by assumption. exact I.
  - intros i j Hi Hj. unfold ent. rewrite HE by assumption. reflexivity.
Qed.

(** The entries after the row loop of one column *)
Lemma eliminate_entries M n col a :
  (col < n)%nat -> length a = n ->
  (forall r, (r < n)%nat -> row_ok M n (a !!! r)) ->
  length (eliminate a n col) = n
  /\ (forall r, (r < n)%nat -> row_ok M n (eliminate a n col !!! r))
  /\ forall r j, (r < n)%nat -> (j < 2 * n)%nat ->
       ent (eliminate a n col) r j
       = if decide (r = col) then ent a col j
         else ent a r j - ent a r col * ent a col j.
Proof.
  intros Hcol HL HR. unfold eliminate.
  assert (H : forall q, (q <= n)%nat ->
    let a' := foldl (eliminate_row n col) a (range 0 q) in
    length a' = n /\ (forall r, (r < n)%nat -> row_ok M n (a' !!! r))
    /\ forall r j, (r < n)%nat -> (j < 2 * n)%nat ->
         ent a' r j
         = if decide (r < q /\ r <> col)%nat then ent a r j - ent a r col * ent a col j
           else ent a r j).
  { induction q as [|q IH]; intros Hq; cbv zeta.
    { split; [exact HL|]. split; [exact HR|]. intros r j Hr Hj.
      rewrite decide_False by lia. reflexivity. }
    rewrite range_0_S, foldl_app. simpl.
    destruct IH as (HL' & HR' & HE'); [lia|].
    set (a' := foldl (eliminate_row n col) a (range 0 q)) in *.
    unfold eliminate_row. destruct (decide (q = col)) as [->|Hne].
    { split; [exact HL'|]. split; [exact HR'|]. intros r j Hr Hj.
      rewrite HE' by assumption.
      destruct (decide (r < col /\ r <> col)%nat), (decide (r < S col /\ r <> col)%nat);
        (reflexivity || lia). }
    pose proof (HR' q ltac:(lia)) as Hq1. pose proof (HR' col Hcol) as Hc1.
    pose proof (row_ok_entry_fin M n (a' !!! q) col Hq1 ltac:(lia)) as Hfq.
    rewrite Hfq.
    destruct (row_ok_eliminate M n (a' !!! q) (a' !!! col) (toR ((a' !!! q) !!! col)) Hq1 Hc1)
      as [Hnew HnewE].
    split; [rewrite length_insert; exact HL'|]. split.
    - intros r Hr. rewrite list_lookup_total_insert.
      destruct (decide (q = r)) as [<-|Hqr].
      + rewrite decide_True by (split; [reflexivity|lia]). exact Hnew.
      + rewrite decide_False by (intros [? ?]; congruence). apply HR'. exact Hr.
    - intros r j Hr Hj. unfold ent at 1. rewrite list_lookup_total_insert.
      destruct (decide (q = r)) as [<-|Hqr].
      + rewrite decide_True by (split; [reflexivity|lia]).
        rewrite HnewE by exact Hj.
        rewrite (decide_True (P := (q < S q /\ q <> col)%nat)) by lia.
        fold (ent a' q j). fold (ent a' q col). fold (ent a' col j).
        rewrite !HE' by (assumption || lia).
        rewrite !(decide_False (P := (q < q /\ _)%nat)) by lia.
        rewrite !(decide_False (P := (col < q /\ _)%nat)) by lia. reflexivity.
      + rewrite decide_False by (intros [? ?]; congruence).
        fold (ent a' r j). rewrite HE' by assumption.
        destruct (decide (r < q /\ r <> col)%nat), (decide (r < S q /\ r <> col)%nat);
          (reflexivity || lia). }
  destruct (H n (le_n _)) as (HL' & HR' & HE'). split; [exact HL'|]. split; [exact HR'|].
  intros r j Hr Hj. rewrite HE' by assumption.
  destruct (decide (r = col)) as [->|Hne].
  - rewrite decide_False by lia. reflexivity.
  - rewrite decide_True by lia. reflexivity.
Qed.

Lemma find_pivot_first a n col :
  (forall r, (col < r < n)%nat ->
     (Math_abs ((a !!! r) !!! col) >? Math_abs ((a !!! col) !!! col))%num = false) ->
  find_pivot a n col = col.
Proof.
  intros H. unfold find_pivot.
  assert (Hl : forall l, (forall r, r ∈ l -> (col < r < n)%nat) ->
            foldl (fun maxRow row =>
                     if (Math_abs ((a !!! row) !!! col) >? Math_abs ((a !!! maxRow) !!! col))%num
                     then row else maxRow) col l = col).
  { induction l as [|r l IH]; intros Hin; [reflexivity|].
    simpl. rewrite H by (apply Hin; left). apply IH. intros r' Hr'. apply Hin. right. exact Hr'. }
  apply Hl. intros r Hr. apply elem_of_range in Hr. lia.
Qed.

Lemma swap_rows_same (a : matrix) c : swap_rows c c a = a.
Proof.
  unfold swap_rows. rewrite list_insert_insert_eq.
  apply list_insert_id'. intros Hc. apply list_lookup_lookup_total_lt. exact Hc.
Qed.

Lemma kronecker_self i : kronecker i i = 1.
Proof. unfold kronecker. rewrite decide_True by reflexivity. reflexivity. Qed.

Lemma kronecker_other i j : i <> j -> kronecker i j = 0.
Proof. intros H. unfold kronecker. rewrite decide_False by exact H. reflexivity. Qed.

(** One column of the inversion of [lambda * I] *)
Lemma diag_step (lambda : R) (n c : nat) (a : matrix) :
  let M := scaled_identity n (Fin lambda) in
  (c < n)%nat -> invert_inv M n c a ->
  (forall r j, (r < n)%nat -> (j < 2 * n)%nat -> ent a r j = diag_stage lambda n c r j) ->
  (Rabs lambda < 1e-14 -> invert_step n a c = None)
  /\ (~ Rabs lambda < 1e-14 ->
      exists a', invert_step n a c = Some a'
        /\ forall r j, (r < n)%nat -> (j < 2 * n)%nat ->
             ent a' r j = diag_stage lambda n (S c) r j).
Proof.
  intros M Hc Hinv HE. destruct Hinv as [HL HR].
  assert (Hfin : forall r j, (r < n)%nat -> (j < 2 * n)%nat ->
            (a !!! r) !!! j = Fin (diag_stage lambda n c r j)).
  { intros r j Hr Hj. destruct (HR r Hr) as [Hrow _].
    rewrite (row_ok_entry_fin M n _ j Hrow Hj). f_equal. apply HE; assumption. }
  assert (Hpiv : (a !!! c) !!! c = Fin lambda).
  { rewrite Hfin by lia. f_equal. unfold diag_stage.
    rewrite decide_True by lia. rewrite decide_False by lia.
    rewrite kronecker_self. lra. }
  assert (Hfp : find_pivot a n c = c).
  { apply find_pivot_first. intros r Hr. rewrite Hpiv, Hfin by lia.
    unfold diag_stage. rewrite decide_True by lia. rewrite decide_False by lia.
    rewrite kronecker_other by lia. cbn [Math_abs nabs nlt].
    apply bool_decide_eq_false_2. rewrite Rmult_0_r, Rabs_R0.
    pose proof (Rabs_pos lambda). lra. }
  unfold invert_step. rewrite Hfp, swap_rows_same, Hpiv.
  unfold pivot_tol. cbn [Math_abs nabs nlt]. split.
  - intros Hsmall. rewrite bool_decide_eq_true_2 by exact Hsmall. reflexivity.
  - intros Hbig. rewrite bool_decide_eq_false_2 by exact Hbig.
    assert (Hl0 : lambda <> 0).
    { intros ->. apply Hbig. rewrite Rabs_R0. lra. }
    eexists. split; [reflexivity|].
    unfold scale_pivot_row. rewrite Hpiv.
    destruct (HR c Hc) as [Hrow _].
    destruct (row_ok_scale M n (a !!! c) lambda Hrow Hl0) as [Hs HsE].
    set (b := <[c := for_cols 0 (2 * n) (fun _ v => (v / Fin lambda)%num) (a !!! c)]> a).
    assert (HLb : length b = n) by (unfold b; rewrite length_insert; exact HL).
    assert (HRb : forall r, (r < n)%nat -> row_ok M n (b !!! r)).
    { intros r Hr. unfold b. rewrite list_lookup_total_insert.
      destruct (decide (c = r)) as [<-|Hne].
      - rewrite decide_True by (split; [reflexivity|lia]). exact Hs.
      - rewrite decide_False by (intros [? ?]; congruence). apply HR. exact Hr. }
    assert (HEb : forall r j, (r < n)%nat -> (j < 2 * n)%nat ->
              ent b r j = if decide (r = c) then diag_stage lambda n c c j / lambda
                          else diag_stage lambda n c r j).
    { intros r j Hr Hj. unfold ent, b. rewrite list_lookup_total_insert.
      destruct (decide (r = c)) as [->|Hne].
      - rewrite decide_True by (split; [reflexivity|lia]).
        rewrite HsE by exact Hj. fold (ent a c j). rewrite HE by assumption. reflexivity.
      - rewrite decide_False by (intros [? ?]; congruence).
        fold (ent a r j). apply HE; assumption. }
    destruct (eliminate_entries M n c b Hc HLb HRb) as (_ & _ & Hel).
    intros r j Hr Hj. rewrite Hel by assumption.
    rewrite !HEb by (assumption || lia).
    rewrite (decide_True (P := c = c)) by reflexivity.
    unfold diag_stage.
    destruct (decide (r = c)) as [->|Hrc].
    + rewrite ?(decide_True (P := (c < n)%nat)) by exact Hc.
      rewrite ?(decide_False (P := (c < c)%nat)) by lia.
      rewrite ?(decide_True (P := (c < S c)%nat)) by lia.
      destruct (decide (j < n)%nat); field; exact Hl0.
    + rewrite ?(decide_True (P := (c < n)%nat)) by exact Hc.
      rewrite ?(decide_False (P := (c < c)%nat)) by lia.
      rewrite ?(kronecker_other r c Hrc).
      destruct (decide (r < c)%nat) as [Hlt|Hge].
      * rewrite ?(decide_True (P := (r < S c)%nat)) by lia.
        destruct (decide (j < n)%nat); lra.
      * rewrite ?(decide_False (P := (r < S c)%nat)) by lia.
        destruct (decide (j < n)%nat); lra.
Qed.

Lemma diag_loop (lambda : R) (n k : nat) :
  let M := scaled_identity n (Fin lambda) in
  ~ Rabs lambda < 1e-14 ->
  forall c a, (c + k = n)%nat -> invert_inv M n c a ->
  (forall r j, (r < n)%nat -> (j < 2 * n)%nat -> ent a r j = diag_stage lambda n c r j) ->
  exists a', invert_loop n (seq c k) a = Some a'
    /\ forall r j, (r < n)%nat -> (j < 2 * n)%nat -> ent a' r j = diag_stage lambda n n r j.
Proof.
  intros M Hbig. induction k as [|k IH]; intros c a Hck Hinv HE.
  - exists a. split; [reflexivity|].
    assert (Hcn : c = n) by lia. rewrite Hcn in HE. exact HE.
  - cbn [seq invert_loop].
    destruct (proj2 (diag_step lambda n c a ltac:(lia) Hinv HE) Hbig) as (a1 & Hstep & HE1).
    rewrite Hstep. apply (IH (S c) a1); [lia| |exact HE1].
    apply (invert_step_inv M n c a a1); [lia|exact Hinv|exact Hstep].
Qed.

Lemma augment_diag_stage (lambda : R) (n : nat) :
  forall r j, (r < n)%nat -> (j < 2 * n)%nat ->
    ent (augment (scaled_identity n (Fin lambda))) r j = diag_stage lambda n 0 r j.
Proof.
  intros r j Hr Hj. destruct (scaled_identity_entries n lambda) as (HS & HF & HE).
  unfold diag_stage. rewrite (decide_False (P := (r < 0)%nat)) by lia.
  destruct (decide (j < n)%nat) as [Hjn|Hjn].
  - rewrite (ent_augment_left _ n r j HS Hr Hjn), HE by assumption. lra.
  - replace j with (n + (j - n))%nat at 1 by lia.
    apply (ent_augment_right _ n r (j - n) HS Hr). lia.
Qed.

(** [matInvert] on [lambda * I]: [null] below the pivot tolerance,
    [I / lambda] otherwise. *)
Lemma scaled_identity_invert (lambda : R) (n : nat) :
  (Rabs lambda < 1e-14 -> (0 < n)%nat -> matInvert (scaled_identity n (Fin lambda)) = None)
  /\ (~ Rabs lambda < 1e-14 ->
      exists B, matInvert (scaled_identity n (Fin lambda)) = Some B
        /\ forall i j, (i < n)%nat -> (j < n)%nat ->
             (B !!! i) !!! j = Fin (kronecker i j / lambda)).
Proof.
  destruct (scaled_identity_entries n lambda) as (HS & HF & HE).
  pose proof (augment_inv _ n HS HF) as Hinv0.
  pose proof (augment_diag_stage lambda n) as HE0.
  pose proof HS as [HL _].
  split.
  - intros Hsmall Hn. unfold matInvert. rewrite HL.
    destruct n as [|n]; [lia|]. unfold range. rewrite Nat.sub_0_r. cbn [seq invert_loop].
    rewrite (proj1 (diag_step lambda (S n) 0 _ ltac:(lia) Hinv0 HE0) Hsmall). reflexivity.
  - intros Hbig.
    destruct (diag_loop lambda n n Hbig 0%nat _ ltac:(lia) Hinv0 HE0) as (a' & Hloop & HE').
    assert (HB : matInvert (scaled_identity n (Fin lambda)) = Some (drop n <$> a')).
    { unfold matInvert. rewrite HL. unfold range. rewrite Nat.sub_0_r, Hloop. reflexivity. }
    exists (drop n <$> a'). split; [exact HB|].
    destruct (matInvert_left_inverse _ n _ HS HF HB) as (HSB & HFB & _).
    intros i j Hi Hj. rewrite (ent_fin _ n n i j HSB HFB Hi Hj). f_equal.
    assert (HLa : length a' = n).
    { destruct HSB as [HLB _]. rewrite length_fmap in HLB. exact HLB. }
    unfold ent. rewrite (list_lookup_total_fmap (A:=vec) _ a' i) by lia.
    rewrite lookup_total_drop. fold (ent a' i (n + j)).
    rewrite HE' by lia. unfold diag_stage.
    rewrite decide_False by lia. rewrite decide_True by lia.
    replace (n + j - n)%nat with j by lia. reflexivity.
Qed.

(** X22. [parameterPrior] returns [null] exactly when the prior strength
    is below the pivot tolerance of [matInvert]: for a finite strength
    [lambda], a number [p >= 1] of coefficients and an index below [p], the
    result is [null] when [|lambda| < 1e-14]; otherwise it is the summary
    with [mean] the prior mean of the coefficient, [nu = 2 * noiseA] and
    [scale = sqrt(noiseB / noiseA * (1 / lambda))], and it has no credible
    intervals. *)
Theorem parameterPrior_null_iff (priors : Priors) (paramIndex p nPoints : nat)
    (lambda : R) :
  strength priors = Fin lambda -> (paramIndex < p)%nat ->
  let mu := (buildPriorParams priors p).1.1.1 !!! paramIndex in
  let nu := (Fin 2 * noiseA priors)%num in
  let scale := Math_sqrt (noiseB priors / noiseA priors * Fin (1 / lambda))%num in
  (Rabs lambda < 1e-14 -> parameterPrior priors paramIndex p nPoints = None)
  /\ (~ Rabs lambda < 1e-14 ->
      parameterPrior priors paramIndex p nPoints
      = Some [ ("points", VPoints (density_curve mu scale nu nPoints));
               ("mean", VNum mu); ("nu", VNum nu); ("scale", VNum scale) ]
      /\ get [ ("points", VPoints (density_curve mu scale nu nPoints));
               ("mean", VNum mu); ("nu", VNum nu); ("scale", VNum scale) ] "ci95" = None).
Proof.
  intros Hlam Hj mu nu scale.
  assert (Hparams : buildPriorParams priors p
                    = ((buildPriorParams priors p).1.1.1, scaled_identity p (Fin lambda),
                       noiseA priors, noiseB priors)).
  { unfold buildPriorParams, scaled_identity. rewrite Hlam. reflexivity. }
  destruct (scaled_identity_invert lambda p) as [Hnone Hsome].
  unfold parameterPrior. rewrite Hparams. split.
  - intros Hsmall. rewrite (Hnone Hsmall ltac:(lia)). reflexivity.
  - intros Hbig. destruct (Hsome Hbig) as (B & -> & HB).
    rewrite (HB paramIndex paramIndex Hj Hj), kronecker_self.
    split; reflexivity.
Qed.

Lemma parameterPrior_null_iff_witness :
  parameterPrior (mkPriors (Fin 1) (Fin 2) None (Fin 0) (Fin 3) (Fin 5)) 1 2 200 = None
  /\ exists obj,
       parameterPrior (mkPriors (Fin 1) (Fin 2) None (Fin 4) (Fin 3) (Fin 5)) 1 2 200
       = Some obj.
Proof.
  split.
  - apply (proj1 (parameterPrior_null_iff
                    (mkPriors (Fin 1) (Fin 2) None (Fin 0) (Fin 3) (Fin 5)) 1 2 200 0
                    eq_refl ltac:(lia))).
    rewrite Rabs_R0. lra.
  - eexists.
    apply (proj2 (parameterPrior_null_iff
                    (mkPriors (Fin 1) (Fin 2) None (Fin 4) (Fin 3) (Fin 5)) 1 2 200 4
                    eq_refl ltac:(lia))).
    unfold Rabs. destruct (Rcase_abs 4); lra.
Defined.

Local Close Scope R_scope.

(** ** Credible intervals *)

Local Open Scope R_scope.

(** X23. When the predictive mean and scale are finite numbers, the three
    credible intervals of [predictiveAtTemp] are nested and ordered: the
    50% interval lies inside the 80% interval, which lies inside the 95%
    interval, and each lower end is at most the upper end. *)
Theorem predictiveAtTemp_nested (post : Posterior) (xStar : vec) (m s : R) :
  pred_mean (predictiveAtTemp post xStar) = Fin m ->
  pred_scale (predictiveAtTemp post xStar) = Fin s ->
  ordered (pred_ci50 (predictiveAtTemp post xStar))
  /\ inside (pred_ci50 (predictiveAtTemp post xStar)) (pred_ci80 (predictiveAtTemp post xStar))
  /\ inside (pred_ci80 (predictiveAtTemp post xStar)) (pred_ci95 (predictiveAtTemp post xStar)).
Proof.
  unfold predictiveAtTemp. cbn [pred_mean pred_scale pred_ci50 pred_ci80 pred_ci95].
  intros Hm Hs. rewrite Hm, Hs.
  pose proof (Math_sqrt_fin_nonneg _ s Hs) as Hs0.
  unfold ordered, inside. cbn [fst snd].
  repeat split; apply quantiles_ordered; lra.
Qed.

Lemma predictiveAtTemp_nested_witness :
  ordered (pred_ci50 (predictiveAtTemp unit_posterior [Fin 1; Fin 2]))
  /\ inside (pred_ci50 (predictiveAtTemp unit_posterior [Fin 1; Fin 2]))
            (pred_ci80 (predictiveAtTemp unit_posterior [Fin 1; Fin 2]))
  /\ inside (pred_ci80 (predictiveAtTemp unit_posterior [Fin 1; Fin 2]))
            (pred_ci95 (predictiveAtTemp unit_posterior [Fin 1; Fin 2])).
Proof.
  eapply predictiveAtTemp_nested.
  - unfold predictiveAtTemp, unit_posterior, vecDot, reduce. cbn -[Z.pow_pos]. reflexivity.
  - unfold predictiveAtTemp, unit_posterior, vecDot, matVecMul, reduce.
    cbn -[Z.pow_pos Math_sqrt]. rewrite decide_False by lra. cbn [nmul Math_sqrt].
    rewrite decide_False; [reflexivity|]. lra.
Defined.

(** X24. When the posterior mean of a coefficient and the scale of its
    marginal are finite numbers, the credible intervals that
    [parameterPosterior] returns are ordered and nested: the 80% interval
    lies inside the 95% interval. *)
Theorem parameterPosterior_nested (post : Posterior) (j nPoints : nat) (m s : R) :
  muN post !!! j = Fin m ->
  Math_sqrt (marginal_variance post j) = Fin s ->
  exists ci95 ci80,
    get (parameterPosterior post j nPoints) "ci95" = Some (VPair ci95.1 ci95.2)
    /\ get (parameterPosterior post j nPoints) "ci80" = Some (VPair ci80.1 ci80.2)
    /\ ordered ci80 /\ inside ci80 ci95.
Proof.
  intros Hm Hs. unfold marginal_variance in Hs.
  pose proof (Math_sqrt_fin_nonneg _ s Hs) as Hs0.
  unfold parameterPosterior. rewrite Hm, Hs.
  eexists (_, _), (_, _). cbn [get String.eqb Ascii.eqb Bool.eqb fst snd].
  split; [reflexivity|]. split; [reflexivity|].
  unfold ordered, inside. cbn [fst snd].
  repeat split; apply quantiles_ordered; lra.
Qed.

Lemma parameterPosterior_nested_witness :
  exists ci95 ci80,
    get (parameterPosterior sample_posterior 0 200) "ci95" = Some (VPair ci95.1 ci95.2)
    /\ get (parameterPosterior sample_posterior 0 200) "ci80" = Some (VPair ci80.1 ci80.2)
    /\ ordered ci80 /\ inside ci80 ci95.
Proof.
  eapply (parameterPosterior_nested sample_posterior 0 200).
  - reflexivity.
  - unfold marginal_variance, sample_posterior. cbn -[Z.pow_pos Math_sqrt].
    rewrite decide_False by lra. cbn [nmul Math_sqrt].
    rewrite decide_False; [reflexivity|]. lra.
Defined.

Local Close Scope R_scope.

(** ** The predictive fan *)

Local Open Scope R_scope.




Local Close Scope R_scope.

(** ** The histogram of the savings samples *)







Local Open Scope R_scope.



Local Close Scope R_scope.

(** ** The posterior scale *)

Local Open Scope R_scope.











Local Close Scope R_scope.

Local Open Scope R_scope.





Local Close Scope R_scope.

(** ** The ranking of the change-point candidates *)

Local Open Scope R_scope.






Local Close Scope R_scope.

(** ** The Cholesky factor of the sampler *)

Local Open Scope R_scope.











Local Close Scope R_scope.

Local Open Scope R_scope.


(** ** The normal sampler *)

(** The loop [while (u === 0) u = Math.random()] skips the zero draws. *)
Lemma draw_nonzero_skip (src : nat -> num) (k : nat) : forall fuel pos u,
  (forall i, (i < k)%nat -> src (pos + i)%nat = Fin 0) ->
  src (pos + k)%nat = u -> (u =? Fin 0)%num = false -> (k < fuel)%nat ->
  draw_nonzero src fuel pos = Some (u, (pos + k + 1)%nat).
Proof.
  induction k as [|k IH]; intros fuel pos u Hzero Hu Hnz Hfuel.
  - destruct fuel as [|fuel]; [lia|]. cbn [draw_nonzero]. unfold bind, Math_random.
    rewrite Nat.add_0_r in Hu. rewrite Hu, Hnz. unfold ret. f_equal. f_equal. lia.
  - destruct fuel as [|fuel]; [lia|]. cbn [draw_nonzero]. unfold bind, Math_random.
    pose proof (Hzero 0%nat ltac:(lia)) as H0. rewrite Nat.add_0_r in H0. rewrite H0.
    cbn [neqb]. rewrite bool_decide_eq_true_2 by reflexivity.
    rewrite (IH fuel (S pos) u).
    + f_equal. f_equal. lia.
    + intros i Hi. replace (S pos + i)%nat with (pos + S i)%nat by lia. apply Hzero. lia.
    + replace (S pos + k)%nat with (pos + S k)%nat by lia. exact Hu.
    + exact Hnz.
    + lia.
Qed.

(** X30. [sampleNormal] skips the draws that are 0 and applies the
    Box-Muller formula to the first non-zero draw [u] and the next non-zero
    draw [v]: when [k1] zeros precede [u] and [k2] zeros precede [v], it
    consumes [k1 + k2 + 2] draws and returns
    [sqrt(-2 ln u) * cos(2 pi v)], a finite number for [u] in (0, 1). *)
Theorem sampleNormal_box_muller (src : nat -> num) (fuel pos k1 k2 : nat) (u v : R) :
  (forall i, (i < k1)%nat -> src (pos + i)%nat = Fin 0) ->
  src (pos + k1)%nat = Fin u -> 0 < u < 1 ->
  (forall i, (i < k2)%nat -> src (pos + k1 + 1 + i)%nat = Fin 0) ->
  src (pos + k1 + 1 + k2)%nat = Fin v -> v <> 0 ->
  (k1 < fuel)%nat -> (k2 < fuel)%nat ->
  sampleNormal src fuel pos
  = Some (Fin (sqrt (-2 * ln u) * cos (2 * PI * v)), (pos + k1 + k2 + 2)%nat).
Proof.
  intros Hz1 Hu Hur Hz2 Hv Hvr Hf1 Hf2. unfold sampleNormal, bind.
  rewrite (draw_nonzero_skip src k1 fuel pos (Fin u) Hz1 Hu); [|cbn [neqb]|exact Hf1].
  2:{ apply bool_decide_eq_false_2. lra. }
  rewrite (draw_nonzero_skip src k2 fuel (pos + k1 + 1) (Fin v) Hz2 Hv); [|cbn [neqb]|exact Hf2].
  2:{ apply bool_decide_eq_false_2. exact Hvr. }
  unfold ret.
  assert (Hln : ln u < 0).
  { rewrite <- ln_1. apply ln_increasing; lra. }
  unfold Math_log, Math_sqrt, Math_cos, Math_PI.
  rewrite (decide_True (P := 0 < u)) by lra. cbn [nmul].
  rewrite decide_False by lra. cbn [nmul].
  f_equal. f_equal. lia.
Qed.

Lemma sampleNormal_box_muller_witness :
  sampleNormal stutter_source 2%nat 0%nat
  = Some (Fin (sqrt (-2 * ln 0.5) * cos (2 * PI * 0.25)), 4%nat).
Proof.
  apply (sampleNormal_box_muller stutter_source 2%nat 0%nat 1%nat 1%nat 0.5 0.25).
  - intros i Hi. replace i with 0%nat by lia. reflexivity.
  - reflexivity.
  - lra.
  - intros i Hi. replace i with 0%nat by lia. reflexivity.
  - reflexivity.
  - lra.
  - lia.
  - lia.
Defined.

Local Close Scope R_scope.
